(** * Word indexing and cache consistency of the find_words service

    A shallow embedding of [services/word.service.ts] (class [WordService]):
    the tokenizer and positional index built by [processArticle], the
    cache-aside read paths [findWords] and [getMostCommonWordArticle], the
    retry wrapper and the cache invalidation.

    Strings.  A JavaScript string is a sequence of UTF-16 code units.  The
    embedding covers the strings whose code units are below 256 (ASCII and
    the Latin-1 supplement), written as Rocq [string]s, one [ascii] per code
    unit.  On that range [toLowerCase] works unit by unit and [length]
    counts characters. *)

From Stdlib Require Import String Ascii List Bool Arith NArith ZArith Lia.
From Stdlib Require Import Permutation Sorted.
From stdpp Require Import base option list strings gmap.

Import ListNotations.
Local Open Scope string_scope.
Local Open Scope list_scope.

(** ** Characters and strings *)

Module JsString.

Definition code (c : ascii) : N := N_of_ascii c.

Definition in_range (lo hi n : N) : bool := (lo <=? n)%N && (n <=? hi)%N.

(** The class [\w] of a regular expression without the [u] and [i] flags:
    [A-Za-z0-9_]. *)
Definition is_word_char (c : ascii) : bool :=
  in_range 97 122 (code c) || in_range 65 90 (code c)
  || in_range 48 57 (code c) || (code c =? 95)%N.

(** [String.prototype.toLowerCase] on one code unit below 256: [A]-[Z] and
    the Latin-1 capitals U+00C0 to U+00DE (U+00D7, the multiplication
    sign, excepted) move up by 32; every other unit is unchanged. *)
Definition lower_unit (c : ascii) : ascii :=
  if in_range 65 90 (code c)
     || (in_range 192 222 (code c) && negb (code c =? 215)%N)
  then ascii_of_N (code c + 32)
  else c.

Fixpoint toLowerCase (s : string) : string :=
  match s with
  | EmptyString => EmptyString
  | String c s' => String (lower_unit c) (toLowerCase s')
  end.

(** [/^\w+$/.test(s)]: a non-empty string of word characters only. *)
Fixpoint all_word (s : string) : bool :=
  match s with
  | EmptyString => true
  | String c s' => is_word_char c && all_word s'
  end.

Definition test_word (s : string) : bool :=
  match s with
  | EmptyString => false
  | String _ _ => all_word s
  end.

(** [s.split(/\b/)].  The splitter of the language walks an index [q]
    over [0 .. size-1] and cuts before [q] when the assertion [\b] holds
    there and [q] is not the start of the current piece; the assertion
    holds between two units exactly one of which is a word character.
    The start of the string is never a cut (the piece would be empty) and
    the end is never tested.  The empty string, in which [\b] matches
    nowhere, gives the one-element array holding the empty string.
    [split_from piece prev s] carries the piece read so far and its last
    unit. *)
Fixpoint split_from (piece : string) (prev : ascii) (s : string) : list string :=
  match s with
  | EmptyString => [piece]
  | String c s' =>
      if xorb (is_word_char prev) (is_word_char c)
      then piece :: split_from (String c EmptyString) c s'
      else split_from (piece ++ String c EmptyString) c s'
  end.

Definition split_word_boundary (s : string) : list string :=
  match s with
  | EmptyString => [EmptyString]
  | String c s' => split_from (String c EmptyString) c s'
  end.

(** [Array.prototype.join]. *)
Fixpoint join (sep : string) (l : list string) : string :=
  match l with
  | [] => EmptyString
  | [x] => x
  | x :: rest => x ++ sep ++ join sep rest
  end.

(** [Array.prototype.sort] without a comparator orders strings by their
    code units; the sort is stable, and on strings its result is the one
    ordered arrangement of the elements. *)
Fixpoint insert_sorted (x : string) (l : list string) : list string :=
  match l with
  | [] => [x]
  | y :: rest => if String.leb x y then x :: l else y :: insert_sorted x rest
  end.

Definition sort (l : list string) : list string :=
  fold_right insert_sorted [] l.

End JsString.

Import JsString.


(** ** Plain objects used as dictionaries

    [wordPositions] and [results] are object literals [{}]: their
    prototype is [Object.prototype], so a key that names one of its
    properties is found on a read although the object does not own it. *)

Module JsObject.

(** The property names of [Object.prototype]. *)
Definition object_prototype_keys : list string :=
  [ "constructor"; "__defineGetter__"; "__defineSetter__"; "hasOwnProperty";
    "__lookupGetter__"; "__lookupSetter__"; "isPrototypeOf";
    "propertyIsEnumerable"; "toString"; "valueOf"; "__proto__";
    "toLocaleString" ].

Definition inherited (k : string) : bool :=
  existsb (String.eqb k) object_prototype_keys.

(** An array index: the canonical decimal writing of an integer from 0 to
    2^32 - 2.  Such keys are enumerated first, in ascending order. *)
Fixpoint decimal_value (acc : N) (s : string) : option N :=
  match s with
  | EmptyString => Some acc
  | String c s' =>
      if in_range 48 57 (code c)
      then decimal_value (acc * 10 + (code c - 48)) s'
      else None
  end.

Definition array_index (s : string) : option N :=
  match s with
  | EmptyString => None
  | String c s' =>
      if (code c =? 48)%N
      then match s' with EmptyString => Some 0%N | _ => None end
      else match decimal_value 0 s with
           | Some n => if (n <=? 4294967294)%N then Some n else None
           | None => None
           end
  end.

Section Props.
Context {V : Type}.

(** Own properties, in creation order. *)
Definition props : Type := list (string * V).

Fixpoint own_get (k : string) (o : props) : option V :=
  match o with
  | [] => None
  | (k', v) :: rest => if String.eqb k k' then Some v else own_get k rest
  end.

(** Writing an own property: an existing one keeps its place. *)
Fixpoint own_set (k : string) (v : V) (o : props) : props :=
  match o with
  | [] => [(k, v)]
  | (k', v') :: rest =>
      if String.eqb k k' then (k', v) :: rest else (k', v') :: own_set k v rest
  end.

(** The value of [o[k]] when the prototype of [o] is
    [Object.prototype]. *)
Inductive got : Type :=
| Own (v : V)
| Inherited
| Undefined.

Definition get (o : props) (k : string) : got :=
  match own_get k o with
  | Some v => Own v
  | None => if inherited k then Inherited else Undefined
  end.

(** Arrays, functions and [Object.prototype] are truthy; [undefined]
    is not. *)
Definition truthy (g : got) : bool :=
  match g with
  | Own _ | Inherited => true
  | Undefined => false
  end.

(** The order of [Object.keys], [Object.entries] and [JSON.stringify]:
    array-index keys by ascending value, then the other keys in
    creation order. *)
Fixpoint insert_by_index (e : N * (string * V)) (l : list (N * (string * V)))
  : list (N * (string * V)) :=
  match l with
  | [] => [e]
  | e' :: rest =>
      if (fst e <=? fst e')%N then e :: l else e' :: insert_by_index e rest
  end.

Definition indexed (o : props) : list (N * (string * V)) :=
  flat_map (fun e => match array_index (fst e) with
                     | Some n => [(n, e)]
                     | None => []
                     end) o.

Definition named (o : props) : props :=
  List.filter (fun e => match array_index (fst e) with
                        | Some _ => false
                        | None => true
                        end) o.

Definition entries (o : props) : props :=
  List.map snd (fold_right insert_by_index [] (indexed o)) ++ named o.

Definition keys (o : props) : list string := List.map fst (entries o).

(** An object whose prototype may have been replaced: an assignment to
    the key [__proto__] of an object value runs the setter inherited
    from [Object.prototype], which replaces the prototype and creates
    no property.  Every other assignment creates or updates an own
    property. *)
Record object : Type := {
  own : props;
  proto : option V   (* [None]: still [Object.prototype] *)
}.

Definition empty : object := {| own := []; proto := None |}.

Definition assign (o : object) (k : string) (v : V) : object :=
  if String.eqb k "__proto__"
  then {| own := own o; proto := Some v |}
  else {| own := own_set k v (own o); proto := proto o |}.

End Props.

Arguments props : clear implicits.
Arguments got : clear implicits.
Arguments object : clear implicits.

End JsObject.

(** ** Building the positional index *)

Inductive error : Type :=
| RedisError      (* a cache command was rejected *)
| StoreError      (* a database call was rejected *)
| SyntaxError     (* [JSON.parse] on a malformed text *)
| TypeError.      (* calling something that is not a function *)

Inductive outcome (A : Type) : Type :=
| Ok (a : A)
| Throw (e : error).

Arguments Ok {A} a.
Arguments Throw {A} e.

Module Indexing.
Import JsObject.

(** One turn of the loop body on a piece that passed the test:
    [if (!wordPositions[word]) wordPositions[word] = [];
     wordPositions[word].push(position)]. *)
Definition record_position (wordPositions : props (list nat))
           (word : string) (position : nat) : outcome (props (list nat)) :=
  let wordPositions :=
    if truthy (get wordPositions word) then wordPositions
    else own_set word [] wordPositions in
  match get wordPositions word with
  | Own positions => Ok (own_set word (positions ++ [position]) wordPositions)
  | Inherited | Undefined => Throw TypeError
  end.

(** [for (const word of words) { ...; position += word.length }]. *)
Fixpoint index_pieces (words : list string) (wordPositions : props (list nat))
         (position : nat) : outcome (props (list nat)) :=
  match words with
  | [] => Ok wordPositions
  | word :: rest =>
      if test_word word then
        match record_position wordPositions word position with
        | Ok wordPositions' =>
            index_pieces rest wordPositions' (position + String.length word)
        | Throw e => Throw e
        end
      else index_pieces rest wordPositions (position + String.length word)
  end.

Definition word_positions (content : string) : outcome (props (list nat)) :=
  index_pieces (split_word_boundary (toLowerCase content)) [] 0.

End Indexing.

Import JsObject Indexing.


(** ** The collaborators: cache, store, logger *)

(** The values that [JSON.parse] returns and [JSON.stringify] accepts. *)
#[local] Unset Elimination Schemes.
Inductive json : Type :=
| JNull
| JBool (b : bool)
| JNum (n : Z)
| JStr (s : string)
| JArr (items : list json)
| JObj (members : list (string * json)).
#[local] Set Elimination Schemes.

(** Truthiness, as tested by [if (cached)] . *)
Definition json_truthy (v : json) : bool :=
  match v with
  | JNull => false
  | JBool b => b
  | JNum n => negb (n =? 0)%Z
  | JStr s => negb (String.eqb s EmptyString)
  | JArr _ | JObj _ => true
  end.

(** A string held by the cache, seen through [JSON.parse]: the text of a
    value, a non-empty text that does not parse, or the empty string. *)
Inductive cache_text : Type :=
| Text (v : json)
| Malformed
| EmptyText.

Module WordIndex.
Record t : Type := {
  articleId : string;
  word : string;
  positions : list nat
}.
End WordIndex.

Module WordArticleCount.
Record t : Type := {
  word : string;
  articleId : string;
  count : nat
}.
End WordArticleCount.

Inductive level : Type := Warn | Error.

Inductive redis_call : Type :=
| Get (key : string)
| SetEx (key : string) (value : cache_text) (seconds : nat)
| Del (key : string).

(** The state the service works on.  [redis] maps a key to its text and the
    expiry it was written with; the two tables are the rows of the
    database; [logged] and [redis_calls] record, oldest first, what was
    logged and which cache commands were issued.  The four fault plans say
    which of the coming calls of each kind is rejected ([true]); a call
    takes the head of its plan, and an exhausted plan rejects nothing.

    Time is not part of the state: an entry stays in the cache until a
    command removes it, whatever its expiry, and the waits between the
    runs of a retried call take no time.  What is stated below about an
    entry that is read therefore concerns the cases in which no wait comes
    before the read that succeeds, or in which the entry has just been
    written for 600 seconds, longer than all the waits of a call
    together. *)
Record world : Type := {
  redis : gmap string (cache_text * nat);
  wordIndex : list WordIndex.t;
  wordArticleCount : list WordArticleCount.t;
  logged : list (level * string);
  redis_calls : list redis_call;
  get_faults : list bool;
  set_faults : list bool;
  del_faults : list bool;
  store_faults : list bool
}.

Definition with_redis (f : gmap string (cache_text * nat) -> gmap string (cache_text * nat))
           (w : world) : world :=
  {| redis := f (redis w); wordIndex := wordIndex w;
     wordArticleCount := wordArticleCount w; logged := logged w;
     redis_calls := redis_calls w; get_faults := get_faults w;
     set_faults := set_faults w; del_faults := del_faults w;
     store_faults := store_faults w |}.

Definition with_tables (wi : list WordIndex.t) (wc : list WordArticleCount.t)
           (w : world) : world :=
  {| redis := redis w; wordIndex := wi; wordArticleCount := wc;
     logged := logged w; redis_calls := redis_calls w;
     get_faults := get_faults w; set_faults := set_faults w;
     del_faults := del_faults w; store_faults := store_faults w |}.

Definition with_log (entry : level * string) (w : world) : world :=
  {| redis := redis w; wordIndex := wordIndex w;
     wordArticleCount := wordArticleCount w; logged := logged w ++ [entry];
     redis_calls := redis_calls w; get_faults := get_faults w;
     set_faults := set_faults w; del_faults := del_faults w;
     store_faults := store_faults w |}.

Definition with_call (c : redis_call) (w : world) : world :=
  {| redis := redis w; wordIndex := wordIndex w;
     wordArticleCount := wordArticleCount w; logged := logged w;
     redis_calls := redis_calls w ++ [c]; get_faults := get_faults w;
     set_faults := set_faults w; del_faults := del_faults w;
     store_faults := store_faults w |}.

Definition with_get_faults (p : list bool) (w : world) : world :=
  {| redis := redis w; wordIndex := wordIndex w;
     wordArticleCount := wordArticleCount w; logged := logged w;
     redis_calls := redis_calls w; get_faults := p;
     set_faults := set_faults w; del_faults := del_faults w;
     store_faults := store_faults w |}.

Definition with_set_faults (p : list bool) (w : world) : world :=
  {| redis := redis w; wordIndex := wordIndex w;
     wordArticleCount := wordArticleCount w; logged := logged w;
     redis_calls := redis_calls w; get_faults := get_faults w;
     set_faults := p; del_faults := del_faults w;
     store_faults := store_faults w |}.

Definition with_del_faults (p : list bool) (w : world) : world :=
  {| redis := redis w; wordIndex := wordIndex w;
     wordArticleCount := wordArticleCount w; logged := logged w;
     redis_calls := redis_calls w; get_faults := get_faults w;
     set_faults := set_faults w; del_faults := p;
     store_faults := store_faults w |}.

Definition with_store_faults (p : list bool) (w : world) : world :=
  {| redis := redis w; wordIndex := wordIndex w;
     wordArticleCount := wordArticleCount w; logged := logged w;
     redis_calls := redis_calls w; get_faults := get_faults w;
     set_faults := set_faults w; del_faults := del_faults w;
     store_faults := p |}.

(** ** Asynchronous code as a state and exception monad

    Every [await] is sequential here: the service awaits each call before
    it issues the next. *)

Definition M (A : Type) : Type := world -> outcome A * world.

#[global] Instance M_ret : MRet M := fun A a w => (Ok a, w).

#[global] Instance M_bind : MBind M := fun A B f m w =>
  match m w with
  | (Ok a, w') => f a w'
  | (Throw e, w') => (Throw e, w')
  end.

Definition throw {A : Type} (e : error) : M A := fun w => (Throw e, w).

(** [try { body } catch (error) { handler }]. *)
Definition try_catch {A : Type} (body : M A) (handler : error -> M A) : M A :=
  fun w =>
    match body w with
    | (Ok a, w') => (Ok a, w')
    | (Throw e, w') => handler e w'
    end.

Definition log (l : level) (message : string) : M unit :=
  fun w => (Ok tt, with_log (l, message) w).

(** Whether the next call of a kind is rejected, and the rest of its plan. *)
Definition next_fault (plan : list bool) : bool * list bool :=
  match plan with
  | [] => (false, [])
  | b :: rest => (b, rest)
  end.

(** *** The cache ([ioredis]) *)

Module Redis.

(** [redis.get(key)]: the text stored under [key], or [null]. *)
Definition get (key : string) : M (option cache_text) := fun w =>
  let w := with_call (Get key) w in
  let (rejected, plan) := next_fault (get_faults w) in
  let w := with_get_faults plan w in
  if rejected then (Throw RedisError, w)
  else (Ok (fst <$> redis w !! key), w).

(** [redis.set(key, value, 'EX', seconds)]. *)
Definition set (key : string) (value : cache_text) (seconds : nat) : M unit := fun w =>
  let w := with_call (SetEx key value seconds) w in
  let (rejected, plan) := next_fault (set_faults w) in
  let w := with_set_faults plan w in
  if rejected then (Throw RedisError, w)
  else (Ok tt, with_redis (insert key (value, seconds)) w).

(** [redis.del(key)]: the command [DEL] removes the key it is given; it
    knows no pattern, so a [*] in [key] is an ordinary character.  The
    reply is the number of keys removed. *)
Definition del (key : string) : M nat := fun w =>
  let w := with_call (Del key) w in
  let (rejected, plan) := next_fault (del_faults w) in
  let w := with_del_faults plan w in
  if rejected then (Throw RedisError, w)
  else (Ok (match redis w !! key with Some _ => 1 | None => 0 end),
        with_redis (delete key) w).

End Redis.

(** *** The database ([prisma]) *)

Module Prisma.

(** Every call first learns from the fault plan whether it is rejected. *)
Definition call {A : Type} (run : world -> A * world) : M A := fun w =>
  let (rejected, plan) := next_fault (store_faults w) in
  let w := with_store_faults plan w in
  if rejected then (Throw StoreError, w)
  else let (a, w') := run w in (Ok a, w').

(** [wordIndex.findMany({ where: { word: { in: words } }, ... })]. *)
Definition wordIndex_findMany (words : list string) : M (list WordIndex.t) :=
  call (fun w =>
    (List.filter (fun index => existsb (String.eqb (WordIndex.word index)) words)
                 (wordIndex w), w)).

(** [wordArticleCount.findFirst({ where: { word }, orderBy: { count:
    'desc' } })]: a row of the word with the greatest count.  Among rows
    of equal count the database is free to choose; the earliest row is
    taken here. *)
Fixpoint greatest (rows : list WordArticleCount.t) : option WordArticleCount.t :=
  match rows with
  | [] => None
  | row :: rest =>
      match greatest rest with
      | None => Some row
      | Some best =>
          if (WordArticleCount.count best <=? WordArticleCount.count row)%nat
          then Some row else Some best
      end
  end.

Definition wordArticleCount_findFirst (word : string) : M (option WordArticleCount.t) :=
  call (fun w =>
    (greatest (List.filter (fun row => String.eqb (WordArticleCount.word row) word)
                           (wordArticleCount w)), w)).

(** [deleteMany({ where: { articleId } })]. *)
Definition wordIndex_deleteMany (articleId : string) : M unit :=
  call (fun w =>
    (tt, with_tables
           (List.filter (fun index => negb (String.eqb (WordIndex.articleId index) articleId))
                        (wordIndex w))
           (wordArticleCount w) w)).

Definition wordArticleCount_deleteMany (articleId : string) : M unit :=
  call (fun w =>
    (tt, with_tables (wordIndex w)
           (List.filter (fun row => negb (String.eqb (WordArticleCount.articleId row) articleId))
                        (wordArticleCount w)) w)).

(** [create({ data })]. *)
Definition wordIndex_create (data : WordIndex.t) : M unit :=
  call (fun w => (tt, with_tables (wordIndex w ++ [data]) (wordArticleCount w) w)).

Definition wordArticleCount_create (data : WordArticleCount.t) : M unit :=
  call (fun w => (tt, with_tables (wordIndex w) (wordArticleCount w ++ [data]) w)).

(** [$transaction(callback)]: when the callback throws, the tables are as
    they were before it ran. *)
Definition transaction {A : Type} (callback : M A) : M A := fun w =>
  match callback w with
  | (Ok a, w') => (Ok a, w')
  | (Throw e, w') => (Throw e, with_tables (wordIndex w) (wordArticleCount w) w')
  end.

End Prisma.

(** *** [p-retry]

    [pRetry(attempt, { retries })] runs [attempt] and, while it throws and
    retries are left, runs it again; the waits between the runs are not
    part of the model.  With no retry left the error is thrown to the
    caller.  (The library gives up at once on a [TypeError]; the attempts of
    this service throw cache errors, store errors and [SyntaxError]s
    only.) *)
Fixpoint pRetry {A : Type} (attempt : M A) (retries : nat) : M A := fun w =>
  match attempt w with
  | (Ok a, w') => (Ok a, w')
  | (Throw e, w') =>
      match retries with
      | 0 => (Throw e, w')
      | S r => pRetry attempt r w'
      end
  end.

(** [for (const x of xs) { await body(x) }]. *)
Fixpoint for_each {A : Type} (body : A -> M unit) (xs : list A) : M unit :=
  match xs with
  | [] => mret tt
  | x :: rest => body x ;; for_each body rest
  end.

(** [Promise.allSettled(calls)]: every call runs, none of their errors is
    thrown. *)
Fixpoint allSettled {A : Type} (calls : list (M A)) : M unit :=
  match calls with
  | [] => mret tt
  | c :: rest => try_catch (c ;; mret tt) (fun _ => mret tt) ;; allSettled rest
  end.

(** ** The service *)

Module WordService.

(** [retryOptions]: [retries: 3], that is four runs at most. *)
Definition retries : nat := 3.

Definition getCachedResult (cacheKey : string) : M json :=
  try_catch
    (pRetry
       (result ← Redis.get cacheKey;
        (* result ? JSON.parse(result) : null *)
        match result with
        | None | Some EmptyText => mret JNull
        | Some Malformed => throw SyntaxError
        | Some (Text v) => mret v
        end)
       retries)
    (fun _ => log Warn "Failed to get cached result after retries" ;; mret JNull).

Definition setCachedResult (cacheKey : string) (data : json) : M unit :=
  try_catch
    (pRetry (Redis.set cacheKey (Text data) 600) retries)
    (fun _ => log Warn "Failed to set cached result after retries").

(** An element of a [findWords] result. *)
Record hit : Type := {
  article_id : string;
  offsets : list nat
}.

Definition hit_json (h : hit) : json :=
  JObj [ ("article_id", JStr (article_id h));
         ("offsets", JArr (List.map (fun n => JNum (Z.of_nat n)) (offsets h))) ].

(** What [JSON.stringify] writes for the result object: its own
    properties, in enumeration order. *)
Definition results_json (results : object (list hit)) : json :=
  JObj (List.map (fun e => (fst e, JArr (List.map hit_json (snd e))))
                 (entries (own results))).

(** What [findWords] resolves to: the parsed cache entry, or the object
    it has just built. *)
Inductive found : Type :=
| Cached (v : json)
| Fresh (results : object (list hit)).

Definition cacheKey_findWords (sorted : list string) : string :=
  "find-words:" ++ join "," sorted.

(** The loop that fills [results]. *)
Definition format_results (normalizedWords : list string)
           (wordIndexes : list WordIndex.t) : object (list hit) :=
  fold_left
    (fun results word =>
       assign results word
         (List.map (fun index => {| article_id := WordIndex.articleId index;
                                    offsets := WordIndex.positions index |})
            (List.filter (fun index => String.eqb (WordIndex.word index) word)
                         wordIndexes)))
    normalizedWords empty.

(** The body of [findWords] once [words.sort()] has run; [words] is the
    array as the sort left it. *)
Definition findWords_sorted (words : list string) : M found :=
  try_catch
    (let cacheKey := cacheKey_findWords words in
     cached ← getCachedResult cacheKey;
     if json_truthy cached then mret (Cached cached)
     else
       let normalizedWords := List.map toLowerCase words in
       wordIndexes ← pRetry (Prisma.wordIndex_findMany normalizedWords) retries;
       let results := format_results normalizedWords wordIndexes in
       setCachedResult cacheKey (results_json results) ;;
       mret (Fresh results))
    (fun error => log Error "Error in findWords" ;; throw error).

(** [findWords(words)].  The array is passed by reference and
    [words.sort()] sorts it in place, so the call also yields the
    caller's array as it is afterwards. *)
Definition findWords (words : list string) (w : world)
  : outcome found * list string * world :=
  let words := sort words in
  let (result, w') := findWords_sorted words w in
  (result, words, w').

Definition cacheKey_mostCommon (word : string) : string :=
  "most-common-word:" ++ toLowerCase word.

Definition getMostCommonWordArticle (word : string) : M json :=
  try_catch
    (let cacheKey := cacheKey_mostCommon word in
     cached ← getCachedResult cacheKey;
     if json_truthy cached then mret cached
     else
       mostCommon ← pRetry (Prisma.wordArticleCount_findFirst (toLowerCase word)) retries;
       match mostCommon with
       | None => mret JNull
       | Some row =>
           let result :=
             JObj [ ("article_id", JStr (WordArticleCount.articleId row));
                    ("count", JNum (Z.of_nat (WordArticleCount.count row))) ] in
           setCachedResult cacheKey result ;;
           mret result
       end)
    (fun error => log Error "Error in getMostCommonWordArticle" ;; throw error).

(** The transaction callback of [processArticle]. *)
Definition replace_rows (articleId : string) (wordPositions : props (list nat)) : M unit :=
  Prisma.wordIndex_deleteMany articleId ;;
  Prisma.wordArticleCount_deleteMany articleId ;;
  for_each
    (fun entry =>
       let word := fst entry in
       let positions := snd entry in
       Prisma.wordIndex_create
         {| WordIndex.articleId := articleId;
            WordIndex.word := word;
            WordIndex.positions := positions |} ;;
       Prisma.wordArticleCount_create
         {| WordArticleCount.articleId := articleId;
            WordArticleCount.word := word;
            WordArticleCount.count := List.length positions |})
    (entries wordPositions).

Definition invalidate (wordPositions : props (list nat)) : M unit :=
  allSettled
    (Redis.del "top-words:*"
     :: List.map (fun word => Redis.del ("most-common-word:" ++ word))
                 (keys wordPositions)).

Definition processArticle (articleId content : string) : M unit :=
  try_catch
    (match word_positions content with
     | Throw e => throw e
     | Ok wordPositions =>
         pRetry (Prisma.transaction (replace_rows articleId wordPositions)) retries ;;
         invalidate wordPositions
     end)
    (fun error => log Error "Error in processArticle" ;; throw error).

End WordService.

Import WordService.

(** A state with an empty cache, empty tables and no fault planned. *)
Definition empty_world : world :=
  {| redis := ∅; wordIndex := []; wordArticleCount := []; logged := [];
     redis_calls := []; get_faults := []; set_faults := []; del_faults := [];
     store_faults := [] |}.

(** ** Notions used to state the properties *)

(** *** Cache commands and fault plans *)

(** The key a cache command works on. *)
Definition call_key (c : redis_call) : string :=
  match c with
  | Get key | SetEx key _ _ | Del key => key
  end.

Definition is_write (c : redis_call) : bool :=
  match c with
  | SetEx _ _ _ => true
  | Get _ | Del _ => false
  end.

(** How many of the coming calls of a plan are rejected. *)
Definition rejections (plan : list bool) : nat := count_occ bool_dec plan true.

(** The cache has nothing to offer for [key]: [getCachedResult] gives a
    falsy value, because the key is absent, because its text is empty or
    denotes a falsy value, or because the read failed on every run. *)
Definition cache_miss (key : string) (w : world) : bool :=
  match getCachedResult key w with
  | (Ok v, _) => negb (json_truthy v)
  | (Throw _, _) => false
  end.

(** *** Relations between the state before and the state after *)

(** A computation keeps a relation between the state it starts in and the
    state it leaves, whatever it returns or throws. *)
Definition preserves {A : Type} (R : relation world) (m : M A) : Prop :=
  forall w r w', m w = (r, w') -> R w w'.

(** A component of the state is left as it was. *)
Definition same {T : Type} (f : world -> T) : relation world :=
  fun w w' => f w' = f w.

(** The cache commands issued between two states all work on [key]. *)
Definition calls_on (key : string) : relation world :=
  fun w w' => exists calls,
      redis_calls w' = redis_calls w ++ calls
      /\ Forall (fun c => call_key c = key) calls.

(** The cache is left as it was at every key but [key]. *)
Definition redis_elsewhere (key : string) : relation world :=
  fun w w' => forall k, k <> key -> redis w' !! k = redis w !! k.

(** The cache commands issued between two states begin with the read of
    [key], and all of them work on [key]. *)
Definition reads_first (key : string) : relation world :=
  fun w w' => exists calls,
      redis_calls w' = redis_calls w ++ Get key :: calls
      /\ Forall (fun c => call_key c = key) calls.

(** Nothing was written to the cache between two states: no [SET] was
    issued. *)
Definition no_write : relation world :=
  fun w w' => exists calls,
      redis_calls w' = redis_calls w ++ calls
      /\ Forall (fun c => is_write c = false) calls.

(** What was logged stays logged. *)
Definition keeps_log : relation world :=
  fun w w' => forall entry, In entry (logged w) -> In entry (logged w').

(** An entry that was gone is still gone. *)
Definition stays_gone (key : string) : relation world :=
  fun w w' => redis w !! key = None -> redis w' !! key = None.

(** Every throw of a computation uses up a planned rejection of the store,
    and none of its runs adds one. *)
Definition charged {A : Type} (m : M A) : Prop :=
  forall w r w', m w = (r, w') ->
    match r with
    | Ok _ => rejections (store_faults w') <= rejections (store_faults w)
    | Throw _ => rejections (store_faults w') < rejections (store_faults w)
    end.

(** A computation that never throws. *)
Definition total {A : Type} (m : M A) : Prop :=
  forall w, exists a w', m w = (Ok a, w').

(** *** Rows and results *)

(** The rows that [processArticle] creates for an entry of the positional
    map. *)
Definition index_row (articleId : string) (entry : string * list nat) : WordIndex.t :=
  {| WordIndex.articleId := articleId;
     WordIndex.word := fst entry;
     WordIndex.positions := snd entry |}.

Definition count_row (articleId : string) (entry : string * list nat) : WordArticleCount.t :=
  {| WordArticleCount.articleId := articleId;
     WordArticleCount.word := fst entry;
     WordArticleCount.count := List.length (snd entry) |}.

(** The rows of a word, and the rows of the articles other than one. *)
Definition index_rows_of_word (word : string) (rows : list WordIndex.t) : list WordIndex.t :=
  List.filter (fun index => String.eqb (WordIndex.word index) word) rows.

Definition count_rows_of_word (word : string) (rows : list WordArticleCount.t)
  : list WordArticleCount.t :=
  List.filter (fun row => String.eqb (WordArticleCount.word row) word) rows.

Definition index_rows_of_others (articleId : string) (rows : list WordIndex.t)
  : list WordIndex.t :=
  List.filter (fun index => negb (String.eqb (WordIndex.articleId index) articleId)) rows.

Definition count_rows_of_others (articleId : string) (rows : list WordArticleCount.t)
  : list WordArticleCount.t :=
  List.filter (fun row => negb (String.eqb (WordArticleCount.articleId row) articleId)) rows.

(** What [wordIndex.findMany] answers for a list of words. *)
Definition matching_rows (words : list string) (rows : list WordIndex.t)
  : list WordIndex.t :=
  List.filter (fun index => existsb (String.eqb (WordIndex.word index)) words) rows.

(** The element of a [findWords] result made from a row, and the result of
    [getMostCommonWordArticle] made from a row. *)
Definition hit_of (index : WordIndex.t) : hit :=
  {| article_id := WordIndex.articleId index; offsets := WordIndex.positions index |}.

Definition most_common_json (row : WordArticleCount.t) : json :=
  JObj [ ("article_id", JStr (WordArticleCount.articleId row));
         ("count", JNum (Z.of_nat (WordArticleCount.count row))) ].

(** *** The loop of [processArticle], and [sort] *)

(** The order of [sort]: code unit by code unit. *)
Definition str_le (a b : string) : Prop := String.leb a b = true.

(** The loop in two stages: the pieces that pass the test, each with the
    offset at which the loop meets it, and the recording of these one after
    the other. *)
Fixpoint piece_tokens (pieces : list string) (position : nat) : list (string * nat) :=
  match pieces with
  | [] => []
  | piece :: rest =>
      (if test_word piece then [(piece, position)] else [])
      ++ piece_tokens rest (position + String.length piece)
  end.

Fixpoint record_all (tokens : list (string * nat)) (wordPositions : props (list nat))
  : outcome (props (list nat)) :=
  match tokens with
  | [] => Ok wordPositions
  | (word, position) :: rest =>
      match record_position wordPositions word position with
      | Ok wordPositions' => record_all rest wordPositions'
      | Throw e => Throw e
      end
  end.

(** While the splitter reads a piece: [piece] passes the test exactly when
    its last unit [prev] is a word character, and then [run] is the run of
    the original text that [piece] is the lowercase of, begun at
    [position]. *)
Definition reading (piece : string) (prev : ascii) (position : nat)
           (run : option (nat * string)) : Prop :=
  test_word piece = is_word_char prev
  /\ match run with
     | Some (start, raw) =>
         is_word_char prev = true /\ start = position /\ toLowerCase raw = piece
     | None => is_word_char prev = false
     end.

(** A content without a word character: the empty text, or separators
    only. *)
Fixpoint no_word_char (content : string) : bool :=
  match content with
  | EmptyString => true
  | String c rest => negb (is_word_char c) && no_word_char rest
  end.

(** *** States for the examples *)

(** In [indexed_world] articles 1 and 2 are indexed and the store will
    reject the first and the third of the coming calls. *)
Definition indexed_world : world :=
  {| redis := ∅;
     wordIndex :=
       [ {| WordIndex.articleId := "1"; WordIndex.word := "old";
            WordIndex.positions := [0; 4] |};
         {| WordIndex.articleId := "2"; WordIndex.word := "old";
            WordIndex.positions := [7] |} ];
     wordArticleCount :=
       [ {| WordArticleCount.word := "old"; WordArticleCount.articleId := "1";
            WordArticleCount.count := 2 |};
         {| WordArticleCount.word := "old"; WordArticleCount.articleId := "2";
            WordArticleCount.count := 1 |} ];
     logged := []; redis_calls := [];
     get_faults := []; set_faults := []; del_faults := [];
     store_faults := [true; false; true] |}.

(** [indexed_world] with a cache that rejects the next four reads, and with
    a store that rejects the next four calls. *)
Definition unreachable_cache_world : world :=
  with_get_faults [true; true; true; true] indexed_world.

Definition unreachable_store_world : world :=
  with_store_faults [true; true; true; true] indexed_world.

(** In [cached_world] the cache holds an aggregate entry [top-words:10] and
    the entry [most-common-word:hello]. *)
Definition cached_world : world :=
  with_redis
    (fun _ => <["top-words:10" := (Text (JArr [JStr "hello"]), 600)]>
              (<["most-common-word:hello" :=
                   (Text (JObj [("article_id", JStr "7"); ("count", JNum 3)]), 600)]> ∅))
    empty_world.

(** The state reached from the empty one when article 1 is indexed with the
    content [hello], the most common article of [hello] is asked for, and
    article 1 is indexed again with the content [bye]. *)
Definition reindexed_world : world :=
  snd (processArticle "1" "bye"
         (snd (getMostCommonWordArticle "hello"
                 (snd (processArticle "1" "hello" empty_world))))).

(** The rows that the mocked database of the unit tests answers with. *)
Definition tested_world : world :=
  with_tables
    [ {| WordIndex.articleId := "1"; WordIndex.word := "hello";
         WordIndex.positions := [0; 12] |};
      {| WordIndex.articleId := "1"; WordIndex.word := "world";
         WordIndex.positions := [6] |} ]
    [ {| WordArticleCount.word := "hello"; WordArticleCount.articleId := "1";
         WordArticleCount.count := 5 |} ]
    empty_world.

(** ** The specification's own words

    These definitions follow the text of the specification, not the code;
    the theorems compare them with the code. *)

Module Spec.

(** "letters, digits, underscore": the letters among the characters below
    256 are the ASCII letters, the ordinal indicators U+00AA and U+00BA,
    the micro sign U+00B5 and the Latin-1 letters U+00C0 to U+00FF
    without the signs U+00D7 and U+00F7. *)
Definition is_ascii_letter (c : ascii) : bool :=
  in_range 65 90 (code c) || in_range 97 122 (code c).

Definition is_letter (c : ascii) : bool :=
  is_ascii_letter c
  || (code c =? 170)%N || (code c =? 181)%N || (code c =? 186)%N
  || in_range 192 214 (code c) || in_range 216 246 (code c)
  || in_range 248 255 (code c).

Definition is_digit (c : ascii) : bool := in_range 48 57 (code c).

Definition is_underscore (c : ascii) : bool := (code c =? 95)%N.

Definition word_constituent (c : ascii) : bool :=
  is_letter c || is_digit c || is_underscore c.

(** The narrower class: ASCII letters only. *)
Definition ascii_word_constituent (c : ascii) : bool :=
  is_ascii_letter c || is_digit c || is_underscore c.

Section Tokenizer.
Variable constituent : ascii -> bool.

(** A word token: its lowercased text and its starting offset, counted
    in characters from 0. *)
Definition token : Type := (string * nat)%type.

(** The run being read: where it started and its characters so far. *)
Definition emit (run : option (nat * string)) : list token :=
  match run with
  | Some (start, text) => [(toLowerCase text, start)]
  | None => []
  end.

Definition extend (run : option (nat * string)) (offset : nat) (c : ascii)
  : option (nat * string) :=
  match run with
  | Some (start, text) => Some (start, (text ++ String c EmptyString)%string)
  | None => Some (offset, String c EmptyString)
  end.

(** One pass over the text: a word is a maximal run of constituent
    characters, emitted when a separator or the end of the text closes
    it. *)
Fixpoint scan (text : string) (offset : nat) (run : option (nat * string))
  : list token :=
  match text with
  | EmptyString => emit run
  | String c rest =>
      if constituent c
      then scan rest (S offset) (extend run offset c)
      else emit run ++ scan rest (S offset) None
  end.

Definition word_tokens (text : string) : list token := scan text 0 None.

(** The aggregator: each word, in the order of its first occurrence,
    with the offsets of its occurrences from first to last. *)
Definition offsets_of (word : string) (tokens : list token) : list nat :=
  List.map snd (List.filter (fun t => String.eqb (fst t) word) tokens).

Fixpoint first_occurrences (words : list string) : list string :=
  match words with
  | [] => []
  | x :: rest =>
      x :: List.filter (fun y => negb (String.eqb y x)) (first_occurrences rest)
  end.

Definition aggregate (tokens : list token) : list (string * list nat) :=
  List.map (fun word => (word, offsets_of word tokens))
           (first_occurrences (List.map fst tokens)).

Definition positional_map (text : string) : list (string * list nat) :=
  aggregate (word_tokens text).

End Tokenizer.

(** Two word lists equal as sets, ignoring order, case and duplicates. *)
Definition same_word_set (words1 words2 : list string) : Prop :=
  forall word, In word (List.map toLowerCase words1)
               <-> In word (List.map toLowerCase words2).

(** A key matches the pattern [top-words:*]. *)
Definition matches_top_words (key : string) : bool :=
  String.prefix "top-words:" key.

End Spec.

(** No word of the content names a property of [Object.prototype]; once
    lowercased, only [constructor] and [__proto__] can. *)
Definition no_inherited_word (content : string) : bool :=
  forallb (fun token => negb (inherited (fst token)))
          (Spec.word_tokens Spec.ascii_word_constituent content).


(** ** Further notions *)

(** The rows of one article. *)
Definition index_rows_of_article (articleId : string) (rows : list WordIndex.t)
  : list WordIndex.t :=
  List.filter (fun index => String.eqb (WordIndex.articleId index) articleId) rows.

Definition count_rows_of_article (articleId : string) (rows : list WordArticleCount.t)
  : list WordArticleCount.t :=
  List.filter (fun row => String.eqb (WordArticleCount.articleId row) articleId) rows.

(** An entry of the cache holds what it held, or is gone. *)
Definition kept_or_gone (key : string) : relation world :=
  fun w w' => redis w' !! key = redis w !! key \/ redis w' !! key = None.

(** The keys that [processArticle] passes to [redis.del]. *)
Definition invalidated_keys (wordPositions : props (list nat)) : list string :=
  "top-words:*"
  :: List.map (fun word => ("most-common-word:" ++ word)%string) (keys wordPositions).

(** One run of the read that [getCachedResult] retries. *)
Definition read_attempt (cacheKey : string) : M json :=
  result ← Redis.get cacheKey;
  match result with
  | None | Some EmptyText => mret JNull
  | Some Malformed => throw SyntaxError
  | Some (Text v) => mret v
  end.

(** A fault plan has lost rejections, or none. *)
Definition fewer_rejections (plan : world -> list bool) : relation world :=
  fun w w' => rejections (plan w') <= rejections (plan w).

(** The result object that [findWords] builds for the array [words], as
    sorted, from the rows of a table. *)
Definition fresh_results (words : list string) (rows : list WordIndex.t)
  : object (list hit) :=
  format_results (List.map toLowerCase words)
                 (matching_rows (List.map toLowerCase words) rows).

(** A call of [findWords words] from [w] works on the entry [key]: the
    first cache command it issues is the read of [key], every command it
    issues is about [key], and no other entry changes; a truthy value held
    under [key] is what the call returns when the read is not rejected; a
    value returned from the cache is the one held under [key]; and a
    result built from the store is written under [key] for 600 seconds,
    where it stays when the cache accepts the write within the retries. *)
Definition works_on_entry (key : string) (words : list string) (w : world) : Prop :=
  reads_first key w (snd (findWords words w))
  /\ redis_elsewhere key w (snd (findWords words w))
  /\ (forall v seconds,
        redis w !! key = Some (Text v, seconds) ->
        json_truthy v = true ->
        rejections (get_faults w) = 0 ->
        fst (fst (findWords words w)) = Ok (Cached v))
  /\ (forall v,
        fst (fst (findWords words w)) = Ok (Cached v) ->
        exists seconds, redis w !! key = Some (Text v, seconds))
  /\ (forall results,
        fst (fst (findWords words w)) = Ok (Fresh results) ->
        (exists calls,
            redis_calls (snd (findWords words w)) = redis_calls w ++ calls
            /\ In (SetEx key (Text (results_json results)) 600) calls)
        /\ (rejections (set_faults w) <= retries ->
            redis (snd (findWords words w)) !! key
            = Some (Text (results_json results), 600))).

(** In [hit_world] the cache holds an entry for the query [a], [b] and one
    for the word [old], neither of them made by the service; the cache
    rejects no read and the store will reject the next four calls. *)
Definition hit_world : world :=
  with_redis
    (fun _ => <["find-words:a,b" := (Text (JStr "anything"), 600)]>
              (<["most-common-word:old" := (Text (JNum 42), 600)]> ∅))
    (with_store_faults [true; true; true; true] empty_world).

(** [indexed_world] with an entry for the query [old] whose text does not
    parse. *)
Definition malformed_world : world :=
  with_redis (fun _ => <["find-words:old" := (Malformed, 600)]> ∅) indexed_world.

(** [indexed_world] with a cache that rejects the next four writes. *)
Definition unwritable_world : world :=
  with_set_faults [true; true; true; true] indexed_world.

(** The words that the loop of [processArticle] meets: the pieces of the
    lowercased content that pass the test, in their order. *)
Definition content_words (content : string) : list string :=
  List.map fst (piece_tokens (split_word_boundary (toLowerCase content)) 0).

(** [cached_world] with a cache that rejects the next two deletions. *)
Definition undeletable_world : world :=
  with_del_faults [true; true] cached_world.


(** * Properties *)

(** ** The order of strings and [sort] *)

Section StringOrder.

Lemma str_le_trans a b c : str_le a b -> str_le b c -> str_le a c.
Proof.
  unfold str_le, String.leb. revert b c.
  induction a as [|x a IH]; intros [|y b] [|z c]; simpl; try done.
  unfold Ascii.compare.
  destruct (N.compare_spec (N_of_ascii x) (N_of_ascii y));
    destruct (N.compare_spec (N_of_ascii y) (N_of_ascii z));
    destruct (N.compare_spec (N_of_ascii x) (N_of_ascii z));
    try done; try lia.
  apply IH.
Qed.

Lemma str_le_total a b : String.leb a b = false -> str_le b a.
Proof.
  intros H. destruct (String.leb_total a b) as [H'|H']; [congruence | exact H'].
Qed.

Lemma str_le_refl a : str_le a a.
Proof. destruct (String.leb_total a a); assumption. Qed.

Lemma insert_sorted_comm x y l :
  insert_sorted x (insert_sorted y l) = insert_sorted y (insert_sorted x l).
Proof.
  induction l as [|a l IH]; simpl.
  - destruct (String.leb x y) eqn:Hxy, (String.leb y x) eqn:Hyx; try reflexivity.
    + rewrite (String.leb_antisym _ _ Hxy Hyx). reflexivity.
    + apply str_le_total in Hxy. unfold str_le in Hxy. congruence.
  - destruct (String.leb y a) eqn:Hya, (String.leb x a) eqn:Hxa; simpl;
      rewrite ?Hya, ?Hxa.
    + destruct (String.leb x y) eqn:Hxy, (String.leb y x) eqn:Hyx; try reflexivity.
      * rewrite (String.leb_antisym _ _ Hxy Hyx). reflexivity.
      * apply str_le_total in Hxy. unfold str_le in Hxy. congruence.
    + destruct (String.leb x y) eqn:Hxy.
      * pose proof (str_le_trans _ _ _ Hxy Hya) as H. unfold str_le in H. congruence.
      * reflexivity.
    + destruct (String.leb y x) eqn:Hyx.
      * pose proof (str_le_trans _ _ _ Hyx Hxa) as H. unfold str_le in H. congruence.
      * reflexivity.
    + rewrite IH. reflexivity.
Qed.

Lemma sort_permutation_eq l l' : Permutation l l' -> sort l = sort l'.
Proof.
  induction 1 as [|x l l' _ IH|x y l|l l' l'' _ IH1 _ IH2]; simpl.
  - reflexivity.
  - rewrite IH. reflexivity.
  - apply insert_sorted_comm.
  - congruence.
Qed.

Lemma insert_sorted_permutation x l : Permutation (x :: l) (insert_sorted x l).
Proof.
  induction l as [|a l IH]; simpl; [reflexivity|].
  destruct (String.leb x a); [reflexivity|].
  rewrite perm_swap. apply perm_skip, IH.
Qed.

Lemma sort_permutation l : Permutation l (sort l).
Proof.
  induction l as [|a l IH]; simpl; [constructor|].
  rewrite <- insert_sorted_permutation. apply perm_skip, IH.
Qed.

Lemma insert_sorted_hd x a l :
  str_le a x -> HdRel str_le a l -> HdRel str_le a (insert_sorted x l).
Proof.
  intros Hax Hl. destruct l as [|b l]; simpl.
  - constructor. exact Hax.
  - destruct (String.leb x b); constructor; [exact Hax|].
    inversion Hl; assumption.
Qed.

Lemma insert_sorted_sorted x l :
  Sorted str_le l -> Sorted str_le (insert_sorted x l).
Proof.
  induction 1 as [|a l Hs IH Hhd]; simpl.
  - repeat constructor.
  - destruct (String.leb x a) eqn:Hxa.
    + constructor; [constructor; assumption|]. constructor. exact Hxa.
    + constructor; [exact IH|].
      apply insert_sorted_hd; [apply str_le_total; exact Hxa | exact Hhd].
Qed.

Lemma sort_sorted l : Sorted str_le (sort l).
Proof.
  induction l as [|a l IH]; simpl; [constructor|].
  apply insert_sorted_sorted, IH.
Qed.

Lemma sort_fixes_sorted l : Sorted str_le l -> sort l = l.
Proof.
  induction 1 as [|a l Hs IH Hhd]; simpl; [reflexivity|].
  rewrite IH. destruct Hhd as [|b l Hab]; simpl; [reflexivity|].
  unfold str_le in Hab. rewrite Hab. reflexivity.
Qed.

End StringOrder.

(** ** Frames: what a computation leaves alone *)

Section Frames.

Context (R : relation world) (HR : PreOrder R).

Lemma preserves_ret {A} (a : A) : preserves R (mret a).
Proof. intros w r w' H. inversion H. reflexivity. Qed.

Lemma preserves_throw {A} (e : error) : preserves R (@throw A e).
Proof. intros w r w' H. inversion H. reflexivity. Qed.

Lemma preserves_bind {A B} (m : M A) (k : A -> M B) :
  preserves R m -> (forall a, preserves R (k a)) -> preserves R (m ≫= k).
Proof.
  intros Hm Hk w r w' H. unfold mbind, M_bind in H.
  destruct (m w) as [[a|e] w1] eqn:E.
  - transitivity w1; [eapply Hm, E | eapply Hk, H].
  - inversion H; subst. eapply Hm, E.
Qed.

Lemma preserves_try_catch {A} (body : M A) (handler : error -> M A) :
  preserves R body -> (forall e, preserves R (handler e)) ->
  preserves R (try_catch body handler).
Proof.
  intros Hb Hh w r w' H. unfold try_catch in H.
  destruct (body w) as [[a|e] w1] eqn:E.
  - inversion H; subst. eapply Hb, E.
  - transitivity w1; [eapply Hb, E | eapply Hh, H].
Qed.

Lemma preserves_pRetry {A} (attempt : M A) (n : nat) :
  preserves R attempt -> preserves R (pRetry attempt n).
Proof.
  intros Ha. induction n as [|n IH]; intros w r w' H; simpl in H;
    destruct (attempt w) as [[a|e] w1] eqn:E.
  - inversion H; subst. eapply Ha, E.
  - inversion H; subst. eapply Ha, E.
  - inversion H; subst. eapply Ha, E.
  - transitivity w1; [eapply Ha, E | eapply IH, H].
Qed.

Lemma preserves_for_each {A} (body : A -> M unit) (xs : list A) :
  (forall x, preserves R (body x)) -> preserves R (for_each body xs).
Proof.
  intros Hb. induction xs as [|x xs IH]; simpl.
  - apply preserves_ret.
  - apply preserves_bind; [apply Hb | intros _; exact IH].
Qed.

Lemma preserves_allSettled {A} (calls : list (M A)) :
  Forall (preserves R) calls -> preserves R (allSettled calls).
Proof.
  induction 1 as [|c calls Hc _ IH]; simpl.
  - apply preserves_ret.
  - apply preserves_bind; [|intros _; exact IH].
    apply preserves_try_catch.
    + apply preserves_bind; [exact Hc | intros _; apply preserves_ret].
    + intros _. apply preserves_ret.
Qed.

End Frames.

#[global] Instance same_preorder {T} (f : world -> T) : PreOrder (same f).
Proof.
  split.
  - intros w. reflexivity.
  - intros w1 w2 w3 H12 H23. unfold same in *. congruence.
Qed.

#[global] Instance calls_on_preorder key : PreOrder (calls_on key).
Proof.
  split.
  - intros w. exists []. rewrite app_nil_r. split; [reflexivity | constructor].
  - intros w1 w2 w3 [c1 [E1 F1]] [c2 [E2 F2]]. exists (c1 ++ c2). split.
    + rewrite E2, E1, app_assoc. reflexivity.
    + apply Forall_app. split; assumption.
Qed.

#[global] Instance redis_elsewhere_preorder key : PreOrder (redis_elsewhere key).
Proof.
  split.
  - intros w k _. reflexivity.
  - intros w1 w2 w3 H12 H23 k Hk. rewrite (H23 k Hk). apply H12, Hk.
Qed.

(** The commands and calls, one lemma each: they keep every component
    that their own updates do not touch. *)

Section Primitives.

Context {T : Type} (f : world -> T).

Lemma same_log l message :
  (forall e w, f (with_log e w) = f w) -> preserves (same f) (log l message).
Proof. intros Hf w r w' H. inversion H; subst. apply Hf. Qed.

Lemma same_redis_get key :
  (forall c w, f (with_call c w) = f w) ->
  (forall p w, f (with_get_faults p w) = f w) ->
  preserves (same f) (Redis.get key).
Proof.
  intros Hc Hp w r w' H. unfold Redis.get in H.
  destruct (next_fault _) as [[] plan]; inversion H; subst; unfold same;
    rewrite Hp, Hc; reflexivity.
Qed.

Lemma same_redis_set key value seconds :
  (forall c w, f (with_call c w) = f w) ->
  (forall p w, f (with_set_faults p w) = f w) ->
  (forall g w, f (with_redis g w) = f w) ->
  preserves (same f) (Redis.set key value seconds).
Proof.
  intros Hc Hp Hg w r w' H. unfold Redis.set in H.
  destruct (next_fault _) as [[] plan]; inversion H; subst; unfold same;
    rewrite ?Hg, Hp, Hc; reflexivity.
Qed.

Lemma same_redis_del key :
  (forall c w, f (with_call c w) = f w) ->
  (forall p w, f (with_del_faults p w) = f w) ->
  (forall g w, f (with_redis g w) = f w) ->
  preserves (same f) (Redis.del key).
Proof.
  intros Hc Hp Hg w r w' H. unfold Redis.del in H.
  destruct (next_fault _) as [[] plan]; inversion H; subst; unfold same;
    rewrite ?Hg, Hp, Hc; reflexivity.
Qed.

Lemma same_prisma_call {A} (run : world -> A * world) :
  (forall p w, f (with_store_faults p w) = f w) ->
  (forall w, f (snd (run w)) = f w) ->
  preserves (same f) (Prisma.call run).
Proof.
  intros Hp Hr w r w' H. unfold Prisma.call in H.
  destruct (next_fault _) as [[] plan].
  - inversion H; subst. apply Hp.
  - specialize (Hr (with_store_faults plan w)).
    destruct (run _) as [a w1]. inversion H; subst. simpl in Hr.
    unfold same. rewrite Hr. apply Hp.
Qed.

Lemma same_transaction {A} (callback : M A) :
  (forall wi wc w, f (with_tables wi wc w) = f w) ->
  preserves (same f) callback -> preserves (same f) (Prisma.transaction callback).
Proof.
  intros Ht Hc w r w' H. unfold Prisma.transaction in H.
  destruct (callback w) as [[a|e] w1] eqn:E; inversion H; subst.
  - eapply Hc, E.
  - unfold same. rewrite Ht. eapply Hc, E.
Qed.

End Primitives.

Ltac frame_side := first [ assumption | intros; reflexivity ].

(** [by_frame l] applies a frame lemma and settles its order premise. *)
Ltac by_frame l := apply l; [apply _ | ..].

Ltac frame_step :=
  first
    [ by_frame @preserves_ret
    | by_frame @preserves_throw
    | apply same_log; frame_side
    | apply same_redis_get; frame_side
    | apply same_redis_set; frame_side
    | apply same_redis_del; frame_side
    | apply same_prisma_call; frame_side
    | apply same_transaction; [frame_side|]
    | by_frame @preserves_bind; [|intros ?]
    | by_frame @preserves_try_catch; [|intros ?]
    | by_frame @preserves_pRetry
    | by_frame @preserves_for_each; intros ?
    | match goal with
      | |- preserves _ (match ?x with _ => _ end) => destruct x
      end ].

Ltac frame := repeat frame_step.

Section ServiceFrames.

Context {T : Type} (f : world -> T).
Hypothesis f_call : forall c w, f (with_call c w) = f w.
Hypothesis f_log : forall e w, f (with_log e w) = f w.

Lemma getCachedResult_same cacheKey :
  (forall p w, f (with_get_faults p w) = f w) ->
  preserves (same f) (getCachedResult cacheKey).
Proof. intros Hp. unfold getCachedResult. frame. Qed.

Lemma setCachedResult_same cacheKey data :
  (forall p w, f (with_set_faults p w) = f w) ->
  (forall g w, f (with_redis g w) = f w) ->
  preserves (same f) (setCachedResult cacheKey data).
Proof. intros Hp Hg. unfold setCachedResult. frame. Qed.

End ServiceFrames.

Lemma same_calls_on {A} key (m : M A) :
  preserves (same redis_calls) m -> preserves (calls_on key) m.
Proof.
  intros H w r w' E. exists []. rewrite app_nil_r. split; [|constructor].
  eapply H, E.
Qed.

Lemma same_redis_elsewhere {A} key (m : M A) :
  preserves (same redis) m -> preserves (redis_elsewhere key) m.
Proof. intros H w r w' E k _. rewrite (H _ _ _ E). reflexivity. Qed.

Lemma calls_on_get key : preserves (calls_on key) (Redis.get key).
Proof.
  intros w r w' H. unfold Redis.get in H. exists [Get key].
  destruct (next_fault _) as [[] plan]; inversion H; subst; simpl;
    (split; [reflexivity | repeat constructor]).
Qed.

Lemma calls_on_set key value seconds :
  preserves (calls_on key) (Redis.set key value seconds).
Proof.
  intros w r w' H. unfold Redis.set in H. exists [SetEx key value seconds].
  destruct (next_fault _) as [[] plan]; inversion H; subst; simpl;
    (split; [reflexivity | repeat constructor]).
Qed.

Lemma redis_elsewhere_set key value seconds :
  preserves (redis_elsewhere key) (Redis.set key value seconds).
Proof.
  intros w r w' H k Hk. unfold Redis.set in H.
  destruct (next_fault _) as [[] plan]; inversion H; subst; simpl.
  - reflexivity.
  - apply lookup_insert_ne. congruence.
Qed.

Lemma getCachedResult_calls_on key : preserves (calls_on key) (getCachedResult key).
Proof.
  unfold getCachedResult.
  by_frame @preserves_try_catch.
  - by_frame @preserves_pRetry. by_frame @preserves_bind; [apply calls_on_get|].
    intros result. apply same_calls_on. frame.
  - intros _. apply same_calls_on. frame.
Qed.

Lemma setCachedResult_calls_on key data : preserves (calls_on key) (setCachedResult key data).
Proof.
  unfold setCachedResult.
  by_frame @preserves_try_catch.
  - by_frame @preserves_pRetry. apply calls_on_set.
  - intros _. apply same_calls_on. frame.
Qed.

Lemma setCachedResult_redis_elsewhere key data :
  preserves (redis_elsewhere key) (setCachedResult key data).
Proof.
  unfold setCachedResult.
  by_frame @preserves_try_catch.
  - by_frame @preserves_pRetry. apply redis_elsewhere_set.
  - intros _. apply same_redis_elsewhere. frame.
Qed.

Lemma findWords_sorted_calls_on words :
  preserves (calls_on (cacheKey_findWords words)) (findWords_sorted words).
Proof.
  unfold findWords_sorted.
  by_frame @preserves_try_catch.
  - by_frame @preserves_bind; [apply getCachedResult_calls_on|].
    intros cached. destruct (json_truthy cached).
    + by_frame @preserves_ret.
    + by_frame @preserves_bind;
        [apply same_calls_on; unfold Prisma.wordIndex_findMany; frame|].
      intros wordIndexes.
      by_frame @preserves_bind; [apply setCachedResult_calls_on|].
      intros _. by_frame @preserves_ret.
  - intros e. apply same_calls_on. frame.
Qed.

Lemma findWords_sorted_redis_elsewhere words :
  preserves (redis_elsewhere (cacheKey_findWords words)) (findWords_sorted words).
Proof.
  unfold findWords_sorted.
  by_frame @preserves_try_catch.
  - by_frame @preserves_bind;
      [apply same_redis_elsewhere, getCachedResult_same; intros; reflexivity|].
    intros cached. destruct (json_truthy cached).
    + by_frame @preserves_ret.
    + by_frame @preserves_bind;
        [apply same_redis_elsewhere; unfold Prisma.wordIndex_findMany; frame|].
      intros wordIndexes.
      by_frame @preserves_bind; [apply setCachedResult_redis_elsewhere|].
      intros _. by_frame @preserves_ret.
  - intros e. apply same_redis_elsewhere. frame.
Qed.

(** ** The cache key of [findWords] *)

Lemma map_lowercase_id words :
  Forall (fun word => toLowerCase word = word) words ->
  List.map toLowerCase words = words.
Proof.
  induction 1 as [|x l Hx _ IH]; simpl; [reflexivity|]. rewrite Hx, IH. reflexivity.
Qed.

(** C1, as stated, fails: [["a"; "a"]] and [["a"]] are equal as sets of
    words, yet the first call works on the entry [find-words:a,a] and the
    second on [find-words:a]. *)
Lemma findWords_duplicates_change_the_entry :
  Spec.same_word_set ["a"; "a"] ["a"]
  /\ redis_calls (snd (findWords ["a"; "a"] empty_world))
     = [ Get "find-words:a,a";
         SetEx "find-words:a,a" (Text (JObj [("a", JArr [])])) 600 ]
  /\ redis_calls (snd (findWords ["a"] empty_world))
     = [ Get "find-words:a";
         SetEx "find-words:a" (Text (JObj [("a", JArr [])])) 600 ].
Proof.
  split; [|split; reflexivity].
  intros word. simpl. tauto.
Qed.

(** ** The caller's array *)

(** C10.  [findWords] leaves the caller's array sorted by code units: the
    sort runs first, on the words as they were passed, and the rest of the
    call works on the sorted array.  The array keeps its elements, and it
    is unchanged only if it was already in order. *)
Theorem findWords_sorts_the_callers_array (words : list string) (w : world) :
  snd (fst (findWords words w)) = sort words
  /\ Permutation words (snd (fst (findWords words w)))
  /\ Sorted str_le (snd (fst (findWords words w)))
  /\ (snd (fst (findWords words w)) = words <-> Sorted str_le words)
  /\ findWords words w
     = (fst (findWords_sorted (sort words) w), sort words,
        snd (findWords_sorted (sort words) w)).
Proof.
  unfold findWords.
  destruct (findWords_sorted (sort words) w) as [r w'] eqn:E. simpl.
  split; [reflexivity|]. split; [apply sort_permutation|].
  split; [apply sort_sorted|]. split; [|reflexivity].
  split.
  - intros H. rewrite <- H. apply sort_sorted.
  - apply sort_fixes_sorted.
Qed.

(** The order of the call's argument is lost, and capitals sort before
    small letters. *)
Example findWords_reorders :
  snd (fst (findWords ["world"; "Hello"; "again"] empty_world))
  = ["Hello"; "again"; "world"].
Proof. reflexivity. Qed.

(** ** The tokenizer of [processArticle] against the specification's *)

Lemma is_word_char_lower c : is_word_char (lower_unit c) = is_word_char c.
Proof. destruct c as [[] [] [] [] [] [] [] []]; reflexivity. Qed.

Lemma ascii_word_constituent_is_word_char c :
  Spec.ascii_word_constituent c = is_word_char c.
Proof. destruct c as [[] [] [] [] [] [] [] []]; reflexivity. Qed.

Lemma toLowerCase_length s : String.length (toLowerCase s) = String.length s.
Proof. induction s as [|c s IH]; simpl; [reflexivity | rewrite IH; reflexivity]. Qed.

Lemma toLowerCase_snoc s c :
  toLowerCase (s ++ String c EmptyString) = (toLowerCase s ++ String (lower_unit c) EmptyString)%string.
Proof. induction s as [|d s IH]; simpl; [reflexivity | rewrite IH; reflexivity]. Qed.

Lemma length_snoc s c : String.length (s ++ String c EmptyString) = S (String.length s).
Proof. induction s as [|d s IH]; simpl; [reflexivity | rewrite IH; reflexivity]. Qed.

Lemma all_word_snoc s c : all_word (s ++ String c EmptyString) = all_word s && is_word_char c.
Proof.
  induction s as [|d s IH]; simpl.
  - rewrite andb_true_r. reflexivity.
  - rewrite IH, andb_assoc. reflexivity.
Qed.

Lemma test_word_snoc s c :
  test_word (s ++ String c EmptyString) = all_word s && is_word_char c.
Proof.
  rewrite <- all_word_snoc. destruct s; reflexivity.
Qed.

Lemma test_word_all_word s : test_word s = true -> all_word s = true.
Proof. destruct s; [discriminate | trivial]. Qed.

Lemma index_pieces_record_all pieces wordPositions position :
  index_pieces pieces wordPositions position
  = record_all (piece_tokens pieces position) wordPositions.
Proof.
  revert wordPositions position.
  induction pieces as [|piece rest IH]; intros wordPositions position; simpl.
  - reflexivity.
  - destruct (test_word piece); simpl.
    + destruct (record_position wordPositions piece position); [apply IH | reflexivity].
    + apply IH.
Qed.

Lemma split_from_scan s : forall piece prev position run,
  reading piece prev position run ->
  piece_tokens (split_from piece prev (toLowerCase s)) position
  = Spec.scan Spec.ascii_word_constituent s (position + String.length piece) run.
Proof.
  induction s as [|c s IH]; intros piece prev position run [Htest Hrun]; simpl.
  - rewrite app_nil_r, Htest. destruct run as [[start raw]|].
    + destruct Hrun as (Hw & -> & <-). rewrite Hw. reflexivity.
    + rewrite Hrun. reflexivity.
  - rewrite ascii_word_constituent_is_word_char, is_word_char_lower.
    destruct (is_word_char prev) eqn:Hp, (is_word_char c) eqn:Hc; simpl.
    + (* the word goes on *)
      destruct run as [[start raw]|]; [|discriminate].
      destruct Hrun as (_ & -> & <-).
      rewrite (IH _ _ position (Some (position, (raw ++ String c EmptyString)%string))).
      * rewrite length_snoc, Nat.add_succ_r. reflexivity.
      * split.
        -- rewrite test_word_snoc, is_word_char_lower, Hc.
           rewrite (test_word_all_word _ Htest). reflexivity.
        -- rewrite is_word_char_lower, toLowerCase_snoc. auto.
    + (* the word ends *)
      destruct run as [[start raw]|]; [|discriminate].
      destruct Hrun as (_ & -> & <-). rewrite Htest. simpl.
      f_equal.
      rewrite (IH _ _ _ None).
      * simpl. rewrite Nat.add_1_r. reflexivity.
      * split; simpl; rewrite is_word_char_lower, Hc; reflexivity.
    + (* a word begins *)
      destruct run as [[start raw]|]; [destruct Hrun; discriminate|].
      rewrite Htest. simpl.
      rewrite (IH _ _ _ (Some (position + String.length piece, String c EmptyString))).
      * simpl. rewrite Nat.add_1_r. reflexivity.
      * split; simpl; rewrite is_word_char_lower, Hc; auto.
    + (* the separator goes on *)
      destruct run as [[start raw]|]; [destruct Hrun; discriminate|]. simpl.
      rewrite (IH _ _ position None).
      * rewrite length_snoc, Nat.add_succ_r. reflexivity.
      * split; [|rewrite is_word_char_lower; exact Hc].
        rewrite test_word_snoc, !is_word_char_lower, Hc, andb_false_r. reflexivity.
Qed.

Lemma split_word_boundary_scan content :
  piece_tokens (split_word_boundary (toLowerCase content)) 0
  = Spec.word_tokens Spec.ascii_word_constituent content.
Proof.
  unfold Spec.word_tokens. destruct content as [|c s]; simpl; [reflexivity|].
  rewrite ascii_word_constituent_is_word_char.
  destruct (is_word_char c) eqn:Hc.
  - rewrite (split_from_scan s _ _ 0 (Some (0, String c EmptyString))).
    + reflexivity.
    + split; simpl; rewrite is_word_char_lower, Hc; auto.
  - rewrite (split_from_scan s _ _ 0 None).
    + reflexivity.
    + split; simpl; rewrite is_word_char_lower, Hc; auto.
Qed.

(** *** The aggregator *)

Lemma In_first_occurrences x l : In x (Spec.first_occurrences l) <-> In x l.
Proof.
  induction l as [|a l IH]; simpl; [tauto|].
  rewrite filter_In, IH, negb_true_iff, String.eqb_neq.
  destruct (string_dec a x); [subst|]; intuition congruence.
Qed.

Lemma NoDup_first_occurrences l : List.NoDup (Spec.first_occurrences l).
Proof.
  induction l as [|a l IH]; simpl; constructor.
  - rewrite filter_In, negb_true_iff, String.eqb_neq. tauto.
  - apply List.NoDup_filter, IH.
Qed.

Lemma first_occurrences_snoc l x :
  Spec.first_occurrences (l ++ [x])
  = if in_dec string_dec x l then Spec.first_occurrences l
    else Spec.first_occurrences l ++ [x].
Proof.
  induction l as [|a l IH]; simpl; [reflexivity|].
  rewrite IH. destruct (string_dec a x) as [->|Hne].
  - destruct (in_dec string_dec x l); [reflexivity|].
    rewrite List.filter_app. simpl. rewrite String.eqb_refl. simpl.
    rewrite app_nil_r. reflexivity.
  - destruct (in_dec string_dec x l); [reflexivity|].
    rewrite List.filter_app. simpl.
    assert (String.eqb x a = false) as -> by (apply String.eqb_neq; congruence).
    reflexivity.
Qed.

Lemma offsets_of_snoc word tokens word' position :
  Spec.offsets_of word (tokens ++ [(word', position)])
  = Spec.offsets_of word tokens ++ (if String.eqb word' word then [position] else []).
Proof.
  unfold Spec.offsets_of. rewrite List.filter_app, List.map_app. simpl.
  destruct (String.eqb word' word); reflexivity.
Qed.

Lemma offsets_of_absent word tokens :
  ~ In word (List.map fst tokens) -> Spec.offsets_of word tokens = [].
Proof.
  unfold Spec.offsets_of. induction tokens as [|[k p] l IH]; simpl; [reflexivity|].
  intros H. destruct (String.eqb_spec k word) as [->|Hne]; [tauto|].
  apply IH. tauto.
Qed.

Section Keyed.

Context {V : Type} (g : string -> V).

Lemma own_get_keyed word keys :
  own_get word (List.map (fun k => (k, g k)) keys)
  = if in_dec string_dec word keys then Some (g word) else None.
Proof.
  induction keys as [|k keys IH]; simpl; [reflexivity|].
  destruct (String.eqb_spec word k) as [->|Hne].
  - destruct (string_dec k k); [reflexivity | congruence].
  - rewrite IH. destruct (string_dec k word); [congruence|].
    destruct (in_dec string_dec word keys); reflexivity.
Qed.

Lemma own_set_keyed word v keys :
  List.NoDup keys -> In word keys ->
  own_set word v (List.map (fun k => (k, g k)) keys)
  = List.map (fun k => (k, if String.eqb k word then v else g k)) keys.
Proof.
  induction 1 as [|k keys Hk Hnd IH]; simpl; [tauto|].
  intros [->|Hin].
  - rewrite String.eqb_refl. f_equal.
    apply List.map_ext_in. intros k Hk'.
    destruct (String.eqb_spec k word) as [->|]; [tauto | reflexivity].
  - destruct (String.eqb_spec word k) as [->|Hne]; [tauto|].
    assert (String.eqb k word = false) as -> by (apply String.eqb_neq; congruence).
    rewrite (IH Hin). reflexivity.
Qed.

End Keyed.

Lemma own_set_absent {V} word (v : V) o :
  ~ In word (List.map fst o) -> own_set word v o = o ++ [(word, v)].
Proof.
  induction o as [|[k x] o IH]; simpl; [reflexivity|].
  intros H. destruct (String.eqb_spec word k) as [->|Hne]; [tauto|].
  rewrite IH; [reflexivity | tauto].
Qed.

Lemma own_set_own_set {V} word (v1 v2 : V) o :
  own_set word v2 (own_set word v1 o) = own_set word v2 o.
Proof.
  induction o as [|[k x] o IH]; simpl.
  - rewrite String.eqb_refl. reflexivity.
  - destruct (String.eqb word k) eqn:E; simpl; rewrite E; [reflexivity|].
    rewrite IH. reflexivity.
Qed.

Lemma own_get_own_set {V} word (v : V) o : own_get word (own_set word v o) = Some v.
Proof.
  induction o as [|[k x] o IH]; simpl.
  - rewrite String.eqb_refl. reflexivity.
  - destruct (String.eqb word k) eqn:E; simpl; rewrite E; [reflexivity | exact IH].
Qed.

Lemma aggregate_keys tokens :
  List.map fst (Spec.aggregate tokens) = Spec.first_occurrences (List.map fst tokens).
Proof.
  unfold Spec.aggregate. rewrite List.map_map. simpl. apply List.map_id.
Qed.

Lemma own_get_aggregate word tokens :
  own_get word (Spec.aggregate tokens)
  = if in_dec string_dec word (Spec.first_occurrences (List.map fst tokens))
    then Some (Spec.offsets_of word tokens) else None.
Proof.
  unfold Spec.aggregate.
  apply (own_get_keyed (fun word => Spec.offsets_of word tokens)).
Qed.

Lemma own_set_aggregate word v tokens :
  In word (List.map fst tokens) ->
  own_set word v (Spec.aggregate tokens)
  = List.map (fun k => (k, if String.eqb k word then v else Spec.offsets_of k tokens))
             (Spec.first_occurrences (List.map fst tokens)).
Proof.
  intros Hin. unfold Spec.aggregate.
  apply (own_set_keyed (fun word => Spec.offsets_of word tokens)).
  - apply NoDup_first_occurrences.
  - apply In_first_occurrences, Hin.
Qed.

Lemma aggregate_snoc_known tokens word position :
  In word (List.map fst tokens) ->
  Spec.aggregate (tokens ++ [(word, position)])
  = own_set word (Spec.offsets_of word tokens ++ [position]) (Spec.aggregate tokens).
Proof.
  intros Hin. rewrite (own_set_aggregate _ _ _ Hin).
  unfold Spec.aggregate. rewrite List.map_app. simpl.
  rewrite first_occurrences_snoc.
  destruct (in_dec string_dec word _) as [_|Hout]; [|tauto].
  apply List.map_ext. intros k. rewrite offsets_of_snoc, String.eqb_sym.
  destruct (String.eqb k word) eqn:E; [apply String.eqb_eq in E; subst; reflexivity|].
  rewrite app_nil_r. reflexivity.
Qed.

Lemma aggregate_snoc_new tokens word position :
  ~ In word (List.map fst tokens) ->
  Spec.aggregate (tokens ++ [(word, position)])
  = Spec.aggregate tokens ++ [(word, [position])].
Proof.
  intros Hout. unfold Spec.aggregate. rewrite List.map_app. simpl.
  rewrite first_occurrences_snoc.
  destruct (in_dec string_dec word _) as [Hin|_]; [tauto|].
  rewrite List.map_app. simpl. f_equal.
  - apply List.map_ext_in. intros k Hk. rewrite offsets_of_snoc.
    rewrite In_first_occurrences in Hk.
    destruct (String.eqb_spec word k) as [->|]; [tauto|].
    rewrite app_nil_r. reflexivity.
  - rewrite offsets_of_snoc, String.eqb_refl, (offsets_of_absent _ _ Hout).
    reflexivity.
Qed.

Lemma record_position_aggregate tokens word position :
  inherited word = false ->
  record_position (Spec.aggregate tokens) word position
  = Ok (Spec.aggregate (tokens ++ [(word, position)])).
Proof.
  intros Hinh. unfold record_position, get.
  rewrite own_get_aggregate.
  destruct (in_dec string_dec word _) as [Hin|Hout]; simpl.
  - rewrite own_get_aggregate.
    destruct (in_dec string_dec word _) as [_|Hout]; [|tauto].
    rewrite In_first_occurrences in Hin.
    rewrite (aggregate_snoc_known _ _ _ Hin). reflexivity.
  - rewrite Hinh. simpl. rewrite own_get_own_set, own_set_own_set.
    rewrite In_first_occurrences in Hout.
    rewrite (aggregate_snoc_new _ _ _ Hout). f_equal. simpl.
    apply own_set_absent. rewrite aggregate_keys, In_first_occurrences. exact Hout.
Qed.

Lemma record_all_aggregate tokens : forall done,
  Forall (fun token => inherited (fst token) = false) tokens ->
  record_all tokens (Spec.aggregate done) = Ok (Spec.aggregate (done ++ tokens)).
Proof.
  induction tokens as [|[word position] tokens IH]; intros done Hin; simpl.
  - rewrite app_nil_r. reflexivity.
  - inversion Hin as [|? ? Hword Hrest]; subst. simpl in Hword.
    rewrite (record_position_aggregate _ _ _ Hword), (IH _ Hrest), <- app_assoc.
    reflexivity.
Qed.

(** The positional map of the code is the specification's, with ASCII
    letters for its letters, as long as no word of the article names a
    property of [Object.prototype]. *)
Lemma word_positions_spec content :
  Forall (fun token => inherited (fst token) = false)
         (Spec.word_tokens Spec.ascii_word_constituent content) ->
  word_positions content = Ok (Spec.positional_map Spec.ascii_word_constituent content).
Proof.
  intros H. unfold word_positions, Spec.positional_map.
  rewrite index_pieces_record_all, split_word_boundary_scan.
  apply (record_all_aggregate _ [] H).
Qed.

(** C2, as stated, fails on a letter outside ASCII: in [café], written with
    the single code unit U+00E9, the letter [é] is not a word character of
    the code, so the key is [caf] where the specification's tokenizer gives
    [café]. *)
Lemma processArticle_splits_at_accented_letter :
  Spec.is_letter "233"%char = true
  /\ word_positions (String "c" (String "a" (String "f" (String "233" EmptyString))))
     = Ok [("caf", [0])]
  /\ Spec.positional_map Spec.word_constituent
       (String "c" (String "a" (String "f" (String "233" EmptyString))))
     = [(String "c" (String "a" (String "f" (String "233" EmptyString))), [0])].
Proof. repeat split; vm_compute; reflexivity. Qed.

(** The words left out of C2: [constructor] and [__proto__] are found on
    the prototype of [wordPositions], the array is never created, and the
    call of [push] throws. *)
Example processArticle_throws_on_constructor :
  word_positions "The constructor runs first" = Throw TypeError
  /\ word_positions "__proto__" = Throw TypeError
  /\ fst (processArticle "1" "The constructor runs first" empty_world) = Throw TypeError
  /\ logged (snd (processArticle "1" "The constructor runs first" empty_world))
     = [(Error, "Error in processArticle")].
Proof. repeat split; vm_compute; reflexivity. Qed.

(** ** Running the monad *)

Lemma bind_Ok {A B} (m : M A) (k : A -> M B) w b w' :
  (m ≫= k) w = (Ok b, w') ->
  exists a w1, m w = (Ok a, w1) /\ k a w1 = (Ok b, w').
Proof.
  unfold mbind, M_bind. destruct (m w) as [[a|e] w1]; intros H.
  - exists a, w1. split; [reflexivity | exact H].
  - discriminate.
Qed.

Lemma bind_run {A B} (m : M A) (k : A -> M B) w a w1 :
  m w = (Ok a, w1) -> (m ≫= k) w = k a w1.
Proof. intros H. unfold mbind, M_bind. rewrite H. reflexivity. Qed.

Lemma bind_throw {A B} (m : M A) (k : A -> M B) w e w1 :
  m w = (Throw e, w1) -> (m ≫= k) w = (Throw e, w1).
Proof. intros H. unfold mbind, M_bind. rewrite H. reflexivity. Qed.

Lemma try_catch_Ok {A} (body : M A) handler w a w' :
  body w = (Ok a, w') -> try_catch body handler w = (Ok a, w').
Proof. intros H. unfold try_catch. rewrite H. reflexivity. Qed.

Lemma try_catch_rethrow_Ok {A} (body : M A) l message w a w' :
  try_catch body (fun error => log l message ;; throw error) w = (Ok a, w') ->
  body w = (Ok a, w').
Proof.
  unfold try_catch. destruct (body w) as [[a0|e] w1]; intros H.
  - exact H.
  - discriminate.
Qed.

Lemma try_catch_rethrow_Throw {A} (body : M A) l message w e w1 :
  body w = (Throw e, w1) ->
  try_catch body (fun error => log l message ;; @throw A error) w
  = (Throw e, with_log (l, message) w1).
Proof. intros H. unfold try_catch. rewrite H. reflexivity. Qed.

Lemma call_Ok {A} (run : world -> A * world) w a w' :
  Prisma.call run w = (Ok a, w') ->
  exists plan, run (with_store_faults plan w) = (a, w').
Proof.
  unfold Prisma.call. destruct (next_fault _) as [[] plan]; intros H.
  - discriminate.
  - exists plan. destruct (run _) as [a1 w1]. inversion H. reflexivity.
Qed.

(** ** Retries against the fault plan of the store *)

Lemma charged_ret {A} (a : A) : charged (mret a).
Proof. intros w r w' H. inversion H; subst. reflexivity. Qed.

Lemma charged_bind {A B} (m : M A) (k : A -> M B) :
  charged m -> (forall a, charged (k a)) -> charged (m ≫= k).
Proof.
  intros Hm Hk w r w' H. unfold mbind, M_bind in H.
  destruct (m w) as [[a|e] w1] eqn:E.
  - pose proof (Hm _ _ _ E) as H1. pose proof (Hk _ _ _ _ H) as H2.
    simpl in H1. destruct r; lia.
  - inversion H; subst. apply (Hm _ _ _ E).
Qed.

Lemma rejections_cons b plan :
  rejections (b :: plan) = (if b then 1 else 0) + rejections plan.
Proof.
  unfold rejections. simpl.
  destruct b; destruct (bool_dec _ true); try congruence; reflexivity.
Qed.

Lemma charged_call {A} (run : world -> A * world) :
  (forall w, store_faults (snd (run w)) = store_faults w) ->
  charged (Prisma.call run).
Proof.
  intros Hrun w r w' H. unfold Prisma.call in H.
  destruct (store_faults w) as [|b plan] eqn:E; simpl in H.
  - specialize (Hrun (with_store_faults [] w)).
    destruct (run _) as [a w1]. inversion H; subst. simpl in Hrun.
    rewrite Hrun. reflexivity.
  - rewrite rejections_cons. destruct b.
    + inversion H; subst. simpl. lia.
    + specialize (Hrun (with_store_faults plan w)).
      destruct (run _) as [a w1]. inversion H; subst. simpl in Hrun.
      rewrite Hrun. simpl. lia.
Qed.

Lemma charged_for_each {A} (body : A -> M unit) xs :
  (forall x, charged (body x)) -> charged (for_each body xs).
Proof.
  intros Hb. induction xs as [|x xs IH]; simpl.
  - apply charged_ret.
  - apply charged_bind; [apply Hb | intros _; exact IH].
Qed.

Lemma charged_transaction {A} (callback : M A) :
  charged callback -> charged (Prisma.transaction callback).
Proof.
  intros Hc w r w' H. unfold Prisma.transaction in H.
  destruct (callback w) as [[a|e] w1] eqn:E; inversion H; subst.
  - apply (Hc _ _ _ E).
  - apply (Hc _ _ _ E).
Qed.

(** With no more rejections planned than retries allowed, a charged
    attempt gets through. *)
Lemma pRetry_charged {A} (attempt : M A) n : forall w,
  charged attempt ->
  rejections (store_faults w) <= n ->
  exists a w', pRetry attempt n w = (Ok a, w').
Proof.
  induction n as [|n IH]; intros w Hc Hn; simpl;
    destruct (attempt w) as [[a|e] w1] eqn:E; eauto.
  - pose proof (Hc _ _ _ E) as H. simpl in H. lia.
  - apply IH; [exact Hc|]. pose proof (Hc _ _ _ E) as H. simpl in H. lia.
Qed.

(** ** The rows written by [processArticle] *)

Lemma for_each_create articleId entries : forall w w',
  for_each
    (fun entry =>
       Prisma.wordIndex_create (index_row articleId entry) ;;
       Prisma.wordArticleCount_create (count_row articleId entry))
    entries w = (Ok tt, w') ->
  wordIndex w' = wordIndex w ++ List.map (index_row articleId) entries
  /\ wordArticleCount w'
     = wordArticleCount w ++ List.map (count_row articleId) entries.
Proof.
  induction entries as [|entry entries IH]; intros w w' H; simpl in H.
  - inversion H; subst. rewrite !app_nil_r. split; reflexivity.
  - apply bind_Ok in H as ([] & w2 & H1 & H2).
    apply bind_Ok in H1 as ([] & w1 & Hi & Hc).
    apply call_Ok in Hi as [p1 Hi]. apply call_Ok in Hc as [p2 Hc].
    inversion Hi; subst. inversion Hc; subst. clear Hi Hc.
    destruct (IH _ _ H2) as [E1 E2]. simpl in E1, E2.
    rewrite E1, E2, <- !app_assoc. split; reflexivity.
Qed.

Lemma replace_rows_Ok articleId wordPositions w w' :
  replace_rows articleId wordPositions w = (Ok tt, w') ->
  wordIndex w'
  = index_rows_of_others articleId (wordIndex w)
    ++ List.map (index_row articleId) (entries wordPositions)
  /\ wordArticleCount w'
     = count_rows_of_others articleId (wordArticleCount w)
       ++ List.map (count_row articleId) (entries wordPositions).
Proof.
  unfold replace_rows. intros H.
  apply bind_Ok in H as ([] & w1 & H1 & H).
  apply bind_Ok in H as ([] & w2 & H2 & H).
  apply call_Ok in H1 as [p1 H1]. apply call_Ok in H2 as [p2 H2].
  inversion H1; subst. inversion H2; subst. clear H1 H2.
  apply (for_each_create articleId) in H as [E1 E2]. simpl in E1, E2.
  split; assumption.
Qed.

Lemma pRetry_transaction_Ok {A} (callback : M A) n : forall w a w',
  pRetry (Prisma.transaction callback) n w = (Ok a, w') ->
  exists w0, callback w0 = (Ok a, w')
             /\ wordIndex w0 = wordIndex w
             /\ wordArticleCount w0 = wordArticleCount w.
Proof.
  induction n as [|n IH]; intros w a w' H; simpl in H;
    unfold Prisma.transaction at 1 in H;
    destruct (callback w) as [[a0|e] w1] eqn:E.
  - inversion H; subst. exists w. auto.
  - discriminate.
  - inversion H; subst. exists w. auto.
  - apply IH in H as (w0 & H0 & E1 & E2). exists w0. auto.
Qed.

Lemma allSettled_total {A} (calls : list (M A)) w :
  exists w', allSettled calls w = (Ok tt, w').
Proof.
  revert w. induction calls as [|c calls IH]; intros w; simpl.
  - eexists. reflexivity.
  - unfold mbind, M_bind, try_catch.
    destruct (c w) as [[a|e] w1]; simpl; apply IH.
Qed.

Lemma invalidate_same {T} (f : world -> T) wordPositions :
  (forall c w, f (with_call c w) = f w) ->
  (forall p w, f (with_del_faults p w) = f w) ->
  (forall g w, f (with_redis g w) = f w) ->
  preserves (same f) (invalidate wordPositions).
Proof.
  intros Hc Hp Hg. unfold invalidate.
  by_frame @preserves_allSettled. constructor.
  - frame.
  - apply List.Forall_forall. intros c Hin.
    apply in_map_iff in Hin as (word & <- & _). frame.
Qed.

(** What a successful [processArticle] leaves in the two tables: the rows
    of the other articles, then one row per entry of the positional map. *)
Lemma processArticle_tables articleId content w w' :
  processArticle articleId content w = (Ok tt, w') ->
  exists wordPositions,
    word_positions content = Ok wordPositions
    /\ wordIndex w'
       = index_rows_of_others articleId (wordIndex w)
         ++ List.map (index_row articleId) (entries wordPositions)
    /\ wordArticleCount w'
       = count_rows_of_others articleId (wordArticleCount w)
         ++ List.map (count_row articleId) (entries wordPositions).
Proof.
  unfold processArticle. intros H. apply try_catch_rethrow_Ok in H.
  destruct (word_positions content) as [wordPositions|e]; [|discriminate].
  exists wordPositions. split; [reflexivity|].
  apply bind_Ok in H as ([] & w1 & Htx & Hinv).
  apply pRetry_transaction_Ok in Htx as (w0 & Hrows & E1 & E2).
  apply replace_rows_Ok in Hrows as [R1 R2].
  pose proof (invalidate_same wordIndex wordPositions
                ltac:(reflexivity) ltac:(reflexivity) ltac:(reflexivity)
                _ _ _ Hinv) as F1.
  pose proof (invalidate_same wordArticleCount wordPositions
                ltac:(reflexivity) ltac:(reflexivity) ltac:(reflexivity)
                _ _ _ Hinv) as F2.
  unfold same in F1, F2. rewrite F1, F2, R1, R2, E1, E2. split; reflexivity.
Qed.

(** *** The map of the specification *)

(** C2, as amended.  For every article content (of characters below U+0100,
    as everywhere here) none of whose words names a property of
    [Object.prototype], [processArticle] derives the positional
    map that the specification's tokenizer defines when its letters are the
    ASCII letters: the keys are the lowercased maximal runs of ASCII
    letters, digits and underscore, in the order of their first occurrence,
    and each value lists, first to last, the offsets in characters from 0 at
    which the word starts; a content without such a run gives the empty
    map.  A successful call writes that map, one WordIndex row per entry. *)
Theorem processArticle_positional_map (content : string) :
  no_inherited_word content = true ->
  word_positions content
  = Ok (Spec.positional_map Spec.ascii_word_constituent content)
  /\ (Spec.word_tokens Spec.ascii_word_constituent content = [] ->
      word_positions content = Ok [])
  /\ (forall articleId w w',
         processArticle articleId content w = (Ok tt, w') ->
         wordIndex w'
         = index_rows_of_others articleId (wordIndex w)
           ++ List.map (index_row articleId)
                       (entries (Spec.positional_map Spec.ascii_word_constituent content))).
Proof.
  intros H.
  assert (word_positions content
          = Ok (Spec.positional_map Spec.ascii_word_constituent content)) as E.
  { apply word_positions_spec. apply List.Forall_forall. intros token Hin.
    unfold no_inherited_word in H. rewrite forallb_forall in H.
    apply negb_true_iff, H, Hin. }
  split; [exact E|]. split.
  - intros Hnone. rewrite E. unfold Spec.positional_map. rewrite Hnone. reflexivity.
  - intros articleId w w' Hok.
    apply processArticle_tables in Hok as (wordPositions & Hwp & Ei & _).
    rewrite E in Hwp. inversion Hwp; subst wordPositions. exact Ei.
Qed.

Lemma processArticle_positional_map_witness :
  no_inherited_word "Hello world! Hello again." = true
  /\ word_positions "Hello world! Hello again."
     = Ok (Spec.positional_map Spec.ascii_word_constituent "Hello world! Hello again.").
Proof.
  split; [vm_compute; reflexivity|].
  apply (processArticle_positional_map "Hello world! Hello again.").
  vm_compute. reflexivity.
Defined.

(** The map of the witness, written out. *)
Example processArticle_hello_world :
  word_positions "Hello world! Hello again."
  = Ok [("hello", [0; 13]); ("world", [6]); ("again", [19])].
Proof. vm_compute. reflexivity. Qed.

(** *** One entry per word *)

Lemma own_set_keys {V} k (v : V) o :
  List.map fst (own_set k v o)
  = if in_dec string_dec k (List.map fst o) then List.map fst o
    else List.map fst o ++ [k].
Proof.
  induction o as [|[k' x] o IH]; simpl; [reflexivity|].
  destruct (String.eqb_spec k k') as [->|Hne]; simpl.
  - destruct (string_dec k' k'); [reflexivity | congruence].
  - rewrite IH. destruct (string_dec k' k); [congruence|].
    destruct (in_dec string_dec k (List.map fst o)); reflexivity.
Qed.

Lemma own_set_NoDup {V} k (v : V) o :
  List.NoDup (List.map fst o) -> List.NoDup (List.map fst (own_set k v o)).
Proof.
  intros H. rewrite own_set_keys.
  destruct (in_dec string_dec k (List.map fst o)) as [|Hout]; [exact H|].
  eapply Permutation_NoDup; [apply Permutation_cons_append|].
  constructor; assumption.
Qed.

Lemma record_position_NoDup wordPositions word position wordPositions' :
  record_position wordPositions word position = Ok wordPositions' ->
  List.NoDup (List.map fst wordPositions) ->
  List.NoDup (List.map fst wordPositions').
Proof.
  unfold record_position. intros H Hnd.
  destruct (truthy (get wordPositions word));
    destruct (get _ word); inversion H; subst;
    repeat apply own_set_NoDup; exact Hnd.
Qed.

Lemma index_pieces_NoDup pieces : forall wordPositions position wordPositions',
  index_pieces pieces wordPositions position = Ok wordPositions' ->
  List.NoDup (List.map fst wordPositions) ->
  List.NoDup (List.map fst wordPositions').
Proof.
  induction pieces as [|piece rest IH]; intros wp position wp' H Hnd; simpl in H.
  - inversion H; subst. exact Hnd.
  - destruct (test_word piece).
    + destruct (record_position wp piece position) as [wp1|e] eqn:E; [|discriminate].
      eapply IH; [exact H|]. eapply record_position_NoDup; eassumption.
    + eapply IH; eassumption.
Qed.

Lemma word_positions_NoDup content wordPositions :
  word_positions content = Ok wordPositions ->
  List.NoDup (List.map fst wordPositions).
Proof.
  intros H. eapply index_pieces_NoDup; [exact H | constructor].
Qed.

Lemma insert_by_index_permutation {V} (e : N * (string * V)) l :
  Permutation (e :: l) (insert_by_index e l).
Proof.
  induction l as [|a l IH]; simpl; [reflexivity|].
  destruct (fst e <=? fst a)%N; [reflexivity|].
  rewrite perm_swap. apply perm_skip, IH.
Qed.

Lemma entries_permutation {V} (o : props V) : Permutation (entries o) o.
Proof.
  unfold entries.
  assert (Permutation (fold_right insert_by_index [] (indexed o)) (indexed o)) as ->.
  { induction (indexed o) as [|e l IH]; simpl; [reflexivity|].
    rewrite <- insert_by_index_permutation. apply perm_skip, IH. }
  induction o as [|[k v] o IH]; simpl; [reflexivity|].
  destruct (array_index k); simpl.
  - apply perm_skip, IH.
  - rewrite <- Permutation_middle. apply perm_skip, IH.
Qed.

Lemma entries_NoDup {V} (o : props V) :
  List.NoDup (List.map fst o) -> List.NoDup (List.map fst (entries o)).
Proof.
  intros H. eapply Permutation_NoDup; [|exact H].
  apply Permutation_map. symmetry. apply entries_permutation.
Qed.

Lemma NoDup_keys_inj {V} (l : list (string * V)) e e' :
  List.NoDup (List.map fst l) -> In e l -> In e' l -> fst e = fst e' -> e = e'.
Proof.
  induction l as [|a l IH]; simpl; [tauto|].
  intros Hnd [->|He] [->|He'] Hk; inversion Hnd as [|? ? Hout Hnd']; subst.
  - reflexivity.
  - exfalso. apply Hout. rewrite Hk. apply in_map, He'.
  - exfalso. apply Hout. rewrite <- Hk. apply in_map, He.
  - apply IH; assumption.
Qed.

Lemma count_row_of_article articleId (entries : list (string * list nat)) others row :
  In row (count_rows_of_others articleId others
          ++ List.map (count_row articleId) entries) ->
  WordArticleCount.articleId row = articleId ->
  exists entry, In entry entries /\ row = count_row articleId entry.
Proof.
  intros Hin Hid. apply in_app_or in Hin as [Hin|Hin].
  - unfold count_rows_of_others in Hin. apply filter_In in Hin as [_ Hne].
    rewrite Hid, String.eqb_refl in Hne. discriminate.
  - apply in_map_iff in Hin as (entry & <- & Hin). eauto.
Qed.

Lemma index_row_of_article articleId (entries : list (string * list nat)) others index :
  In index (index_rows_of_others articleId others
            ++ List.map (index_row articleId) entries) ->
  WordIndex.articleId index = articleId ->
  exists entry, In entry entries /\ index = index_row articleId entry.
Proof.
  intros Hin Hid. apply in_app_or in Hin as [Hin|Hin].
  - unfold index_rows_of_others in Hin. apply filter_In in Hin as [_ Hne].
    rewrite Hid, String.eqb_refl in Hne. discriminate.
  - apply in_map_iff in Hin as (entry & <- & Hin). eauto.
Qed.

(** C3.  After a successful [processArticle], every WordArticleCount row of
    the article stands beside a WordIndex row of the same article and word,
    both made from one entry of the positional map in the same pass; its
    count is the length of that row's positions, and the article has no
    other WordIndex row for the word. *)
Theorem processArticle_count_is_positions_length
        (articleId content : string) (w w' : world) (row : WordArticleCount.t) :
  processArticle articleId content w = (Ok tt, w') ->
  In row (wordArticleCount w') ->
  WordArticleCount.articleId row = articleId ->
  exists wordPositions entry index,
    word_positions content = Ok wordPositions
    /\ In entry (entries wordPositions)
    /\ row = count_row articleId entry
    /\ index = index_row articleId entry
    /\ In index (wordIndex w')
    /\ WordIndex.articleId index = articleId
    /\ WordIndex.word index = WordArticleCount.word row
    /\ WordArticleCount.count row = List.length (WordIndex.positions index)
    /\ (forall index', In index' (wordIndex w') ->
                       WordIndex.articleId index' = articleId ->
                       WordIndex.word index' = WordArticleCount.word row ->
                       index' = index).
Proof.
  intros Hok Hrow Hid.
  apply processArticle_tables in Hok as (wordPositions & Hwp & Ei & Ec).
  rewrite Ec in Hrow.
  destruct (count_row_of_article _ _ _ _ Hrow Hid) as (entry & Hentry & ->).
  exists wordPositions, entry, (index_row articleId entry).
  repeat split; try reflexivity; try assumption.
  - rewrite Ei. apply in_or_app. right. apply in_map, Hentry.
  - intros index' Hin' Hid' Hword'. rewrite Ei in Hin'.
    destruct (index_row_of_article _ _ _ _ Hin' Hid') as (entry' & Hentry' & ->).
    f_equal. simpl in Hword'.
    eapply NoDup_keys_inj; [|exact Hentry'|exact Hentry|exact Hword'].
    apply entries_NoDup, (word_positions_NoDup content), Hwp.
Qed.

Lemma processArticle_count_is_positions_length_witness :
  processArticle "1" "Hello world! Hello again." empty_world
  = (Ok tt, snd (processArticle "1" "Hello world! Hello again." empty_world))
  /\ In (count_row "1" ("hello", [0; 13]))
        (wordArticleCount (snd (processArticle "1" "Hello world! Hello again." empty_world)))
  /\ exists wordPositions entry index,
    word_positions "Hello world! Hello again." = Ok wordPositions
    /\ In entry (entries wordPositions)
    /\ count_row "1" ("hello", [0; 13]) = count_row "1" entry
    /\ index = index_row "1" entry
    /\ In index (wordIndex (snd (processArticle "1" "Hello world! Hello again." empty_world)))
    /\ WordIndex.articleId index = "1"
    /\ WordIndex.word index = "hello"
    /\ 2 = List.length (WordIndex.positions index)
    /\ (forall index',
           In index' (wordIndex (snd (processArticle "1" "Hello world! Hello again."
                                                     empty_world))) ->
           WordIndex.articleId index' = "1" ->
           WordIndex.word index' = "hello" ->
           index' = index).
Proof.
  split; [vm_compute; reflexivity|]. split; [vm_compute; left; reflexivity|].
  apply (processArticle_count_is_positions_length
           "1" "Hello world! Hello again." empty_world
           (snd (processArticle "1" "Hello world! Hello again." empty_world))
           (count_row "1" ("hello", [0; 13]))).
  - vm_compute. reflexivity.
  - vm_compute. left. reflexivity.
  - reflexivity.
Defined.

(** ** Articles without words *)

Lemma filter_complement {A} (p : A -> bool) l :
  List.filter p (List.filter (fun x => negb (p x)) l) = [].
Proof.
  induction l as [|x l IH]; simpl; [reflexivity|].
  destruct (p x) eqn:E; simpl; [exact IH|]. rewrite E. exact IH.
Qed.

Lemma scan_no_word content : forall offset,
  no_word_char content = true ->
  Spec.scan Spec.ascii_word_constituent content offset None = [].
Proof.
  induction content as [|c rest IH]; intros offset H; simpl in *; [reflexivity|].
  apply andb_true_iff in H as [Hc Hrest]. apply negb_true_iff in Hc.
  rewrite ascii_word_constituent_is_word_char, Hc. simpl. apply IH, Hrest.
Qed.

Lemma word_positions_no_word content :
  no_word_char content = true -> word_positions content = Ok [].
Proof.
  intros H. rewrite word_positions_spec.
  - unfold Spec.positional_map, Spec.word_tokens. rewrite (scan_no_word _ _ H).
    reflexivity.
  - unfold Spec.word_tokens. rewrite (scan_no_word _ _ H). constructor.
Qed.

Lemma replace_rows_charged articleId wordPositions :
  charged (replace_rows articleId wordPositions).
Proof.
  unfold replace_rows.
  apply charged_bind; [apply charged_call; intros; reflexivity | intros _].
  apply charged_bind; [apply charged_call; intros; reflexivity | intros _].
  apply charged_for_each. intros entry.
  apply charged_bind; [apply charged_call; intros; reflexivity | intros _].
  apply charged_call; intros; reflexivity.
Qed.

Lemma replace_rows_same_logged articleId wordPositions n :
  preserves (same logged)
            (pRetry (Prisma.transaction (replace_rows articleId wordPositions)) n).
Proof.
  by_frame @preserves_pRetry. apply same_transaction; [reflexivity|].
  unfold replace_rows, Prisma.wordIndex_deleteMany, Prisma.wordArticleCount_deleteMany,
    Prisma.wordIndex_create, Prisma.wordArticleCount_create.
  frame.
Qed.

(** When the store rejects no more calls than there are retries,
    [processArticle] succeeds on every content whose positional map can be
    built, and logs nothing. *)
Lemma processArticle_succeeds articleId content wordPositions w :
  word_positions content = Ok wordPositions ->
  rejections (store_faults w) <= retries ->
  exists w', processArticle articleId content w = (Ok tt, w')
             /\ logged w' = logged w.
Proof.
  intros Hwp Hplan. unfold processArticle. rewrite Hwp.
  destruct (pRetry_charged
              (Prisma.transaction (replace_rows articleId wordPositions)) retries w
              (charged_transaction _ (replace_rows_charged _ _)) Hplan)
    as ([] & w1 & Htx).
  destruct (allSettled_total
              (Redis.del "top-words:*"
               :: List.map (fun word => Redis.del ("most-common-word:" ++ word))
                           (keys wordPositions)) w1) as [w' Hinv].
  exists w'. split.
  - apply try_catch_Ok. rewrite (bind_run _ _ _ _ _ Htx). exact Hinv.
  - pose proof (replace_rows_same_logged _ _ _ _ _ _ Htx) as F1.
    pose proof (invalidate_same logged wordPositions
                  ltac:(reflexivity) ltac:(reflexivity) ltac:(reflexivity)
                  _ _ _ Hinv) as F2.
    unfold same in F1, F2. congruence.
Qed.

(** C9.  On the empty content and on a content of separators only,
    [processArticle] succeeds without an error being logged (the store may
    reject up to three calls on the way) and leaves the two tables with the
    rows of the other articles only: every prior row of the article is
    removed and none is written. *)
Theorem processArticle_without_words (articleId content : string) (w : world) :
  no_word_char content = true ->
  rejections (store_faults w) <= retries ->
  exists w',
    processArticle articleId content w = (Ok tt, w')
    /\ logged w' = logged w
    /\ wordIndex w' = index_rows_of_others articleId (wordIndex w)
    /\ wordArticleCount w' = count_rows_of_others articleId (wordArticleCount w)
    /\ List.filter (fun index => String.eqb (WordIndex.articleId index) articleId)
                   (wordIndex w') = []
    /\ List.filter (fun row => String.eqb (WordArticleCount.articleId row) articleId)
                   (wordArticleCount w') = [].
Proof.
  intros Hnone Hplan.
  pose proof (word_positions_no_word _ Hnone) as Hwp.
  destruct (processArticle_succeeds articleId _ _ w Hwp Hplan) as (w' & Hok & Hlog).
  exists w'. split; [exact Hok|]. split; [exact Hlog|].
  apply processArticle_tables in Hok as (wp & Hwp' & Ei & Ec).
  rewrite Hwp in Hwp'. inversion Hwp'; subst wp. simpl in Ei, Ec.
  rewrite app_nil_r in Ei, Ec. rewrite Ei, Ec.
  split; [reflexivity|]. split; [reflexivity|]. split.
  - apply (filter_complement
             (fun index => String.eqb (WordIndex.articleId index) articleId)).
  - apply (filter_complement
             (fun row => String.eqb (WordArticleCount.articleId row) articleId)).
Qed.

Lemma processArticle_without_words_witness :
  no_word_char "!@#$%^&*()" = true
  /\ rejections (store_faults indexed_world) <= retries
  /\ exists w',
    processArticle "1" "!@#$%^&*()" indexed_world = (Ok tt, w')
    /\ logged w' = logged indexed_world
    /\ wordIndex w' = index_rows_of_others "1" (wordIndex indexed_world)
    /\ wordArticleCount w' = count_rows_of_others "1" (wordArticleCount indexed_world)
    /\ List.filter (fun index => String.eqb (WordIndex.articleId index) "1")
                   (wordIndex w') = []
    /\ List.filter (fun row => String.eqb (WordArticleCount.articleId row) "1")
                   (wordArticleCount w') = [].
Proof.
  split; [vm_compute; reflexivity|]. split; [vm_compute; lia|].
  apply (processArticle_without_words "1" "!@#$%^&*()" indexed_world).
  - vm_compute. reflexivity.
  - vm_compute. lia.
Defined.

(** The two contents of the claim, run on a state that holds rows of the
    article and in which two store calls are rejected. *)
Example processArticle_empty_and_punctuation :
  fst (processArticle "1" "" indexed_world) = Ok tt
  /\ fst (processArticle "1" "!@#$%^&*()" indexed_world) = Ok tt
  /\ wordIndex (snd (processArticle "1" "" indexed_world))
     = [ {| WordIndex.articleId := "2"; WordIndex.word := "old";
            WordIndex.positions := [7] |} ]
  /\ wordArticleCount (snd (processArticle "1" "!@#$%^&*()" indexed_world))
     = [ {| WordArticleCount.word := "old"; WordArticleCount.articleId := "2";
            WordArticleCount.count := 1 |} ].
Proof. repeat split; vm_compute; reflexivity. Qed.

(** ** Invalidation *)

#[global] Instance stays_gone_preorder key : PreOrder (stays_gone key).
Proof.
  split.
  - intros w H. exact H.
  - intros w1 w2 w3 H12 H23 H. apply H23, H12, H.
Qed.

Lemma stays_gone_del key k : preserves (stays_gone key) (Redis.del k).
Proof.
  intros w r w' H Hgone. unfold Redis.del in H.
  destruct (next_fault _) as [[] plan]; inversion H; subst; simpl.
  - exact Hgone.
  - apply lookup_delete_None. right. exact Hgone.
Qed.

Lemma lookup_kept_del key k :
  k <> key -> preserves (same (fun w => redis w !! key)) (Redis.del k).
Proof.
  intros Hne w r w' H. unfold Redis.del in H. unfold same.
  destruct (next_fault _) as [[] plan]; inversion H; subst; simpl.
  - reflexivity.
  - apply lookup_delete_ne, Hne.
Qed.

Lemma next_fault_none plan :
  rejections plan = 0 ->
  fst (next_fault plan) = false /\ rejections (snd (next_fault plan)) = 0.
Proof.
  unfold rejections. destruct plan as [|[] plan]; simpl; intros H.
  - split; reflexivity.
  - destruct (bool_dec true true); [discriminate | congruence].
  - destruct (bool_dec false true); [congruence | split; [reflexivity | exact H]].
Qed.

Lemma allSettled_del_gone ks : forall w w',
  allSettled (List.map Redis.del ks) w = (Ok tt, w') ->
  rejections (del_faults w) = 0 ->
  forall k, In k ks -> redis w' !! k = None.
Proof.
  induction ks as [|k0 ks IH]; intros w w' H Hplan k Hin; [destruct Hin|].
  simpl in H. unfold mbind at 1, M_bind at 1, try_catch in H.
  unfold mbind, M_bind, Redis.del in H.
  pose proof (next_fault_none _ Hplan) as [Hb Hrest].
  simpl in H. destruct (next_fault (del_faults w)) as [b plan].
  simpl in Hb, Hrest. subst b. simpl in H.
  destruct Hin as [->|Hin].
  - assert (preserves (stays_gone k) (allSettled (List.map Redis.del ks))) as Hkeep.
    { by_frame @preserves_allSettled. apply List.Forall_forall. intros c Hc.
      apply in_map_iff in Hc as (k' & <- & _). apply stays_gone_del. }
    apply (Hkeep _ _ _ H). simpl. apply lookup_delete_eq.
  - apply (IH _ _ H); [exact Hrest | exact Hin].
Qed.

(** The half of C4 that holds: after a successful [processArticle] during
    which the cache rejects no command, no entry [most-common-word:<word>]
    is left for a word of the article. *)
Lemma processArticle_deletes_most_common_word articleId content wordPositions w w' word :
  processArticle articleId content w = (Ok tt, w') ->
  rejections (del_faults w) = 0 ->
  word_positions content = Ok wordPositions ->
  In word (keys wordPositions) ->
  redis w' !! ("most-common-word:" ++ word)%string = None.
Proof.
  unfold processArticle. intros H Hplan Hwp Hin.
  apply try_catch_rethrow_Ok in H. rewrite Hwp in H.
  apply bind_Ok in H as ([] & w1 & Htx & Hinv).
  assert (del_faults w1 = del_faults w) as Hsame.
  { assert (preserves (same del_faults)
              (pRetry (Prisma.transaction (replace_rows articleId wordPositions))
                      retries)) as F.
    { by_frame @preserves_pRetry. apply same_transaction; [reflexivity|].
      unfold replace_rows, Prisma.wordIndex_deleteMany,
        Prisma.wordArticleCount_deleteMany, Prisma.wordIndex_create,
        Prisma.wordArticleCount_create.
      frame. }
    apply (F _ _ _ Htx). }
  unfold invalidate in Hinv.
  eapply (allSettled_del_gone
            ("top-words:*"
             :: List.map (fun word => ("most-common-word:" ++ word)%string)
                         (keys wordPositions))).
  - simpl. rewrite List.map_map. exact Hinv.
  - rewrite Hsame. exact Hplan.
  - right. apply in_map, Hin.
Qed.

Lemma top_words_key_not_most_common key word :
  Spec.matches_top_words key = true ->
  ("most-common-word:" ++ word)%string <> key.
Proof.
  unfold Spec.matches_top_words. intros H E. subst key. simpl in H.
  destruct (ascii_dec "t" "m"); discriminate.
Qed.

Lemma invalidate_keeps key wordPositions :
  Spec.matches_top_words key = true -> key <> "top-words:*" ->
  preserves (same (fun w => redis w !! key)) (invalidate wordPositions).
Proof.
  intros Hmatch Hne. unfold invalidate.
  by_frame @preserves_allSettled. constructor.
  - apply lookup_kept_del. congruence.
  - apply List.Forall_forall. intros c Hin.
    apply in_map_iff in Hin as (word & <- & _).
    apply lookup_kept_del, top_words_key_not_most_common, Hmatch.
Qed.

(** C4 is not what the code does: [redis.del('top-words:*')] removes the
    one key spelled [top-words:*], so every other entry whose key matches
    the pattern is still in the cache after [processArticle], whatever the
    state, the article and the outcome. *)
Theorem processArticle_keeps_top_words_entries
        (articleId content key : string) (w : world) :
  Spec.matches_top_words key = true ->
  key <> "top-words:*" ->
  redis (snd (processArticle articleId content w)) !! key = redis w !! key.
Proof.
  intros Hmatch Hne.
  assert (preserves (same (fun w => redis w !! key))
                    (processArticle articleId content)) as F.
  { unfold processArticle.
    by_frame @preserves_try_catch; [|intros e; frame].
    destruct (word_positions content) as [wordPositions|e]; [|frame].
    by_frame @preserves_bind; [|intros _; apply invalidate_keeps; assumption].
    by_frame @preserves_pRetry. apply same_transaction; [reflexivity|].
    unfold replace_rows, Prisma.wordIndex_deleteMany,
      Prisma.wordArticleCount_deleteMany, Prisma.wordIndex_create,
      Prisma.wordArticleCount_create.
    frame. }
  destruct (processArticle articleId content w) as [r w'] eqn:E.
  apply (F _ _ _ E).
Qed.

Lemma processArticle_keeps_top_words_entries_witness :
  Spec.matches_top_words "top-words:10" = true
  /\ "top-words:10" <> "top-words:*"
  /\ redis (snd (processArticle "1" "hello" cached_world)) !! "top-words:10"
     = redis cached_world !! "top-words:10".
Proof.
  split; [reflexivity|]. split; [discriminate|].
  apply (processArticle_keeps_top_words_entries "1" "hello" "top-words:10" cached_world).
  - reflexivity.
  - discriminate.
Defined.

(** The run behind the witness: indexing succeeds, the entry of the word
    [hello] is deleted, the aggregate entry is not. *)
Example processArticle_invalidation_run :
  fst (processArticle "1" "hello" cached_world) = Ok tt
  /\ redis_calls (snd (processArticle "1" "hello" cached_world))
     = [Del "top-words:*"; Del "most-common-word:hello"]
  /\ redis (snd (processArticle "1" "hello" cached_world)) !! "most-common-word:hello"
     = None
  /\ redis (snd (processArticle "1" "hello" cached_world)) !! "top-words:10"
     = Some (Text (JArr [JStr "hello"]), 600).
Proof. repeat split; vm_compute; reflexivity. Qed.

(** ** The read paths *)

#[global] Instance no_write_preorder : PreOrder no_write.
Proof.
  split.
  - intros w. exists []. rewrite app_nil_r. split; [reflexivity | constructor].
  - intros w1 w2 w3 [c1 [E1 F1]] [c2 [E2 F2]]. exists (c1 ++ c2). split.
    + rewrite E2, E1, app_assoc. reflexivity.
    + apply Forall_app. split; assumption.
Qed.

#[global] Instance keeps_log_preorder : PreOrder keeps_log.
Proof.
  split.
  - intros w entry H. exact H.
  - intros w1 w2 w3 H12 H23 entry H. apply H23, H12, H.
Qed.

Lemma same_no_write {A} (m : M A) :
  preserves (same redis_calls) m -> preserves no_write m.
Proof.
  intros H w r w' E. exists []. rewrite app_nil_r. split; [|constructor].
  eapply H, E.
Qed.

Lemma same_keeps_log {A} (m : M A) :
  preserves (same logged) m -> preserves keeps_log m.
Proof. intros H w r w' E entry Hin. rewrite (H _ _ _ E). exact Hin. Qed.

Lemma keeps_log_log l message : preserves keeps_log (log l message).
Proof.
  intros w r w' H entry Hin. inversion H; subst. simpl.
  apply in_or_app. left. exact Hin.
Qed.

Lemma no_write_get key : preserves no_write (Redis.get key).
Proof.
  intros w r w' H. unfold Redis.get in H. exists [Get key].
  destruct (next_fault _) as [[] plan]; inversion H; subst; simpl;
    (split; [reflexivity | repeat constructor]).
Qed.

Lemma getCachedResult_no_write key : preserves no_write (getCachedResult key).
Proof.
  unfold getCachedResult.
  by_frame @preserves_try_catch.
  - by_frame @preserves_pRetry. by_frame @preserves_bind; [apply no_write_get|].
    intros result. apply same_no_write. frame.
  - intros _. apply same_no_write. frame.
Qed.

Lemma getCachedResult_keeps_log key : preserves keeps_log (getCachedResult key).
Proof.
  unfold getCachedResult.
  by_frame @preserves_try_catch.
  - apply same_keeps_log. frame.
  - intros _. by_frame @preserves_bind; [apply keeps_log_log|].
    intros _. by_frame @preserves_ret.
Qed.

Lemma setCachedResult_keeps_log key data : preserves keeps_log (setCachedResult key data).
Proof.
  unfold setCachedResult.
  by_frame @preserves_try_catch.
  - apply same_keeps_log. frame.
  - intros _. apply keeps_log_log.
Qed.

Lemma getCachedResult_total key : total (getCachedResult key).
Proof.
  intros w. unfold getCachedResult, try_catch.
  destruct (pRetry _ retries w) as [[v|e] w1]; eexists _, _; reflexivity.
Qed.

Lemma setCachedResult_total key data : total (setCachedResult key data).
Proof.
  intros w. unfold setCachedResult, try_catch.
  destruct (pRetry _ retries w) as [[[]|e] w1]; eexists _, _; reflexivity.
Qed.

Lemma cache_miss_run key w :
  cache_miss key w = true ->
  exists v w1, getCachedResult key w = (Ok v, w1) /\ json_truthy v = false.
Proof.
  unfold cache_miss. destruct (getCachedResult key w) as [[v|e] w1]; intros H.
  - exists v, w1. split; [reflexivity|]. apply negb_true_iff, H.
  - discriminate.
Qed.

(** A cache read rejected on all four runs ends in a miss and a warning. *)
Lemma getCachedResult_rejected key w rest :
  get_faults w = true :: true :: true :: true :: rest ->
  exists w1, getCachedResult key w = (Ok JNull, w1)
             /\ In (Warn, "Failed to get cached result after retries") (logged w1).
Proof.
  intros H. unfold getCachedResult, try_catch, retries, pRetry.
  unfold mbind, M_bind, Redis.get. simpl. rewrite H. simpl.
  eexists. split; [reflexivity|]. simpl. apply in_or_app. right. left. reflexivity.
Qed.

(** A query of the store gets its answer when the store rejects no more
    calls than there are retries. *)
Lemma pRetry_query {A} (q : world -> A) n : forall w,
  (forall p w, q (with_store_faults p w) = q w) ->
  rejections (store_faults w) <= n ->
  exists w', pRetry (Prisma.call (fun w => (q w, w))) n w = (Ok (q w), w').
Proof.
  unfold rejections.
  induction n as [|n IH]; intros w Hq Hn; simpl; unfold Prisma.call;
    destruct (store_faults w) as [|[] plan] eqn:E; simpl.
  - eexists. rewrite Hq. reflexivity.
  - simpl in Hn. destruct (bool_dec true true); [lia | congruence].
  - eexists. rewrite Hq. reflexivity.
  - eexists. rewrite Hq. reflexivity.
  - simpl in Hn. destruct (bool_dec true true); [|congruence].
    destruct (IH (with_store_faults plan w) Hq) as [w' Hw']; [simpl; lia|].
    fold (@Prisma.call A (fun w => (q w, w))). rewrite Hw', Hq. eauto.
  - eexists. rewrite Hq. reflexivity.
Qed.

(** A query rejected on all four runs throws. *)
Lemma pRetry_call_exhausted {A} (run : world -> A * world) w rest :
  store_faults w = true :: true :: true :: true :: rest ->
  pRetry (Prisma.call run) retries w = (Throw StoreError, with_store_faults rest w).
Proof.
  intros H. unfold retries, pRetry, Prisma.call. simpl. rewrite H. simpl.
  reflexivity.
Qed.

Lemma pRetry_0 {A} (attempt : M A) w : pRetry attempt 0 w = attempt w.
Proof. simpl. destruct (attempt w) as [[a|e] w1]; reflexivity. Qed.

Lemma pRetry_S {A} (attempt : M A) n w :
  pRetry attempt (S n) w
  = match attempt w with
    | (Ok a, w') => (Ok a, w')
    | (Throw e, w') => pRetry attempt n w'
    end.
Proof. reflexivity. Qed.

Lemma set_run key value seconds w :
  Redis.set key value seconds w
  = match set_faults w with
    | true :: plan =>
        (Throw RedisError,
         with_set_faults plan (with_call (SetEx key value seconds) w))
    | plan =>
        (Ok tt,
         with_redis (insert key (value, seconds))
                    (with_set_faults (List.tl plan)
                                     (with_call (SetEx key value seconds) w)))
    end.
Proof. unfold Redis.set. simpl. destruct (set_faults w) as [|[] plan]; reflexivity. Qed.

Lemma pRetry_set key value seconds n : forall w,
  rejections (set_faults w) <= n ->
  exists w', pRetry (Redis.set key value seconds) n w = (Ok tt, w')
             /\ redis w' = <[key := (value, seconds)]> (redis w).
Proof.
  unfold rejections.
  induction n as [|n IH]; intros w Hn;
    [rewrite pRetry_0 | rewrite pRetry_S]; rewrite set_run;
    destruct (set_faults w) as [|[] plan] eqn:E; simpl in Hn;
    try (eexists; split; reflexivity).
  - destruct (bool_dec true true); [lia | congruence].
  - destruct (bool_dec true true); [|congruence].
    destruct (IH (with_set_faults plan (with_call (SetEx key value seconds) w)))
      as (w' & Hw' & Hr); [simpl; lia|].
    exists w'. split; [exact Hw' | exact Hr].
Qed.

Lemma setCachedResult_writes key data w :
  rejections (set_faults w) <= retries ->
  exists w', setCachedResult key data w = (Ok tt, w')
             /\ redis w' = <[key := (Text data, 600)]> (redis w).
Proof.
  intros H. destruct (pRetry_set key (Text data) 600 retries w H) as (w' & Hw' & Hr).
  exists w'. split; [|exact Hr].
  unfold setCachedResult. apply try_catch_Ok, Hw'.
Qed.

(** *** The result object of [findWords] *)

Lemma own_get_own_set_if {V} k a (x : V) o :
  own_get k (own_set a x o) = if String.eqb k a then Some x else own_get k o.
Proof.
  induction o as [|[k' x'] o IH]; simpl.
  - reflexivity.
  - destruct (String.eqb_spec a k') as [->|Hne]; simpl.
    + destruct (String.eqb k k'); reflexivity.
    + rewrite IH. destruct (String.eqb_spec k a) as [->|]; [|reflexivity].
      assert (String.eqb a k' = false) as -> by (apply String.eqb_neq; exact Hne).
      reflexivity.
Qed.

Lemma fold_assign_lookup {V} (v : string -> V) l : forall o k,
  k <> "__proto__" ->
  own_get k (own (fold_left (fun results word => assign results word (v word)) l o))
  = if in_dec string_dec k l then Some (v k) else own_get k (own o).
Proof.
  induction l as [|a l IH]; intros o k Hk; simpl; [reflexivity|].
  rewrite (IH _ _ Hk). destruct (in_dec string_dec k l) as [Hin|Hout].
  - destruct (string_dec a k); reflexivity.
  - unfold assign. destruct (string_dec a k) as [->|Hne].
    + assert (String.eqb k "__proto__" = false) as ->
          by (apply String.eqb_neq; exact Hk).
      simpl. rewrite own_get_own_set_if, String.eqb_refl. reflexivity.
    + destruct (String.eqb a "__proto__"); simpl; [reflexivity|].
      rewrite own_get_own_set_if.
      assert (String.eqb k a = false) as -> by (apply String.eqb_neq; congruence).
      reflexivity.
Qed.

Lemma filter_filter_implied {A} (p q : A -> bool) l :
  (forall x, p x = true -> q x = true) ->
  List.filter p (List.filter q l) = List.filter p l.
Proof.
  intros H. induction l as [|x l IH]; simpl; [reflexivity|].
  destruct (q x) eqn:Eq; simpl.
  - rewrite IH. reflexivity.
  - destruct (p x) eqn:Ep; [|exact IH].
    rewrite (H _ Ep) in Eq. discriminate.
Qed.

(** Every queried word other than [__proto__] is a key of the result, with
    the rows of that word as its hits, none when the store has none. *)
Lemma format_results_lookup normalizedWords rows word :
  In word normalizedWords -> word <> "__proto__" ->
  own_get word (own (format_results normalizedWords (matching_rows normalizedWords rows)))
  = Some (List.map hit_of (index_rows_of_word word rows)).
Proof.
  intros Hin Hne. unfold format_results.
  etransitivity.
  { exact (fold_assign_lookup
             (fun word => List.map hit_of
                            (index_rows_of_word word
                               (matching_rows normalizedWords rows)))
             normalizedWords empty word Hne). }
  destruct (in_dec string_dec word normalizedWords) as [_|Hout]; [|tauto].
  f_equal. f_equal. unfold index_rows_of_word, matching_rows.
  apply filter_filter_implied. intros index Hw.
  apply String.eqb_eq in Hw. apply existsb_exists. exists word.
  split; [exact Hin | apply String.eqb_eq; exact Hw].
Qed.

Lemma greatest_spec rows row :
  Prisma.greatest rows = Some row ->
  In row rows
  /\ forall row', In row' rows ->
                  WordArticleCount.count row' <= WordArticleCount.count row.
Proof.
  revert row. induction rows as [|r rows IH]; intros row H; simpl in H; [discriminate|].
  destruct (Prisma.greatest rows) as [best|] eqn:E.
  - destruct (IH best eq_refl) as [Hin Hmax].
    destruct (Nat.leb_spec (WordArticleCount.count best) (WordArticleCount.count r));
      inversion H; subst.
    + split; [left; reflexivity|]. intros row' [->|Hin']; [lia|].
      specialize (Hmax _ Hin'). lia.
    + split; [right; exact Hin|]. intros row' [->|Hin']; [lia|].
      apply Hmax, Hin'.
  - inversion H; subst. split; [left; reflexivity|].
    destruct rows as [|r' rows]; [|simpl in E; destruct (Prisma.greatest rows);
                                   [destruct (_ <=? _)%nat|]; discriminate].
    intros row' [->|[]]. lia.
Qed.

Lemma greatest_none rows : Prisma.greatest rows = None -> rows = [].
Proof.
  destruct rows as [|r rows]; [reflexivity|]. simpl.
  destruct (Prisma.greatest rows); [destruct (_ <=? _)%nat|]; discriminate.
Qed.

(** *** The path taken on a miss *)

Lemma findMany_same {T} (f : world -> T) words n :
  (forall p w, f (with_store_faults p w) = f w) ->
  preserves (same f) (pRetry (Prisma.wordIndex_findMany words) n).
Proof. intros Hp. unfold Prisma.wordIndex_findMany. frame. Qed.

Lemma findFirst_same {T} (f : world -> T) word n :
  (forall p w, f (with_store_faults p w) = f w) ->
  preserves (same f) (pRetry (Prisma.wordArticleCount_findFirst word) n).
Proof. intros Hp. unfold Prisma.wordArticleCount_findFirst. frame. Qed.

Lemma findWords_sorted_miss words w :
  cache_miss (cacheKey_findWords words) w = true ->
  rejections (store_faults w) <= retries ->
  exists v w1 w',
    getCachedResult (cacheKey_findWords words) w = (Ok v, w1)
    /\ findWords_sorted words w
       = (Ok (Fresh (format_results
                       (List.map toLowerCase words)
                       (matching_rows (List.map toLowerCase words) (wordIndex w)))),
          w')
    /\ keeps_log w1 w'
    /\ (rejections (set_faults w) <= retries ->
        redis w' !! cacheKey_findWords words
        = Some (Text (results_json
                        (format_results
                           (List.map toLowerCase words)
                           (matching_rows (List.map toLowerCase words) (wordIndex w)))),
                600)).
Proof.
  intros Hmiss Hplan.
  destruct (cache_miss_run _ _ Hmiss) as (v & w1 & Hget & Hv).
  pose proof (getCachedResult_same store_faults ltac:(reflexivity) ltac:(reflexivity)
                _ ltac:(reflexivity) _ _ _ Hget) as Fs.
  pose proof (getCachedResult_same wordIndex ltac:(reflexivity) ltac:(reflexivity)
                _ ltac:(reflexivity) _ _ _ Hget) as Fi.
  pose proof (getCachedResult_same set_faults ltac:(reflexivity) ltac:(reflexivity)
                _ ltac:(reflexivity) _ _ _ Hget) as Ft.
  unfold same in Fs, Fi, Ft.
  destruct (pRetry_query
              (fun w => matching_rows (List.map toLowerCase words) (wordIndex w))
              retries w1 ltac:(reflexivity) ltac:(rewrite Fs; exact Hplan))
    as [w2 Hquery].
  change (pRetry (Prisma.call _) retries w1)
    with (pRetry (Prisma.wordIndex_findMany (List.map toLowerCase words)) retries w1)
    in Hquery.
  rewrite Fi in Hquery.
  pose proof (findMany_same set_faults _ _ ltac:(reflexivity) _ _ _ Hquery) as Gt.
  pose proof (findMany_same logged _ _ ltac:(reflexivity) _ _ _ Hquery) as Gl.
  unfold same in Gt, Gl.
  set (results := format_results
                    (List.map toLowerCase words)
                    (matching_rows (List.map toLowerCase words) (wordIndex w))) in *.
  destruct (setCachedResult_total (cacheKey_findWords words) (results_json results) w2)
    as ([] & w' & Hset).
  exists v, w1, w'. split; [exact Hget|]. split; [|split].
  - unfold findWords_sorted. apply try_catch_Ok.
    rewrite (bind_run _ _ _ _ _ Hget), Hv. cbv zeta.
    rewrite (bind_run _ _ _ _ _ Hquery). fold results.
    rewrite (bind_run _ _ _ _ _ Hset). reflexivity.
  - intros entry Hin. apply (setCachedResult_keeps_log _ _ _ _ _ Hset).
    rewrite Gl. exact Hin.
  - intros Hsetplan.
    destruct (setCachedResult_writes (cacheKey_findWords words) (results_json results) w2)
      as (w'' & Hset' & Hredis); [rewrite Gt, Ft; exact Hsetplan|].
    rewrite Hset in Hset'. inversion Hset'; subst w''.
    rewrite Hredis. apply lookup_insert_eq.
Qed.

Lemma getMostCommonWordArticle_miss word w :
  cache_miss (cacheKey_mostCommon word) w = true ->
  rejections (store_faults w) <= retries ->
  exists v w1 w',
    getCachedResult (cacheKey_mostCommon word) w = (Ok v, w1)
    /\ getMostCommonWordArticle word w
       = (Ok match Prisma.greatest
                     (count_rows_of_word (toLowerCase word) (wordArticleCount w)) with
             | Some row => most_common_json row
             | None => JNull
             end,
          w')
    /\ keeps_log w1 w'
    /\ match Prisma.greatest
               (count_rows_of_word (toLowerCase word) (wordArticleCount w)) with
       | Some row =>
           rejections (set_faults w) <= retries ->
           redis w' !! cacheKey_mostCommon word = Some (Text (most_common_json row), 600)
       | None => redis w' = redis w /\ no_write w w'
       end.
Proof.
  intros Hmiss Hplan.
  destruct (cache_miss_run _ _ Hmiss) as (v & w1 & Hget & Hv).
  pose proof (getCachedResult_same store_faults ltac:(reflexivity) ltac:(reflexivity)
                _ ltac:(reflexivity) _ _ _ Hget) as Fs.
  pose proof (getCachedResult_same wordArticleCount ltac:(reflexivity) ltac:(reflexivity)
                _ ltac:(reflexivity) _ _ _ Hget) as Fc.
  pose proof (getCachedResult_same set_faults ltac:(reflexivity) ltac:(reflexivity)
                _ ltac:(reflexivity) _ _ _ Hget) as Ft.
  pose proof (getCachedResult_same redis ltac:(reflexivity) ltac:(reflexivity)
                _ ltac:(reflexivity) _ _ _ Hget) as Fr.
  pose proof (getCachedResult_no_write _ _ _ _ Hget) as Fw.
  unfold same in Fs, Fc, Ft, Fr.
  destruct (pRetry_query
              (fun w => Prisma.greatest
                          (count_rows_of_word (toLowerCase word) (wordArticleCount w)))
              retries w1 ltac:(reflexivity) ltac:(rewrite Fs; exact Hplan))
    as [w2 Hquery].
  change (pRetry (Prisma.call _) retries w1)
    with (pRetry (Prisma.wordArticleCount_findFirst (toLowerCase word)) retries w1)
    in Hquery.
  rewrite Fc in Hquery.
  pose proof (findFirst_same set_faults _ _ ltac:(reflexivity) _ _ _ Hquery) as Gt.
  pose proof (findFirst_same logged _ _ ltac:(reflexivity) _ _ _ Hquery) as Gl.
  pose proof (findFirst_same redis _ _ ltac:(reflexivity) _ _ _ Hquery) as Gr.
  pose proof (findFirst_same redis_calls _ _ ltac:(reflexivity) _ _ _ Hquery) as Gc.
  unfold same in Gt, Gl, Gr, Gc.
  destruct (Prisma.greatest _) as [row|] eqn:Hrow.
  - destruct (setCachedResult_total (cacheKey_mostCommon word) (most_common_json row) w2)
      as ([] & w' & Hset).
    exists v, w1, w'. split; [exact Hget|]. split; [|split].
    + unfold getMostCommonWordArticle. apply try_catch_Ok.
      rewrite (bind_run _ _ _ _ _ Hget), Hv. cbv zeta.
      rewrite (bind_run _ _ _ _ _ Hquery).
      change (JObj _) with (most_common_json row).
      rewrite (bind_run _ _ _ _ _ Hset). reflexivity.
    + intros entry Hin. apply (setCachedResult_keeps_log _ _ _ _ _ Hset).
      rewrite Gl. exact Hin.
    + intros Hsetplan.
      destruct (setCachedResult_writes (cacheKey_mostCommon word)
                  (most_common_json row) w2)
        as (w'' & Hset' & Hredis); [rewrite Gt, Ft; exact Hsetplan|].
      rewrite Hset in Hset'. inversion Hset'; subst w''.
      rewrite Hredis. apply lookup_insert_eq.
  - exists v, w1, w2. split; [exact Hget|]. split; [|split].
    + unfold getMostCommonWordArticle. apply try_catch_Ok.
      rewrite (bind_run _ _ _ _ _ Hget), Hv. cbv zeta.
      rewrite (bind_run _ _ _ _ _ Hquery). reflexivity.
    + intros entry Hin. rewrite Gl. exact Hin.
    + split; [congruence|].
      destruct Fw as (calls & Ecalls & Hcalls). exists calls.
      split; [congruence | exact Hcalls].
Qed.

Lemma getCachedResult_rejected_miss key w rest :
  get_faults w = true :: true :: true :: true :: rest ->
  cache_miss key w = true.
Proof.
  intros H. destruct (getCachedResult_rejected key w rest H) as (w1 & E & _).
  unfold cache_miss. rewrite E. reflexivity.
Qed.

(** C5.  When the cache rejects the read on all four runs, [findWords] and
    [getMostCommonWordArticle] go on as on a miss: the warning is logged,
    the store is queried (it may itself reject up to three calls) and the
    call returns, without throwing, what the store holds: for [findWords]
    the object built from the rows of the queried words, in which every
    queried word other than [__proto__] has the hits of its rows; for
    [getMostCommonWordArticle] the row of greatest count, or null. *)
Theorem cache_get_failure_is_a_miss
        (words : list string) (word : string) (w : world) (rest : list bool) :
  get_faults w = true :: true :: true :: true :: rest ->
  rejections (store_faults w) <= retries ->
  (exists w',
      findWords words w
      = (Ok (Fresh (format_results
                      (List.map toLowerCase (sort words))
                      (matching_rows (List.map toLowerCase (sort words)) (wordIndex w)))),
         sort words, w')
      /\ In (Warn, "Failed to get cached result after retries") (logged w')
      /\ forall query,
          In query words -> toLowerCase query <> "__proto__" ->
          own_get (toLowerCase query)
                  (own (format_results
                          (List.map toLowerCase (sort words))
                          (matching_rows (List.map toLowerCase (sort words))
                                         (wordIndex w))))
          = Some (List.map hit_of
                           (index_rows_of_word (toLowerCase query) (wordIndex w))))
  /\ (exists w',
         getMostCommonWordArticle word w
         = (Ok match Prisma.greatest
                       (count_rows_of_word (toLowerCase word) (wordArticleCount w)) with
               | Some row => most_common_json row
               | None => JNull
               end,
            w')
         /\ In (Warn, "Failed to get cached result after retries") (logged w')).
Proof.
  intros Hget Hplan. split.
  - destruct (getCachedResult_rejected (cacheKey_findWords (sort words)) w rest Hget)
      as (w1 & E1 & Hwarn).
    destruct (findWords_sorted_miss (sort words) w
                (getCachedResult_rejected_miss _ _ _ Hget) Hplan)
      as (v & w1' & w' & E1' & Hrun & Hlog & _).
    rewrite E1 in E1'. inversion E1'; subst v w1'.
    exists w'. split; [|split].
    + unfold findWords. rewrite Hrun. reflexivity.
    + apply Hlog, Hwarn.
    + intros query Hin Hne. apply format_results_lookup; [|exact Hne].
      apply in_map. eapply Permutation_in; [apply sort_permutation | exact Hin].
  - destruct (getCachedResult_rejected (cacheKey_mostCommon word) w rest Hget)
      as (w1 & E1 & Hwarn).
    destruct (getMostCommonWordArticle_miss word w
                (getCachedResult_rejected_miss _ _ _ Hget) Hplan)
      as (v & w1' & w' & E1' & Hrun & Hlog & _).
    rewrite E1 in E1'. inversion E1'; subst v w1'.
    exists w'. split; [exact Hrun | apply Hlog, Hwarn].
Qed.

Lemma cache_get_failure_is_a_miss_witness :
  get_faults unreachable_cache_world = true :: true :: true :: true :: []
  /\ rejections (store_faults unreachable_cache_world) <= retries
  /\ (exists w',
      findWords ["Old"] unreachable_cache_world
      = (Ok (Fresh (format_results
                      (List.map toLowerCase (sort ["Old"]))
                      (matching_rows (List.map toLowerCase (sort ["Old"]))
                                     (wordIndex unreachable_cache_world)))),
         sort ["Old"], w')
      /\ In (Warn, "Failed to get cached result after retries") (logged w')
      /\ forall query,
          In query ["Old"] -> toLowerCase query <> "__proto__" ->
          own_get (toLowerCase query)
                  (own (format_results
                          (List.map toLowerCase (sort ["Old"]))
                          (matching_rows (List.map toLowerCase (sort ["Old"]))
                                         (wordIndex unreachable_cache_world))))
          = Some (List.map hit_of
                           (index_rows_of_word (toLowerCase query)
                                               (wordIndex unreachable_cache_world))))
  /\ (exists w',
         getMostCommonWordArticle "old" unreachable_cache_world
         = (Ok match Prisma.greatest
                       (count_rows_of_word (toLowerCase "old")
                                           (wordArticleCount unreachable_cache_world)) with
               | Some row => most_common_json row
               | None => JNull
               end,
            w')
         /\ In (Warn, "Failed to get cached result after retries") (logged w')).
Proof.
  split; [reflexivity|]. split; [vm_compute; lia|].
  apply (cache_get_failure_is_a_miss ["Old"] "old" unreachable_cache_world []).
  - reflexivity.
  - vm_compute. lia.
Defined.

(** The run behind the witness, written out. *)
Example cache_get_failure_run :
  fst (fst (findWords ["Old"] unreachable_cache_world))
  = Ok (Fresh {| own := [("old", [ {| article_id := "1"; offsets := [0; 4] |};
                                   {| article_id := "2"; offsets := [7] |} ])];
                 proto := None |})
  /\ fst (getMostCommonWordArticle "old" unreachable_cache_world)
     = Ok (JObj [("article_id", JStr "1"); ("count", JNum 2)])
  /\ logged (snd (getMostCommonWordArticle "old" unreachable_cache_world))
     = [(Warn, "Failed to get cached result after retries")].
Proof. repeat split; vm_compute; reflexivity. Qed.

(** C6.  When the cache gives no entry and the store rejects the query on
    all four runs, [findWords] and [getMostCommonWordArticle] log the error
    and throw it to their caller. *)
Theorem store_failure_is_propagated
        (words : list string) (word : string) (w : world) (rest : list bool) :
  store_faults w = true :: true :: true :: true :: rest ->
  cache_miss (cacheKey_findWords (sort words)) w = true ->
  cache_miss (cacheKey_mostCommon word) w = true ->
  (exists w',
      findWords words w = (Throw StoreError, sort words, w')
      /\ In (Error, "Error in findWords") (logged w'))
  /\ (exists w',
         getMostCommonWordArticle word w = (Throw StoreError, w')
         /\ In (Error, "Error in getMostCommonWordArticle") (logged w')).
Proof.
  intros Hplan Hmiss1 Hmiss2. split.
  - destruct (cache_miss_run _ _ Hmiss1) as (v & w1 & Hget & Hv).
    pose proof (getCachedResult_same store_faults ltac:(reflexivity) ltac:(reflexivity)
                  _ ltac:(reflexivity) _ _ _ Hget) as Fs.
    unfold same in Fs. rewrite Hplan in Fs.
    eexists. split.
    + unfold findWords, findWords_sorted.
      erewrite try_catch_rethrow_Throw; [reflexivity|].
      rewrite (bind_run _ _ _ _ _ Hget), Hv. cbv zeta.
      apply bind_throw. apply pRetry_call_exhausted, Fs.
    + simpl. apply in_or_app. right. left. reflexivity.
  - destruct (cache_miss_run _ _ Hmiss2) as (v & w1 & Hget & Hv).
    pose proof (getCachedResult_same store_faults ltac:(reflexivity) ltac:(reflexivity)
                  _ ltac:(reflexivity) _ _ _ Hget) as Fs.
    unfold same in Fs. rewrite Hplan in Fs.
    eexists. split.
    + unfold getMostCommonWordArticle.
      erewrite try_catch_rethrow_Throw; [reflexivity|].
      rewrite (bind_run _ _ _ _ _ Hget), Hv. cbv zeta.
      apply bind_throw. apply pRetry_call_exhausted, Fs.
    + simpl. apply in_or_app. right. left. reflexivity.
Qed.

Lemma store_failure_is_propagated_witness :
  store_faults unreachable_store_world = true :: true :: true :: true :: []
  /\ cache_miss (cacheKey_findWords (sort ["old"])) unreachable_store_world = true
  /\ cache_miss (cacheKey_mostCommon "old") unreachable_store_world = true
  /\ (exists w',
      findWords ["old"] unreachable_store_world = (Throw StoreError, sort ["old"], w')
      /\ In (Error, "Error in findWords") (logged w'))
  /\ (exists w',
         getMostCommonWordArticle "old" unreachable_store_world = (Throw StoreError, w')
         /\ In (Error, "Error in getMostCommonWordArticle") (logged w')).
Proof.
  split; [reflexivity|]. split; [vm_compute; reflexivity|].
  split; [vm_compute; reflexivity|].
  apply (store_failure_is_propagated ["old"] "old" unreachable_store_world []).
  - reflexivity.
  - vm_compute. reflexivity.
  - vm_compute. reflexivity.
Defined.

(** C7, as amended.  On a cache miss answered by the store: if the store
    has no row for the lowercased word, [getMostCommonWordArticle] returns
    null, leaves the cache as it was and issues no write; otherwise it
    returns the [{article_id, count}] of a row of the word whose count no
    other row of the word exceeds, and, when the cache accepts the write
    within the retries, that value is cached under the key of the word with
    an expiry of 600 seconds. *)
Theorem getMostCommonWordArticle_on_a_miss (word : string) (w : world) :
  cache_miss (cacheKey_mostCommon word) w = true ->
  rejections (store_faults w) <= retries ->
  exists w',
    (count_rows_of_word (toLowerCase word) (wordArticleCount w) = []
     /\ getMostCommonWordArticle word w = (Ok JNull, w')
     /\ redis w' = redis w
     /\ no_write w w')
    \/ (exists row,
           In row (count_rows_of_word (toLowerCase word) (wordArticleCount w))
           /\ (forall row',
                  In row' (count_rows_of_word (toLowerCase word) (wordArticleCount w)) ->
                  WordArticleCount.count row' <= WordArticleCount.count row)
           /\ getMostCommonWordArticle word w = (Ok (most_common_json row), w')
           /\ (rejections (set_faults w) <= retries ->
               redis w' !! ("most-common-word:" ++ toLowerCase word)%string
               = Some (Text (most_common_json row), 600))).
Proof.
  intros Hmiss Hplan.
  destruct (getMostCommonWordArticle_miss word w Hmiss Hplan)
    as (v & w1 & w' & _ & Hrun & _ & Hcache).
  exists w'.
  destruct (Prisma.greatest _) as [row|] eqn:Hrow.
  - right. exists row. destruct (greatest_spec _ _ Hrow) as [Hin Hmax].
    split; [exact Hin|]. split; [exact Hmax|]. split; [exact Hrun | exact Hcache].
  - left. destruct Hcache as [Hredis Hcalls].
    split; [apply greatest_none, Hrow|]. split; [exact Hrun|].
    split; [exact Hredis | exact Hcalls].
Qed.

Lemma getMostCommonWordArticle_on_a_miss_witness :
  cache_miss (cacheKey_mostCommon "nonexistent") indexed_world = true
  /\ rejections (store_faults indexed_world) <= retries
  /\ exists w',
    (count_rows_of_word (toLowerCase "nonexistent") (wordArticleCount indexed_world) = []
     /\ getMostCommonWordArticle "nonexistent" indexed_world = (Ok JNull, w')
     /\ redis w' = redis indexed_world
     /\ no_write indexed_world w')
    \/ (exists row,
           In row (count_rows_of_word (toLowerCase "nonexistent")
                                      (wordArticleCount indexed_world))
           /\ (forall row',
                  In row' (count_rows_of_word (toLowerCase "nonexistent")
                                              (wordArticleCount indexed_world)) ->
                  WordArticleCount.count row' <= WordArticleCount.count row)
           /\ getMostCommonWordArticle "nonexistent" indexed_world
              = (Ok (most_common_json row), w')
           /\ (rejections (set_faults indexed_world) <= retries ->
               redis w' !! ("most-common-word:" ++ toLowerCase "nonexistent")%string
               = Some (Text (most_common_json row), 600))).
Proof.
  split; [vm_compute; reflexivity|]. split; [vm_compute; lia|].
  apply (getMostCommonWordArticle_on_a_miss "nonexistent" indexed_world).
  - vm_compute. reflexivity.
  - vm_compute. lia.
Defined.

(** C7, as stated, fails when the cache still holds an entry: after article
    1 was indexed with [hello], asked about and indexed again with [bye],
    the store has no row for [hello], yet the call returns the entry cached
    before, not null. *)
Lemma getMostCommonWordArticle_returns_cached_entry :
  count_rows_of_word "hello" (wordArticleCount reindexed_world) = []
  /\ redis reindexed_world !! "most-common-word:hello"
     = Some (Text (JObj [("article_id", JStr "1"); ("count", JNum 1)]), 600)
  /\ fst (getMostCommonWordArticle "hello" reindexed_world)
     = Ok (JObj [("article_id", JStr "1"); ("count", JNum 1)]).
Proof. repeat split; vm_compute; reflexivity. Qed.

(** The two cases of C7, run: an absent word, and a word with two rows. *)
Example getMostCommonWordArticle_runs :
  fst (getMostCommonWordArticle "nonexistent" indexed_world) = Ok JNull
  /\ redis (snd (getMostCommonWordArticle "nonexistent" indexed_world)) = ∅
  /\ redis_calls (snd (getMostCommonWordArticle "nonexistent" indexed_world))
     = [Get "most-common-word:nonexistent"]
  /\ fst (getMostCommonWordArticle "OLD" indexed_world)
     = Ok (JObj [("article_id", JStr "1"); ("count", JNum 2)])
  /\ redis (snd (getMostCommonWordArticle "OLD" indexed_world)) !! "most-common-word:old"
     = Some (Text (JObj [("article_id", JStr "1"); ("count", JNum 2)]), 600).
Proof. repeat split; vm_compute; reflexivity. Qed.

(** What holds of C8: on a miss answered by the store, every queried word
    other than [__proto__] is a key of the result, an absent word with no
    hit, and the result is cached under the key of the query with an expiry
    of 600 seconds unless the cache rejects the write on all four runs. *)
Lemma findWords_miss_keys (words : list string) (w : world) :
  cache_miss (cacheKey_findWords (sort words)) w = true ->
  rejections (store_faults w) <= retries ->
  exists results w',
    findWords words w = (Ok (Fresh results), sort words, w')
    /\ (forall query,
           In query words -> toLowerCase query <> "__proto__" ->
           own_get (toLowerCase query) (own results)
           = Some (List.map hit_of
                            (index_rows_of_word (toLowerCase query) (wordIndex w))))
    /\ (rejections (set_faults w) <= retries ->
        redis w' !! cacheKey_findWords (sort words)
        = Some (Text (results_json results), 600)).
Proof.
  intros Hmiss Hplan.
  destruct (findWords_sorted_miss (sort words) w Hmiss Hplan)
    as (v & w1 & w' & _ & Hrun & _ & Hcache).
  eexists _, w'. split; [|split].
  - unfold findWords. rewrite Hrun. reflexivity.
  - intros query Hin Hne. apply format_results_lookup; [|exact Hne].
    apply in_map. eapply Permutation_in; [apply sort_permutation | exact Hin].
  - exact Hcache.
Qed.

(** C8 fails in the code for the query word [__proto__]: the assignment
    [results[word] = ...] replaces the prototype of [results] and creates
    no property, so the word is missing from the keys of the object
    returned and from the text written to the cache; beside another word,
    that word alone is a key. *)
Theorem findWords_proto_word_is_no_key :
  fst (fst (findWords ["__proto__"] empty_world))
  = Ok (Fresh {| own := []; proto := Some [] |})
  /\ redis (snd (findWords ["__proto__"] empty_world)) !! "find-words:__proto__"
     = Some (Text (JObj []), 600)
  /\ fst (fst (findWords ["hello"; "__PROTO__"] empty_world))
     = Ok (Fresh {| own := [("hello", [])]; proto := Some [] |})
  /\ redis (snd (findWords ["hello"; "__PROTO__"] empty_world))
       !! "find-words:__PROTO__,hello"
     = Some (Text (JObj [("hello", JArr [])]), 600).
Proof. repeat split; vm_compute; reflexivity. Qed.

(** ** The unit tests of the repository, replayed on the model *)

(** "should query database and cache results if not cached", "should
    handle multiple words correctly" and "should handle case-insensitive
    search". *)
Example test_findWords_not_cached :
  fst (fst (findWords ["hello"] tested_world))
  = Ok (Fresh {| own := [("hello", [ {| article_id := "1"; offsets := [0; 12] |} ])];
                 proto := None |})
  /\ redis_calls (snd (findWords ["hello"] tested_world))
     = [ Get "find-words:hello";
         SetEx "find-words:hello"
               (Text (JObj [("hello",
                             JArr [JObj [("article_id", JStr "1");
                                         ("offsets", JArr [JNum 0; JNum 12])]])]))
               600 ]
  /\ fst (fst (findWords ["hello"; "world"] tested_world))
     = Ok (Fresh {| own := [("hello", [ {| article_id := "1"; offsets := [0; 12] |} ]);
                            ("world", [ {| article_id := "1"; offsets := [6] |} ])];
                    proto := None |})
  /\ fst (fst (findWords ["HELLO"] tested_world))
     = Ok (Fresh {| own := [("hello", [ {| article_id := "1"; offsets := [0; 12] |} ])];
                    proto := None |}).
Proof. repeat split; vm_compute; reflexivity. Qed.

(** "should return cached results if available": the second call is served
    from the entry the first one wrote, and the database is not asked. *)
Example test_findWords_cached :
  fst (fst (findWords ["hello"]
              (with_tables [] [] (snd (findWords ["hello"] tested_world)))))
  = Ok (Cached (JObj [("hello",
                       JArr [JObj [("article_id", JStr "1");
                                   ("offsets", JArr [JNum 0; JNum 12])]])])).
Proof. vm_compute. reflexivity. Qed.

(** "should return the article with most occurrences of the word" and
    "should handle database errors gracefully". *)
Example test_getMostCommonWordArticle :
  fst (getMostCommonWordArticle "hello" tested_world)
  = Ok (JObj [("article_id", JStr "1"); ("count", JNum 5)])
  /\ redis_calls (snd (getMostCommonWordArticle "hello" tested_world))
     = [ Get "most-common-word:hello";
         SetEx "most-common-word:hello"
               (Text (JObj [("article_id", JStr "1"); ("count", JNum 5)])) 600 ]
  /\ fst (getMostCommonWordArticle "hello" unreachable_store_world)
     = Throw StoreError
  /\ logged (snd (getMostCommonWordArticle "hello" unreachable_store_world))
     = [(Error, "Error in getMostCommonWordArticle")].
Proof. repeat split; vm_compute; reflexivity. Qed.

(** "should process and index words correctly": three rows in each table
    and the four deletions. *)
Example test_processArticle :
  fst (processArticle "1" "Hello world! Hello again." empty_world) = Ok tt
  /\ List.map WordIndex.word
              (wordIndex (snd (processArticle "1" "Hello world! Hello again."
                                              empty_world)))
     = ["hello"; "world"; "again"]
  /\ List.map WordArticleCount.count
              (wordArticleCount (snd (processArticle "1" "Hello world! Hello again."
                                                     empty_world)))
     = [2; 1; 1]
  /\ redis_calls (snd (processArticle "1" "Hello world! Hello again." empty_world))
     = [ Del "top-words:*"; Del "most-common-word:hello";
         Del "most-common-word:world"; Del "most-common-word:again" ].
Proof. repeat split; vm_compute; reflexivity. Qed.

(** * Further properties of the service *)

(** ** [processArticle]: failure, repetition, other articles *)

Lemma try_catch_rethrow_inv {A} (body : M A) l message w e w' :
  try_catch body (fun error => log l message ;; throw error) w = (Throw e, w') ->
  exists w1, body w = (Throw e, w1) /\ w' = with_log (l, message) w1.
Proof.
  unfold try_catch. destruct (body w) as [[a|e1] w1]; intros H.
  - discriminate.
  - inversion H; subst. exists w1. split; reflexivity.
Qed.

Lemma pRetry_transaction_Throw {A} (callback : M A) n : forall w e w',
  pRetry (Prisma.transaction callback) n w = (Throw e, w') ->
  wordIndex w' = wordIndex w /\ wordArticleCount w' = wordArticleCount w.
Proof.
  induction n as [|n IH]; intros w e w' H; simpl in H;
    unfold Prisma.transaction at 1 in H;
    destruct (callback w) as [[a0|e0] w1] eqn:E.
  - discriminate.
  - inversion H; subst. split; reflexivity.
  - discriminate.
  - apply IH in H as [E1 E2]. simpl in E1, E2. split; assumption.
Qed.

Lemma replace_rows_same {T} (f : world -> T) articleId wordPositions n :
  (forall p w, f (with_store_faults p w) = f w) ->
  (forall wi wc w, f (with_tables wi wc w) = f w) ->
  preserves (same f)
            (pRetry (Prisma.transaction (replace_rows articleId wordPositions)) n).
Proof.
  intros Hp Ht. by_frame @preserves_pRetry. apply same_transaction; [exact Ht|].
  unfold replace_rows, Prisma.wordIndex_deleteMany, Prisma.wordArticleCount_deleteMany,
    Prisma.wordIndex_create, Prisma.wordArticleCount_create.
  frame; (apply same_prisma_call; [exact Hp | intros; simpl; apply Ht]).
Qed.

(** What a failed [processArticle] leaves: the state in which it started,
    with the store's fault plan used up and the error logged. *)
Lemma processArticle_Throw_inv articleId content w e w' :
  processArticle articleId content w = (Throw e, w') ->
  exists w1,
    w' = with_log (Error, "Error in processArticle") w1
    /\ wordIndex w1 = wordIndex w
    /\ wordArticleCount w1 = wordArticleCount w
    /\ redis w1 = redis w
    /\ redis_calls w1 = redis_calls w
    /\ logged w1 = logged w
    /\ del_faults w1 = del_faults w.
Proof.
  unfold processArticle. intros H.
  apply try_catch_rethrow_inv in H as (w1 & Hbody & ->). exists w1.
  split; [reflexivity|].
  destruct (word_positions content) as [wordPositions|e0].
  - unfold mbind, M_bind in Hbody.
    destruct (pRetry _ retries w) as [[[]|e1] w2] eqn:Htx.
    + destruct (allSettled_total
                  (Redis.del "top-words:*"
                   :: List.map (fun word => Redis.del ("most-common-word:" ++ word))
                               (keys wordPositions)) w2) as [w3 Hinv].
      unfold invalidate in Hbody. rewrite Hinv in Hbody. discriminate.
    + inversion Hbody; subst.
      destruct (pRetry_transaction_Throw _ _ _ _ _ Htx) as [E1 E2].
      pose proof (replace_rows_same redis _ _ _ ltac:(reflexivity) ltac:(reflexivity)
                    _ _ _ Htx) as F1.
      pose proof (replace_rows_same redis_calls _ _ _ ltac:(reflexivity)
                    ltac:(reflexivity) _ _ _ Htx) as F2.
      pose proof (replace_rows_same logged _ _ _ ltac:(reflexivity) ltac:(reflexivity)
                    _ _ _ Htx) as F3.
      pose proof (replace_rows_same del_faults _ _ _ ltac:(reflexivity)
                    ltac:(reflexivity) _ _ _ Htx) as F4.
      unfold same in F1, F2, F3, F4. repeat split; assumption.
  - inversion Hbody; subst. repeat split; reflexivity.
Qed.

(** X1.  A [processArticle] that throws has changed nothing: both tables
    and the cache are as before the call, no cache command was issued, and
    the one thing added to the log is the error. *)
Theorem processArticle_failure_changes_nothing
        (articleId content : string) (w w' : world) (e : error) :
  processArticle articleId content w = (Throw e, w') ->
  wordIndex w' = wordIndex w
  /\ wordArticleCount w' = wordArticleCount w
  /\ redis w' = redis w
  /\ redis_calls w' = redis_calls w
  /\ logged w' = logged w ++ [(Error, "Error in processArticle")].
Proof.
  intros H.
  apply processArticle_Throw_inv in H as (w1 & -> & E1 & E2 & E3 & E4 & E5 & _).
  simpl. rewrite E5. repeat split; assumption.
Qed.

Lemma processArticle_failure_changes_nothing_witness :
  processArticle "1" "new words" unreachable_store_world
  = (Throw StoreError, snd (processArticle "1" "new words" unreachable_store_world))
  /\ wordIndex (snd (processArticle "1" "new words" unreachable_store_world))
     = wordIndex unreachable_store_world
  /\ wordArticleCount (snd (processArticle "1" "new words" unreachable_store_world))
     = wordArticleCount unreachable_store_world
  /\ redis (snd (processArticle "1" "new words" unreachable_store_world))
     = redis unreachable_store_world
  /\ redis_calls (snd (processArticle "1" "new words" unreachable_store_world))
     = redis_calls unreachable_store_world
  /\ logged (snd (processArticle "1" "new words" unreachable_store_world))
     = logged unreachable_store_world ++ [(Error, "Error in processArticle")].
Proof.
  split; [vm_compute; reflexivity|].
  apply (processArticle_failure_changes_nothing
           "1" "new words" unreachable_store_world
           (snd (processArticle "1" "new words" unreachable_store_world)) StoreError).
  vm_compute. reflexivity.
Defined.

Lemma filter_idempotent {A} (p : A -> bool) l :
  List.filter p (List.filter p l) = List.filter p l.
Proof. apply filter_filter_implied. trivial. Qed.

Lemma filter_none {A} (p : A -> bool) l :
  (forall x, In x l -> p x = false) -> List.filter p l = [].
Proof.
  induction l as [|x l IH]; intros H; simpl; [reflexivity|].
  rewrite (H x (or_introl eq_refl)). apply IH. intros y Hy. apply H. right. exact Hy.
Qed.

Lemma others_of_replaced_index articleId rows (entries : list (string * list nat)) :
  index_rows_of_others articleId
    (index_rows_of_others articleId rows ++ List.map (index_row articleId) entries)
  = index_rows_of_others articleId rows.
Proof.
  unfold index_rows_of_others. rewrite List.filter_app, filter_idempotent.
  rewrite (filter_none _ (List.map (index_row articleId) entries));
    [rewrite app_nil_r; reflexivity|].
  intros index Hin. apply in_map_iff in Hin as (entry & <- & _). simpl.
  rewrite String.eqb_refl. reflexivity.
Qed.

Lemma others_of_replaced_count articleId rows (entries : list (string * list nat)) :
  count_rows_of_others articleId
    (count_rows_of_others articleId rows ++ List.map (count_row articleId) entries)
  = count_rows_of_others articleId rows.
Proof.
  unfold count_rows_of_others. rewrite List.filter_app, filter_idempotent.
  rewrite (filter_none _ (List.map (count_row articleId) entries));
    [rewrite app_nil_r; reflexivity|].
  intros row Hin. apply in_map_iff in Hin as (entry & <- & _). simpl.
  rewrite String.eqb_refl. reflexivity.
Qed.

(** X2.  Indexing is a replacement, not an addition: a second successful
    [processArticle] of the same article with the same content leaves both
    tables exactly as the first one left them. *)
Theorem processArticle_twice (articleId content : string) (w w1 w2 : world) :
  processArticle articleId content w = (Ok tt, w1) ->
  processArticle articleId content w1 = (Ok tt, w2) ->
  wordIndex w2 = wordIndex w1 /\ wordArticleCount w2 = wordArticleCount w1.
Proof.
  intros H1 H2.
  apply processArticle_tables in H1 as (wp1 & Hwp1 & Ei1 & Ec1).
  apply processArticle_tables in H2 as (wp2 & Hwp2 & Ei2 & Ec2).
  rewrite Hwp1 in Hwp2. inversion Hwp2; subst wp2.
  rewrite Ei2, Ec2, Ei1, Ec1, others_of_replaced_index, others_of_replaced_count.
  split; reflexivity.
Qed.

Lemma processArticle_twice_witness :
  processArticle "1" "Hello world! Hello again." indexed_world
  = (Ok tt, snd (processArticle "1" "Hello world! Hello again." indexed_world))
  /\ processArticle "1" "Hello world! Hello again."
       (snd (processArticle "1" "Hello world! Hello again." indexed_world))
     = (Ok tt,
        snd (processArticle "1" "Hello world! Hello again."
               (snd (processArticle "1" "Hello world! Hello again." indexed_world))))
  /\ wordIndex
       (snd (processArticle "1" "Hello world! Hello again."
               (snd (processArticle "1" "Hello world! Hello again." indexed_world))))
     = wordIndex (snd (processArticle "1" "Hello world! Hello again." indexed_world))
  /\ wordArticleCount
       (snd (processArticle "1" "Hello world! Hello again."
               (snd (processArticle "1" "Hello world! Hello again." indexed_world))))
     = wordArticleCount
         (snd (processArticle "1" "Hello world! Hello again." indexed_world)).
Proof.
  split; [vm_compute; reflexivity|]. split; [vm_compute; reflexivity|].
  apply (processArticle_twice
           "1" "Hello world! Hello again." indexed_world
           (snd (processArticle "1" "Hello world! Hello again." indexed_world))
           (snd (processArticle "1" "Hello world! Hello again."
                   (snd (processArticle "1" "Hello world! Hello again."
                                        indexed_world))))).
  - vm_compute. reflexivity.
  - vm_compute. reflexivity.
Defined.

Lemma rows_of_other_article_index articleId other rows (entries : list (string * list nat)) :
  other <> articleId ->
  index_rows_of_article other
    (index_rows_of_others articleId rows ++ List.map (index_row articleId) entries)
  = index_rows_of_article other rows.
Proof.
  intros Hne. unfold index_rows_of_article, index_rows_of_others.
  rewrite List.filter_app, filter_filter_implied.
  - rewrite (filter_none _ (List.map (index_row articleId) entries));
      [rewrite app_nil_r; reflexivity|].
    intros index Hin. apply in_map_iff in Hin as (entry & <- & _). simpl.
    apply String.eqb_neq. congruence.
  - intros index Hx. apply String.eqb_eq in Hx. apply negb_true_iff.
    apply String.eqb_neq. congruence.
Qed.

Lemma rows_of_other_article_count articleId other rows (entries : list (string * list nat)) :
  other <> articleId ->
  count_rows_of_article other
    (count_rows_of_others articleId rows ++ List.map (count_row articleId) entries)
  = count_rows_of_article other rows.
Proof.
  intros Hne. unfold count_rows_of_article, count_rows_of_others.
  rewrite List.filter_app, filter_filter_implied.
  - rewrite (filter_none _ (List.map (count_row articleId) entries));
      [rewrite app_nil_r; reflexivity|].
    intros row Hin. apply in_map_iff in Hin as (entry & <- & _). simpl.
    apply String.eqb_neq. congruence.
  - intros row Hx. apply String.eqb_eq in Hx. apply negb_true_iff.
    apply String.eqb_neq. congruence.
Qed.

(** X3.  Whatever its outcome, [processArticle] leaves the rows of every
    other article as they were, the same rows in the same order. *)
Theorem processArticle_other_articles
        (articleId content other : string) (w : world) :
  other <> articleId ->
  index_rows_of_article other (wordIndex (snd (processArticle articleId content w)))
  = index_rows_of_article other (wordIndex w)
  /\ count_rows_of_article other
       (wordArticleCount (snd (processArticle articleId content w)))
     = count_rows_of_article other (wordArticleCount w).
Proof.
  intros Hne. destruct (processArticle articleId content w) as [[[]|e] w'] eqn:E; simpl.
  - apply processArticle_tables in E as (wp & _ & Ei & Ec). rewrite Ei, Ec.
    split; [apply rows_of_other_article_index | apply rows_of_other_article_count];
      exact Hne.
  - apply processArticle_Throw_inv in E as (w1 & -> & E1 & E2 & _). simpl.
    rewrite E1, E2. split; reflexivity.
Qed.

Lemma processArticle_other_articles_witness :
  "2" <> "1"
  /\ index_rows_of_article "2"
       (wordIndex (snd (processArticle "1" "Hello world!" indexed_world)))
     = index_rows_of_article "2" (wordIndex indexed_world)
  /\ count_rows_of_article "2"
       (wordArticleCount (snd (processArticle "1" "Hello world!" indexed_world)))
     = count_rows_of_article "2" (wordArticleCount indexed_world).
Proof.
  split; [discriminate|].
  apply (processArticle_other_articles "1" "Hello world!" "2" indexed_world).
  discriminate.
Defined.

(** ** [processArticle]: what it does to the cache *)

#[global] Instance kept_or_gone_preorder key : PreOrder (kept_or_gone key).
Proof.
  split.
  - intros w. left. reflexivity.
  - intros w1 w2 w3 H12 [H23|H23]; [|right; exact H23].
    destruct H12 as [H12|H12]; [left | right]; congruence.
Qed.

Lemma same_kept_or_gone {A} key (m : M A) :
  preserves (same redis) m -> preserves (kept_or_gone key) m.
Proof. intros H w r w' E. left. rewrite (H _ _ _ E). reflexivity. Qed.

Lemma kept_or_gone_del key k : preserves (kept_or_gone key) (Redis.del k).
Proof.
  intros w r w' H. unfold Redis.del in H.
  destruct (next_fault _) as [[] plan]; inversion H; subst; simpl.
  - left. reflexivity.
  - destruct (string_dec k key) as [->|Hne].
    + right. apply lookup_delete_eq.
    + left. apply lookup_delete_ne, Hne.
Qed.

Lemma invalidate_calls wordPositions :
  invalidate wordPositions = allSettled (List.map Redis.del (invalidated_keys wordPositions)).
Proof. unfold invalidate, invalidated_keys. simpl. rewrite List.map_map. reflexivity. Qed.

Lemma invalidate_kept_or_gone key wordPositions :
  preserves (kept_or_gone key) (invalidate wordPositions).
Proof.
  rewrite invalidate_calls. by_frame @preserves_allSettled.
  apply List.Forall_forall. intros c Hin.
  apply in_map_iff in Hin as (k & <- & _). apply kept_or_gone_del.
Qed.

Lemma invalidate_keeps_others key wordPositions :
  ~ In key (invalidated_keys wordPositions) ->
  preserves (same (fun w => redis w !! key)) (invalidate wordPositions).
Proof.
  intros Hout. rewrite invalidate_calls. by_frame @preserves_allSettled.
  apply List.Forall_forall. intros c Hin.
  apply in_map_iff in Hin as (k & <- & Hk). apply lookup_kept_del.
  intros ->. exact (Hout Hk).
Qed.

(** X5.  After a successful [processArticle] during which the cache
    rejects no deletion, the cache holds no entry
    [most-common-word:<word>] for any word of the article. *)
Theorem processArticle_drops_entries_of_its_words
        (articleId content word : string) (wordPositions : props (list nat))
        (w w' : world) :
  processArticle articleId content w = (Ok tt, w') ->
  rejections (del_faults w) = 0 ->
  word_positions content = Ok wordPositions ->
  In word (keys wordPositions) ->
  redis w' !! ("most-common-word:" ++ word)%string = None.
Proof.
  intros H Hplan Hwp Hin.
  exact (processArticle_deletes_most_common_word _ _ _ _ _ _ H Hplan Hwp Hin).
Qed.

Lemma processArticle_drops_entries_of_its_words_witness :
  redis cached_world !! "most-common-word:hello"
  = Some (Text (JObj [("article_id", JStr "7"); ("count", JNum 3)]), 600)
  /\ redis (snd (processArticle "1" "Hello, hello!" cached_world))
       !! "most-common-word:hello" = None.
Proof.
  split; [vm_compute; reflexivity|].
  apply (processArticle_drops_entries_of_its_words
           "1" "Hello, hello!" "hello" [("hello", [0; 7])] cached_world
           (snd (processArticle "1" "Hello, hello!" cached_world))).
  - vm_compute. reflexivity.
  - vm_compute. reflexivity.
  - vm_compute. reflexivity.
  - vm_compute. left. reflexivity.
Defined.

(** X6.  [processArticle] never writes to the cache and deletes nothing
    but the keys it names: whatever the state, the content and the
    outcome, an entry holds afterwards what it held before, unless it is
    gone and its key is [top-words:*] or [most-common-word:<word>] for a
    word of the new content.  The entry of a word that the article held
    before and holds no more is therefore kept. *)
Theorem processArticle_cache_footprint
        (articleId content key : string) (w : world) :
  redis (snd (processArticle articleId content w)) !! key = redis w !! key
  \/ (redis (snd (processArticle articleId content w)) !! key = None
      /\ exists wordPositions,
           word_positions content = Ok wordPositions
           /\ In key (invalidated_keys wordPositions)).
Proof.
  destruct (processArticle articleId content w) as [r w'] eqn:E. simpl.
  unfold processArticle in E.
  destruct (word_positions content) as [wordPositions|e] eqn:Hwp.
  - destruct (in_dec string_dec key (invalidated_keys wordPositions)) as [Hin|Hout].
    + assert (preserves (kept_or_gone key)
                (try_catch
                   (pRetry (Prisma.transaction (replace_rows articleId wordPositions))
                           retries ;;
                    invalidate wordPositions)
                   (fun error => log Error "Error in processArticle" ;; throw error)))
        as F.
      { by_frame @preserves_try_catch.
        - by_frame @preserves_bind.
          + apply same_kept_or_gone.
            apply replace_rows_same; intros; reflexivity.
          + intros _. apply invalidate_kept_or_gone.
        - intros e. apply same_kept_or_gone. frame. }
      destruct (F _ _ _ E) as [Hkept|Hgone]; [left; exact Hkept|].
      right. split; [exact Hgone|]. exists wordPositions. split; [reflexivity | exact Hin].
    + left.
      assert (preserves (same (fun w => redis w !! key))
                (try_catch
                   (pRetry (Prisma.transaction (replace_rows articleId wordPositions))
                           retries ;;
                    invalidate wordPositions)
                   (fun error => log Error "Error in processArticle" ;; throw error)))
        as F.
      { by_frame @preserves_try_catch.
        - by_frame @preserves_bind.
          + apply replace_rows_same; intros; reflexivity.
          + intros _. apply invalidate_keeps_others, Hout.
        - intros e. frame. }
      apply (F _ _ _ E).
  - left.
    assert (preserves (same (fun w => redis w !! key))
              (try_catch (@throw unit e)
                 (fun error => log Error "Error in processArticle" ;; throw error)))
      as F by frame.
    apply (F _ _ _ E).
Qed.

Lemma allSettled_del_rejected ks : forall w w' rest,
  allSettled (List.map Redis.del ks) w = (Ok tt, w') ->
  del_faults w = repeat true (List.length ks) ++ rest ->
  redis w' = redis w /\ del_faults w' = rest.
Proof.
  induction ks as [|k ks IH]; intros w w' rest H Hplan; simpl in *.
  - inversion H. split; congruence.
  - unfold mbind at 1, M_bind at 1, try_catch in H.
    unfold mbind, M_bind, Redis.del in H. simpl in H. rewrite Hplan in H. simpl in H.
    destruct (IH _ _ rest H) as [Hr Hd]; [reflexivity|].
    split; [exact Hr | exact Hd].
Qed.

(** X7.  Rejected deletions are ignored: when the cache rejects every
    deletion of the invalidation, [processArticle] still succeeds and logs
    nothing, and the cache is left as it was, stale entries included. *)
Theorem processArticle_ignores_rejected_deletions
        (articleId content : string) (wordPositions : props (list nat))
        (w : world) (rest : list bool) :
  word_positions content = Ok wordPositions ->
  rejections (store_faults w) <= retries ->
  del_faults w = repeat true (S (List.length (keys wordPositions))) ++ rest ->
  exists w', processArticle articleId content w = (Ok tt, w')
             /\ redis w' = redis w
             /\ logged w' = logged w
             /\ del_faults w' = rest.
Proof.
  intros Hwp Hstore Hdel.
  destruct (processArticle_succeeds articleId content wordPositions w Hwp Hstore)
    as (w' & Hrun & Hlog).
  exists w'. split; [exact Hrun|].
  unfold processArticle in Hrun. apply try_catch_rethrow_Ok in Hrun.
  rewrite Hwp in Hrun. apply bind_Ok in Hrun as ([] & w1 & Htx & Hinv).
  pose proof (replace_rows_same redis _ _ _ ltac:(reflexivity) ltac:(reflexivity)
                _ _ _ Htx) as F1.
  pose proof (replace_rows_same del_faults _ _ _ ltac:(reflexivity) ltac:(reflexivity)
                _ _ _ Htx) as F2.
  unfold same in F1, F2.
  rewrite invalidate_calls in Hinv.
  destruct (allSettled_del_rejected _ _ _ rest Hinv) as [Hr Hd].
  { rewrite F2, Hdel. unfold invalidated_keys. simpl. rewrite List.length_map.
    reflexivity. }
  split; [congruence|]. split; [exact Hlog | exact Hd].
Qed.

Lemma processArticle_ignores_rejected_deletions_witness :
  exists w', processArticle "1" "hello" undeletable_world = (Ok tt, w')
             /\ redis w' = redis undeletable_world
             /\ logged w' = logged undeletable_world
             /\ del_faults w' = [].
Proof.
  apply (processArticle_ignores_rejected_deletions
           "1" "hello" [("hello", [0])] undeletable_world []).
  - vm_compute. reflexivity.
  - vm_compute. lia.
  - vm_compute. reflexivity.
Defined.

(** ** The read paths: hits, unreadable entries, rejected writes *)

Lemma getCachedResult_attempt key :
  getCachedResult key
  = try_catch (pRetry (read_attempt key) retries)
      (fun _ => log Warn "Failed to get cached result after retries" ;; mret JNull).
Proof. reflexivity. Qed.

Lemma get_run key w :
  Redis.get key w
  = match get_faults w with
    | true :: plan => (Throw RedisError, with_get_faults plan (with_call (Get key) w))
    | plan =>
        (Ok (fst <$> redis w !! key),
         with_get_faults (List.tl plan) (with_call (Get key) w))
    end.
Proof. unfold Redis.get. simpl. destruct (get_faults w) as [|[] plan]; reflexivity. Qed.

Lemma read_attempt_same {T} (f : world -> T) key n :
  (forall c w, f (with_call c w) = f w) ->
  (forall p w, f (with_get_faults p w) = f w) ->
  preserves (same f) (pRetry (read_attempt key) n).
Proof. intros Hc Hp. unfold read_attempt. frame. Qed.

(** A read of an entry that parses gets its value when the cache rejects
    no more reads than there are retries. *)
Lemma pRetry_read_hit key v seconds n : forall w,
  redis w !! key = Some (Text v, seconds) ->
  rejections (get_faults w) <= n ->
  exists w', pRetry (read_attempt key) n w = (Ok v, w').
Proof.
  unfold rejections.
  induction n as [|n IH]; intros w Hentry Hn;
    [rewrite pRetry_0 | rewrite pRetry_S];
    unfold read_attempt at 1, mbind, M_bind; rewrite get_run;
    destruct (get_faults w) as [|[] plan] eqn:E; simpl in Hn; rewrite ?Hentry; simpl;
    try (eexists; reflexivity).
  - destruct (bool_dec true true); [lia | congruence].
  - destruct (bool_dec true true); [|congruence].
    apply IH; simpl; [exact Hentry | lia].
Qed.

Lemma getCachedResult_hit key v seconds w :
  redis w !! key = Some (Text v, seconds) ->
  rejections (get_faults w) <= retries ->
  exists w', getCachedResult key w = (Ok v, w')
             /\ redis w' = redis w
             /\ logged w' = logged w
             /\ wordIndex w' = wordIndex w
             /\ wordArticleCount w' = wordArticleCount w
             /\ store_faults w' = store_faults w
             /\ set_faults w' = set_faults w
             /\ no_write w w'.
Proof.
  intros Hentry Hplan.
  destruct (pRetry_read_hit key v seconds retries w Hentry Hplan) as [w' Hrun].
  exists w'.
  assert (getCachedResult key w = (Ok v, w')) as Hget.
  { rewrite getCachedResult_attempt. apply try_catch_Ok, Hrun. }
  split; [exact Hget|].
  split; [exact (read_attempt_same redis key retries ltac:(reflexivity)
                   ltac:(reflexivity) _ _ _ Hrun)|].
  split; [exact (read_attempt_same logged key retries ltac:(reflexivity)
                   ltac:(reflexivity) _ _ _ Hrun)|].
  split; [exact (read_attempt_same wordIndex key retries ltac:(reflexivity)
                   ltac:(reflexivity) _ _ _ Hrun)|].
  split; [exact (read_attempt_same wordArticleCount key retries ltac:(reflexivity)
                   ltac:(reflexivity) _ _ _ Hrun)|].
  split; [exact (read_attempt_same store_faults key retries ltac:(reflexivity)
                   ltac:(reflexivity) _ _ _ Hrun)|].
  split; [exact (read_attempt_same set_faults key retries ltac:(reflexivity)
                   ltac:(reflexivity) _ _ _ Hrun)|].
  apply (getCachedResult_no_write _ _ _ _ Hget).
Qed.

Lemma findWords_hit_run words v seconds w :
  redis w !! cacheKey_findWords (sort words) = Some (Text v, seconds) ->
  json_truthy v = true ->
  rejections (get_faults w) <= retries ->
  exists w', findWords words w = (Ok (Cached v), sort words, w').
Proof.
  intros Hentry Hv Hplan.
  destruct (getCachedResult_hit _ _ _ _ Hentry Hplan) as (w' & Hget & _).
  exists w'. unfold findWords.
  assert (findWords_sorted (sort words) w = (Ok (Cached v), w')) as ->; [|reflexivity].
  unfold findWords_sorted. apply try_catch_Ok.
  rewrite (bind_run _ _ _ _ _ Hget), Hv. reflexivity.
Qed.

(** The read of an entry that parses, when the cache rejects no read: one
    command, and its value. *)
Lemma getCachedResult_hit_at_once key v seconds w :
  redis w !! key = Some (Text v, seconds) ->
  rejections (get_faults w) = 0 ->
  getCachedResult key w
  = (Ok v, with_get_faults (List.tl (get_faults w)) (with_call (Get key) w)).
Proof.
  intros Hentry Hplan. rewrite getCachedResult_attempt. apply try_catch_Ok.
  unfold retries. rewrite pRetry_S.
  unfold read_attempt, mbind, M_bind. rewrite get_run.
  destruct (get_faults w) as [|[] plan]; simpl; rewrite ?Hentry; try reflexivity.
  rewrite rejections_cons in Hplan. simpl in Hplan. lia.
Qed.

(** X8.  On a hit [findWords] returns what the entry holds, whatever that
    is: when the cache holds a truthy value under the key and does not
    reject the read, the call issues that one read and returns the value;
    the store is not asked (its tables and its fault plan play no part),
    nothing is written to the cache and nothing is logged. *)
Theorem findWords_on_a_hit
        (words : list string) (v : json) (seconds : nat) (w : world) :
  redis w !! cacheKey_findWords (sort words) = Some (Text v, seconds) ->
  json_truthy v = true ->
  rejections (get_faults w) = 0 ->
  exists w', findWords words w = (Ok (Cached v), sort words, w')
             /\ redis w' = redis w
             /\ logged w' = logged w
             /\ store_faults w' = store_faults w
             /\ redis_calls w' = redis_calls w ++ [Get (cacheKey_findWords (sort words))].
Proof.
  intros Hentry Hv Hplan.
  pose proof (getCachedResult_hit_at_once _ _ _ _ Hentry Hplan) as Hget.
  exists (with_get_faults (List.tl (get_faults w))
            (with_call (Get (cacheKey_findWords (sort words))) w)).
  split; [|repeat split; reflexivity].
  unfold findWords.
  match goal with
  | |- context [findWords_sorted ?ws w] =>
      assert (findWords_sorted ws w
              = (Ok (Cached v),
                 with_get_faults (List.tl (get_faults w))
                   (with_call (Get (cacheKey_findWords ws)) w))) as ->
  end; [|reflexivity].
  unfold findWords_sorted. apply try_catch_Ok.
  rewrite (bind_run _ _ _ _ _ Hget), Hv. reflexivity.
Qed.

Lemma findWords_on_a_hit_witness :
  exists w', findWords ["b"; "a"] hit_world = (Ok (Cached (JStr "anything")), sort ["b"; "a"], w')
             /\ redis w' = redis hit_world
             /\ logged w' = logged hit_world
             /\ store_faults w' = store_faults hit_world
             /\ redis_calls w'
                = redis_calls hit_world ++ [Get (cacheKey_findWords (sort ["b"; "a"]))].
Proof.
  apply (findWords_on_a_hit ["b"; "a"] (JStr "anything") 600 hit_world).
  - vm_compute. reflexivity.
  - vm_compute. reflexivity.
  - vm_compute. reflexivity.
Defined.

(** X9.  On a hit [getMostCommonWordArticle] returns what the entry holds
    without asking the store: when the cache holds a truthy value under
    the key and does not reject the read, the call issues that one read
    and answers with the value, even when the tables have changed since it
    was written or the store rejects every call; nothing is written or
    logged. *)
Theorem getMostCommonWordArticle_on_a_hit
        (word : string) (v : json) (seconds : nat) (w : world) :
  redis w !! cacheKey_mostCommon word = Some (Text v, seconds) ->
  json_truthy v = true ->
  rejections (get_faults w) = 0 ->
  exists w', getMostCommonWordArticle word w = (Ok v, w')
             /\ redis w' = redis w
             /\ logged w' = logged w
             /\ store_faults w' = store_faults w
             /\ redis_calls w' = redis_calls w ++ [Get (cacheKey_mostCommon word)].
Proof.
  intros Hentry Hv Hplan.
  pose proof (getCachedResult_hit_at_once _ _ _ _ Hentry Hplan) as Hget.
  exists (with_get_faults (List.tl (get_faults w))
            (with_call (Get (cacheKey_mostCommon word)) w)).
  split; [|repeat split; reflexivity].
  unfold getMostCommonWordArticle. apply try_catch_Ok.
  rewrite (bind_run _ _ _ _ _ Hget), Hv. reflexivity.
Qed.

Lemma getMostCommonWordArticle_on_a_hit_witness :
  exists w', getMostCommonWordArticle "Old" hit_world = (Ok (JNum 42), w')
             /\ redis w' = redis hit_world
             /\ logged w' = logged hit_world
             /\ store_faults w' = store_faults hit_world
             /\ redis_calls w' = redis_calls hit_world ++ [Get (cacheKey_mostCommon "Old")].
Proof.
  apply (getMostCommonWordArticle_on_a_hit "Old" (JNum 42) 600 hit_world).
  - vm_compute. reflexivity.
  - vm_compute. reflexivity.
  - vm_compute. reflexivity.
Defined.

(** The steps of [findWords] on a miss, when the store rejects no more
    calls than there are retries. *)
Lemma findWords_sorted_miss_steps words w :
  cache_miss (cacheKey_findWords words) w = true ->
  rejections (store_faults w) <= retries ->
  exists v w1 w2 w',
    getCachedResult (cacheKey_findWords words) w = (Ok v, w1)
    /\ pRetry (Prisma.wordIndex_findMany (List.map toLowerCase words)) retries w1
       = (Ok (matching_rows (List.map toLowerCase words) (wordIndex w)), w2)
    /\ setCachedResult (cacheKey_findWords words)
         (results_json (fresh_results words (wordIndex w))) w2
       = (Ok tt, w')
    /\ findWords_sorted words w = (Ok (Fresh (fresh_results words (wordIndex w))), w').
Proof.
  intros Hmiss Hplan.
  destruct (cache_miss_run _ _ Hmiss) as (v & w1 & Hget & Hv).
  pose proof (getCachedResult_same store_faults ltac:(reflexivity) ltac:(reflexivity)
                _ ltac:(reflexivity) _ _ _ Hget) as Fs.
  pose proof (getCachedResult_same wordIndex ltac:(reflexivity) ltac:(reflexivity)
                _ ltac:(reflexivity) _ _ _ Hget) as Fi.
  unfold same in Fs, Fi.
  destruct (pRetry_query
              (fun w => matching_rows (List.map toLowerCase words) (wordIndex w))
              retries w1 ltac:(reflexivity) ltac:(rewrite Fs; exact Hplan))
    as [w2 Hquery].
  change (pRetry (Prisma.call _) retries w1)
    with (pRetry (Prisma.wordIndex_findMany (List.map toLowerCase words)) retries w1)
    in Hquery.
  rewrite Fi in Hquery.
  destruct (setCachedResult_total (cacheKey_findWords words)
              (results_json (fresh_results words (wordIndex w))) w2)
    as ([] & w' & Hset).
  exists v, w1, w2, w'. split; [exact Hget|]. split; [exact Hquery|].
  split; [exact Hset|].
  unfold findWords_sorted. apply try_catch_Ok.
  rewrite (bind_run _ _ _ _ _ Hget), Hv. cbv zeta.
  rewrite (bind_run _ _ _ _ _ Hquery).
  change (format_results (List.map toLowerCase words)
            (matching_rows (List.map toLowerCase words) (wordIndex w)))
    with (fresh_results words (wordIndex w)).
  rewrite (bind_run _ _ _ _ _ Hset). reflexivity.
Qed.

(** A write rejected on all four runs is given up with a warning. *)
Lemma setCachedResult_rejected key data w rest :
  set_faults w = true :: true :: true :: true :: rest ->
  exists w', setCachedResult key data w = (Ok tt, w')
             /\ redis w' = redis w
             /\ logged w' = logged w ++ [(Warn, "Failed to set cached result after retries")].
Proof.
  intros H. unfold setCachedResult, try_catch, retries, pRetry, Redis.set. simpl.
  rewrite H. simpl. eexists. split; [reflexivity|]. split; reflexivity.
Qed.

(** X11.  A cache that cannot be written does not fail [findWords]: when
    the write of the fresh result is rejected on all four runs, the call
    still returns the result built from the store, the cache is left as it
    was, and the warning is logged. *)
Theorem findWords_survives_rejected_writes
        (words : list string) (w : world) (rest : list bool) :
  cache_miss (cacheKey_findWords (sort words)) w = true ->
  rejections (store_faults w) <= retries ->
  set_faults w = true :: true :: true :: true :: rest ->
  exists w',
    findWords words w = (Ok (Fresh (fresh_results (sort words) (wordIndex w))),
                         sort words, w')
    /\ redis w' = redis w
    /\ In (Warn, "Failed to set cached result after retries") (logged w').
Proof.
  intros Hmiss Hstore Hset.
  destruct (findWords_sorted_miss_steps _ _ Hmiss Hstore)
    as (v & w1 & w2 & w' & Hget & Hquery & Hwrite & Hrun).
  pose proof (getCachedResult_same redis ltac:(reflexivity) ltac:(reflexivity)
                _ ltac:(reflexivity) _ _ _ Hget) as Fr.
  pose proof (getCachedResult_same set_faults ltac:(reflexivity) ltac:(reflexivity)
                _ ltac:(reflexivity) _ _ _ Hget) as Ft.
  pose proof (findMany_same redis _ _ ltac:(reflexivity) _ _ _ Hquery) as Gr.
  pose proof (findMany_same set_faults _ _ ltac:(reflexivity) _ _ _ Hquery) as Gt.
  unfold same in Fr, Ft, Gr, Gt.
  destruct (setCachedResult_rejected (cacheKey_findWords (sort words))
              (results_json (fresh_results (sort words) (wordIndex w))) w2 rest)
    as (w'' & Hwrite' & Hr & Hl); [congruence|].
  rewrite Hwrite in Hwrite'. inversion Hwrite'; subst w''.
  exists w'. split; [unfold findWords; rewrite Hrun; reflexivity|].
  split; [congruence|].
  rewrite Hl. apply in_or_app. right. left. reflexivity.
Qed.

Lemma findWords_survives_rejected_writes_witness :
  exists w',
    findWords ["old"] unwritable_world
    = (Ok (Fresh (fresh_results (sort ["old"]) (wordIndex unwritable_world))),
       sort ["old"], w')
    /\ redis w' = redis unwritable_world
    /\ In (Warn, "Failed to set cached result after retries") (logged w').
Proof.
  apply (findWords_survives_rejected_writes ["old"] unwritable_world []).
  - vm_compute. reflexivity.
  - vm_compute. lia.
  - vm_compute. reflexivity.
Defined.

(** ** The cache helpers: bounded retries, and the round trip *)

Lemma pRetry_repeats {A} (attempt : M A) c n :
  (forall w r w', attempt w = (r, w') -> redis_calls w' = redis_calls w ++ [c]) ->
  forall w r w', pRetry attempt n w = (r, w') ->
  exists k, 1 <= k <= S n /\ redis_calls w' = redis_calls w ++ repeat c k.
Proof.
  intros Hone. induction n as [|n IH]; intros w r w' H.
  - rewrite pRetry_0 in H. exists 1. split; [lia|]. apply (Hone _ _ _ H).
  - rewrite pRetry_S in H. destruct (attempt w) as [[a|e] w1] eqn:E.
    + inversion H; subst. exists 1. split; [lia|]. apply (Hone _ _ _ E).
    + destruct (IH _ _ _ H) as (k & Hk & Hcalls). exists (S k). split; [lia|].
      rewrite Hcalls, (Hone _ _ _ E), <- app_assoc. reflexivity.
Qed.

Lemma read_attempt_one_call key w r w' :
  read_attempt key w = (r, w') -> redis_calls w' = redis_calls w ++ [Get key].
Proof.
  unfold read_attempt, mbind, M_bind. rewrite get_run.
  destruct (get_faults w) as [|[] plan]; simpl;
    try (intros H; inversion H; reflexivity);
    destruct (redis w !! key) as [[[v| |] seconds]|]; simpl;
    intros H; inversion H; reflexivity.
Qed.

Lemma set_one_call key value seconds w r w' :
  Redis.set key value seconds w = (r, w') ->
  redis_calls w' = redis_calls w ++ [SetEx key value seconds].
Proof.
  rewrite set_run.
  destruct (set_faults w) as [|[] plan]; intros H; inversion H; reflexivity.
Qed.

(** X12.  The two cache helpers never throw and never retry more than
    three times: [getCachedResult] issues between one and four [GET]s of
    its key and no other command, [setCachedResult] between one and four
    [SET]s of its key, each with the expiry of 600 seconds, and no other
    command. *)
Theorem cache_helpers_are_bounded (key : string) (data : json) (w : world) :
  (exists v reads,
      fst (getCachedResult key w) = Ok v
      /\ 1 <= reads <= 4
      /\ redis_calls (snd (getCachedResult key w))
         = redis_calls w ++ repeat (Get key) reads)
  /\ (exists writes,
         fst (setCachedResult key data w) = Ok tt
         /\ 1 <= writes <= 4
         /\ redis_calls (snd (setCachedResult key data w))
            = redis_calls w ++ repeat (SetEx key (Text data) 600) writes).
Proof.
  split.
  - rewrite getCachedResult_attempt. unfold try_catch.
    destruct (pRetry (read_attempt key) retries w) as [[v|e] w1] eqn:E;
      destruct (pRetry_repeats _ (Get key) retries (read_attempt_one_call key) _ _ _ E)
      as (reads & Hreads & Hcalls).
    + exists v, reads. repeat split; try exact Hcalls; unfold retries in Hreads; lia.
    + exists JNull, reads. repeat split; try exact Hcalls; unfold retries in Hreads; lia.
  - unfold setCachedResult, try_catch.
    destruct (pRetry (Redis.set key (Text data) 600) retries w) as [[[]|e] w1] eqn:E;
      destruct (pRetry_repeats _ (SetEx key (Text data) 600) retries
                  (set_one_call key (Text data) 600) _ _ _ E)
      as (writes & Hwrites & Hcalls).
    + exists writes. repeat split; try exact Hcalls; unfold retries in Hwrites; lia.
    + exists writes. repeat split; try exact Hcalls; unfold retries in Hwrites; lia.
Qed.

#[global] Instance fewer_rejections_preorder plan : PreOrder (fewer_rejections plan).
Proof.
  split.
  - intros w. unfold fewer_rejections. lia.
  - intros w1 w2 w3 H12 H23. unfold fewer_rejections in *. lia.
Qed.

Lemma same_fewer_rejections {A} plan (m : M A) :
  preserves (same plan) m -> preserves (fewer_rejections plan) m.
Proof. intros H w r w' E. unfold fewer_rejections. rewrite (H _ _ _ E). lia. Qed.

Lemma fewer_rejections_get key : preserves (fewer_rejections get_faults) (Redis.get key).
Proof.
  intros w r w' H. rewrite get_run in H. unfold fewer_rejections.
  destruct (get_faults w) as [|[] plan] eqn:E; inversion H; subst; simpl;
    rewrite ?rejections_cons; simpl; lia.
Qed.

Lemma getCachedResult_fewer_rejections key :
  preserves (fewer_rejections get_faults) (getCachedResult key).
Proof.
  unfold getCachedResult.
  by_frame @preserves_try_catch.
  - by_frame @preserves_pRetry. by_frame @preserves_bind; [apply fewer_rejections_get|].
    intros result. apply same_fewer_rejections. frame.
  - intros _. apply same_fewer_rejections. frame.
Qed.

(** X13.  The round trip through the cache: after a miss whose write the
    cache accepts, the same query, its words in any order, is answered
    from the cache with the JSON value of the result that the first call
    built. *)
Theorem findWords_then_again (words words' : list string) (w : world) :
  Permutation words words' ->
  cache_miss (cacheKey_findWords (sort words)) w = true ->
  rejections (store_faults w) <= retries ->
  rejections (set_faults w) <= retries ->
  rejections (get_faults w) <= retries ->
  exists results w1 w2,
    findWords words w = (Ok (Fresh results), sort words, w1)
    /\ findWords words' w1 = (Ok (Cached (results_json results)), sort words, w2).
Proof.
  intros Hperm Hmiss Hstore Hset Hget.
  destruct (findWords_sorted_miss_steps _ _ Hmiss Hstore)
    as (v & w1 & w2 & w' & Hread & Hquery & Hwrite & Hrun).
  pose proof (getCachedResult_same set_faults ltac:(reflexivity) ltac:(reflexivity)
                _ ltac:(reflexivity) _ _ _ Hread) as Ft.
  pose proof (findMany_same set_faults _ _ ltac:(reflexivity) _ _ _ Hquery) as Gt.
  pose proof (findMany_same get_faults _ _ ltac:(reflexivity) _ _ _ Hquery) as Gg.
  pose proof (setCachedResult_same get_faults ltac:(reflexivity) ltac:(reflexivity)
                _ _ ltac:(reflexivity) ltac:(reflexivity) _ _ _ Hwrite) as Sg.
  pose proof (getCachedResult_fewer_rejections _ _ _ _ Hread) as Fg.
  unfold same in Ft, Gt, Gg, Sg. unfold fewer_rejections in Fg.
  destruct (setCachedResult_writes (cacheKey_findWords (sort words))
              (results_json (fresh_results (sort words) (wordIndex w))) w2)
    as (w'' & Hwrite' & Hredis); [rewrite Gt, Ft; exact Hset|].
  rewrite Hwrite in Hwrite'. inversion Hwrite'; subst w''.
  destruct (findWords_hit_run
              words' (results_json (fresh_results (sort words) (wordIndex w))) 600 w')
    as [w3 Hagain].
  - rewrite <- (sort_permutation_eq _ _ Hperm), Hredis. apply lookup_insert_eq.
  - reflexivity.
  - rewrite Sg, Gg. lia.
  - exists (fresh_results (sort words) (wordIndex w)), w', w3. split.
    + unfold findWords. rewrite Hrun. reflexivity.
    + rewrite Hagain, <- (sort_permutation_eq _ _ Hperm). reflexivity.
Qed.

Lemma findWords_then_again_witness :
  exists results w1 w2,
    findWords ["world"; "hello"] tested_world
    = (Ok (Fresh results), sort ["world"; "hello"], w1)
    /\ findWords ["hello"; "world"] w1
       = (Ok (Cached (results_json results)), sort ["world"; "hello"], w2).
Proof.
  apply (findWords_then_again ["world"; "hello"] ["hello"; "world"] tested_world).
  - apply perm_swap.
  - vm_compute. reflexivity.
  - vm_compute. lia.
  - vm_compute. lia.
  - vm_compute. lia.
Defined.

(** ** The rows written by [processArticle] against the content *)

Lemma append_snoc a c s :
  ((a ++ String c EmptyString) ++ s)%string = (a ++ String c s)%string.
Proof.
  induction a as [|d a IH]; [reflexivity|].
  change (String d ((a ++ String c EmptyString) ++ s) = String d (a ++ String c s)).
  f_equal. exact IH.
Qed.

Lemma substring_prefix a b :
  substring 0 (String.length a) (a ++ b) = a.
Proof.
  induction a as [|c a IH]; simpl.
  - destruct b; reflexivity.
  - rewrite IH. reflexivity.
Qed.

Lemma substring_skip a n m b :
  substring (String.length a + n) m (a ++ b) = substring n m b.
Proof. induction a as [|c a IH]; simpl; [reflexivity | exact IH]. Qed.

Lemma lower_unit_idempotent c : lower_unit (lower_unit c) = lower_unit c.
Proof. destruct c as [[] [] [] [] [] [] [] []]; reflexivity. Qed.

Lemma toLowerCase_idempotent s : toLowerCase (toLowerCase s) = toLowerCase s.
Proof.
  induction s as [|c s IH]; simpl; [reflexivity|].
  rewrite lower_unit_idempotent, IH. reflexivity.
Qed.

Lemma toLowerCase_substring s : forall n m,
  toLowerCase (substring n m s) = substring n m (toLowerCase s).
Proof.
  induction s as [|c s IH]; intros [|n] [|m]; simpl; try reflexivity.
  - rewrite IH. reflexivity.
  - apply IH.
  - apply IH.
Qed.

(** The pieces of a split, put together, are the string. *)
Lemma split_from_concat s : forall piece prev,
  fold_right String.append EmptyString (split_from piece prev s)
  = (piece ++ s)%string.
Proof.
  induction s as [|c s IH]; intros piece prev; simpl; [reflexivity|].
  destruct (xorb (is_word_char prev) (is_word_char c)); simpl.
  - rewrite IH. reflexivity.
  - rewrite IH. apply append_snoc.
Qed.

Lemma split_word_boundary_concat s :
  fold_right String.append EmptyString (split_word_boundary s) = s.
Proof.
  destruct s as [|c s]; simpl; [reflexivity|].
  rewrite split_from_concat. reflexivity.
Qed.

Lemma test_word_length word : test_word word = true -> 0 < String.length word.
Proof. destruct word; simpl; [discriminate | lia]. Qed.

(** Every token is a piece that passed the test, met at the offset at
    which it lies in the pieces put together. *)
Lemma piece_tokens_occurrences pieces : forall position word p,
  In (word, p) (piece_tokens pieces position) ->
  test_word word = true
  /\ position <= p
  /\ substring (p - position) (String.length word)
               (fold_right String.append EmptyString pieces)
     = word.
Proof.
  induction pieces as [|piece rest IH]; intros position word p Hin; simpl in Hin;
    [destruct Hin|].
  apply in_app_or in Hin as [Hin|Hin].
  - destruct (test_word piece) eqn:Htest; [|destruct Hin].
    destruct Hin as [Heq|[]]. inversion Heq; subst.
    split; [exact Htest|]. split; [lia|].
    rewrite Nat.sub_diag. simpl. apply substring_prefix.
  - destruct (IH _ _ _ Hin) as (Htest & Hle & Hsub).
    split; [exact Htest|]. split; [lia|]. simpl.
    replace (p - position) with (String.length piece + (p - (position + String.length piece)))
      by lia.
    rewrite substring_skip. exact Hsub.
Qed.

Lemma piece_tokens_increasing pieces : forall position,
  StronglySorted lt (List.map snd (piece_tokens pieces position)).
Proof.
  induction pieces as [|piece rest IH]; intros position; simpl; [constructor|].
  destruct (test_word piece) eqn:Htest; simpl; [|apply IH].
  constructor; [apply IH|].
  apply List.Forall_forall. intros p Hp.
  apply in_map_iff in Hp as ([word p'] & <- & Hin).
  destruct (piece_tokens_occurrences _ _ _ _ Hin) as (_ & Hle & _).
  pose proof (test_word_length _ Htest). simpl. lia.
Qed.

Lemma StronglySorted_filter_snd {A} (R : relation nat) (f : A * nat -> bool) l :
  StronglySorted R (List.map snd l) ->
  StronglySorted R (List.map snd (List.filter f l)).
Proof.
  induction l as [|x l IH]; simpl; intros H; [constructor|].
  apply StronglySorted_inv in H as [Hs Hall].
  destruct (f x); simpl; [|apply IH, Hs].
  constructor; [apply IH, Hs|].
  apply List.Forall_forall. intros p Hp.
  apply in_map_iff in Hp as (y & <- & Hy). apply filter_In in Hy as [Hy _].
  rewrite List.Forall_forall in Hall. apply Hall, in_map, Hy.
Qed.

(** When the loop ends without a throw, no word it met names a property of
    [Object.prototype], and the map it built is the aggregate of the
    tokens. *)
Lemma record_all_Ok tokens : forall done wordPositions,
  Forall (fun token => inherited (fst token) = false) done ->
  record_all tokens (Spec.aggregate done) = Ok wordPositions ->
  Forall (fun token => inherited (fst token) = false) tokens
  /\ wordPositions = Spec.aggregate (done ++ tokens).
Proof.
  induction tokens as [|[word position] tokens IH]; intros done wp Hdone H; simpl in H.
  - inversion H; subst. rewrite app_nil_r. split; [constructor | reflexivity].
  - destruct (inherited word) eqn:Hinh.
    + exfalso. unfold record_position, get in H.
      rewrite own_get_aggregate in H.
      destruct (in_dec string_dec word _) as [Hin|Hout].
      * rewrite In_first_occurrences in Hin.
        apply in_map_iff in Hin as (token & <- & Hin).
        rewrite List.Forall_forall in Hdone. rewrite (Hdone _ Hin) in Hinh.
        discriminate.
      * rewrite Hinh in H. simpl in H. rewrite own_get_aggregate in H.
        destruct (in_dec string_dec word _) as [Hin|_]; [tauto | discriminate].
    + rewrite (record_position_aggregate _ _ _ Hinh) in H.
      destruct (IH (done ++ [(word, position)]) wp) as [Hrest Hwp].
      * apply Forall_app. split; [exact Hdone|]. constructor; [exact Hinh | constructor].
      * exact H.
      * split; [constructor; assumption|]. rewrite Hwp, <- app_assoc. reflexivity.
Qed.

Lemma word_positions_aggregate content wordPositions :
  word_positions content = Ok wordPositions ->
  Forall (fun token => inherited (fst token) = false)
         (piece_tokens (split_word_boundary (toLowerCase content)) 0)
  /\ wordPositions
     = Spec.aggregate (piece_tokens (split_word_boundary (toLowerCase content)) 0).
Proof.
  unfold word_positions. rewrite index_pieces_record_all. intros H.
  apply (record_all_Ok _ [] _ (List.Forall_nil _) H).
Qed.

Lemma In_aggregate word positions tokens :
  In (word, positions) (Spec.aggregate tokens) ->
  In word (List.map fst tokens) /\ positions = Spec.offsets_of word tokens.
Proof.
  unfold Spec.aggregate. intros H. apply in_map_iff in H as (k & Heq & Hin).
  inversion Heq; subst. rewrite In_first_occurrences in Hin. split; [exact Hin | reflexivity].
Qed.

Lemma In_offsets_of word p tokens :
  In p (Spec.offsets_of word tokens) <-> In (word, p) tokens.
Proof.
  unfold Spec.offsets_of. rewrite in_map_iff. split.
  - intros ([k q] & <- & Hin). apply filter_In in Hin as [Hin Hk]. simpl in *.
    apply String.eqb_eq in Hk. subst. exact Hin.
  - intros Hin. exists (word, p). split; [reflexivity|].
    apply filter_In. split; [exact Hin | apply String.eqb_refl].
Qed.

(** What the positional map holds: words that pass the test, are
    lowercase and are no property of [Object.prototype], each with the
    offsets, first to last, at which it stands in the lowercased
    content. *)
Lemma word_positions_occurrences content wordPositions word positions :
  word_positions content = Ok wordPositions ->
  In (word, positions) wordPositions ->
  test_word word = true
  /\ toLowerCase word = word
  /\ inherited word = false
  /\ positions <> []
  /\ StronglySorted lt positions
  /\ Forall (fun p => substring p (String.length word) (toLowerCase content) = word)
            positions.
Proof.
  intros Hwp Hin. destruct (word_positions_aggregate _ _ Hwp) as [Hinh ->].
  apply In_aggregate in Hin as [Hword ->].
  apply in_map_iff in Hword as ([word' p] & Hfst & Htoken). simpl in Hfst. subst word'.
  destruct (piece_tokens_occurrences _ _ _ _ Htoken) as (Htest & _ & Hsub).
  rewrite Nat.sub_0_r, split_word_boundary_concat in Hsub.
  split; [exact Htest|]. split; [|split; [|split; [|split]]].
  - rewrite <- Hsub at 1. rewrite toLowerCase_substring, toLowerCase_idempotent.
    exact Hsub.
  - rewrite List.Forall_forall in Hinh. apply (Hinh _ Htoken).
  - intros Hnil. apply (In_offsets_of word p) in Htoken. rewrite Hnil in Htoken.
    destruct Htoken.
  - unfold Spec.offsets_of. apply StronglySorted_filter_snd, piece_tokens_increasing.
  - apply List.Forall_forall. intros q Hq. apply In_offsets_of in Hq.
    destruct (piece_tokens_occurrences _ _ _ _ Hq) as (_ & _ & Hsub').
    rewrite Nat.sub_0_r, split_word_boundary_concat in Hsub'. exact Hsub'.
Qed.

(** X4.  After a successful [processArticle], every WordIndex row of the
    article holds a non-empty lowercase word made of the characters
    [a-z0-9_] and a non-empty, strictly increasing list of positions, and
    at each position the lowercased content reads that word: positions
    count UTF-16 code units from the start of the content. *)
Theorem processArticle_rows_are_occurrences
        (articleId content : string) (w w' : world) (index : WordIndex.t) :
  processArticle articleId content w = (Ok tt, w') ->
  In index (wordIndex w') ->
  WordIndex.articleId index = articleId ->
  test_word (WordIndex.word index) = true
  /\ toLowerCase (WordIndex.word index) = WordIndex.word index
  /\ WordIndex.positions index <> []
  /\ StronglySorted lt (WordIndex.positions index)
  /\ Forall (fun p => substring p (String.length (WordIndex.word index))
                                (toLowerCase content)
                      = WordIndex.word index)
            (WordIndex.positions index).
Proof.
  intros Hrun Hin Hid.
  apply processArticle_tables in Hrun as (wordPositions & Hwp & Ei & _).
  rewrite Ei in Hin.
  destruct (index_row_of_article _ _ _ _ Hin Hid) as ([word positions] & Hentry & ->).
  apply (Permutation_in _ (entries_permutation wordPositions)) in Hentry.
  destruct (word_positions_occurrences _ _ _ _ Hwp Hentry)
    as (H1 & H2 & _ & H3 & H4 & H5).
  simpl. repeat split; assumption.
Qed.

Lemma processArticle_rows_are_occurrences_witness :
  processArticle "1" "Hello world! Hello again." indexed_world
  = (Ok tt, snd (processArticle "1" "Hello world! Hello again." indexed_world))
  /\ test_word "hello" = true
  /\ toLowerCase "hello" = "hello"
  /\ [0; 13] <> []
  /\ StronglySorted lt [0; 13]
  /\ Forall (fun p => substring p (String.length "hello")
                                (toLowerCase "Hello world! Hello again.")
                      = "hello")
            [0; 13].
Proof.
  split; [vm_compute; reflexivity|].
  apply (processArticle_rows_are_occurrences
           "1" "Hello world! Hello again." indexed_world
           (snd (processArticle "1" "Hello world! Hello again." indexed_world))
           {| WordIndex.articleId := "1"; WordIndex.word := "hello";
              WordIndex.positions := [0; 13] |}).
  - vm_compute. reflexivity.
  - vm_compute. right. left. reflexivity.
  - reflexivity.
Defined.

(** ** Indexing, then asking *)

Lemma filter_key_NoDup {V} (l : list (string * V)) k v :
  List.NoDup (List.map fst l) -> In (k, v) l ->
  List.filter (fun e => String.eqb (fst e) k) l = [(k, v)].
Proof.
  induction l as [|[k' v'] l IH]; simpl; intros Hnd Hin; [destruct Hin|].
  inversion Hnd as [|? ? Hout Hnd']; subst.
  destruct Hin as [Heq|Hin].
  - inversion Heq; subst. rewrite String.eqb_refl. f_equal.
    apply filter_none. intros [k1 v1] H1. simpl. apply String.eqb_neq. intros ->.
    apply Hout. apply (in_map fst) in H1. exact H1.
  - destruct (String.eqb_spec k' k) as [->|Hne].
    + exfalso. apply Hout. apply (in_map fst) in Hin. exact Hin.
    + apply IH; assumption.
Qed.

Lemma In_entries {V} (o : props V) e : In e (entries o) <-> In e o.
Proof.
  split; apply Permutation_in; [|symmetry]; apply entries_permutation.
Qed.

Lemma not_inherited_not_proto word : inherited word = false -> word <> "__proto__".
Proof. intros H ->. vm_compute in H. discriminate. Qed.

(** X14.  What [processArticle] writes, [findWords] finds: after a
    successful indexing of an article, a query that holds a word of the
    content, in any case, and is not answered from the cache returns under
    that word exactly one hit for the article, with the offsets of the
    word in the content. *)
Theorem processArticle_then_findWords
        (articleId content word query : string) (positions : list nat)
        (wordPositions : props (list nat)) (words : list string) (w w1 : world) :
  processArticle articleId content w = (Ok tt, w1) ->
  word_positions content = Ok wordPositions ->
  In (word, positions) wordPositions ->
  In query words ->
  toLowerCase query = word ->
  cache_miss (cacheKey_findWords (sort words)) w1 = true ->
  rejections (store_faults w1) <= retries ->
  exists results hits w2,
    findWords words w1 = (Ok (Fresh results), sort words, w2)
    /\ own_get word (own results) = Some hits
    /\ List.filter (fun h => String.eqb (article_id h) articleId) hits
       = [ {| article_id := articleId; offsets := positions |} ].
Proof.
  intros Hrun Hwp Hentry Hquery Hlow Hmiss Hstore.
  apply processArticle_tables in Hrun as (wp' & Hwp' & Ei & _).
  rewrite Hwp in Hwp'. inversion Hwp'; subst wp'.
  destruct (word_positions_occurrences _ _ _ _ Hwp Hentry) as (_ & _ & Hinh & _).
  destruct (findWords_sorted_miss_steps _ _ Hmiss Hstore)
    as (v & wa & wb & w2 & _ & _ & _ & Hrun2).
  exists (fresh_results (sort words) (wordIndex w1)),
         (List.map hit_of (index_rows_of_word word (wordIndex w1))), w2.
  split; [unfold findWords; rewrite Hrun2; reflexivity|]. split.
  - unfold fresh_results. apply format_results_lookup.
    + rewrite <- Hlow. apply in_map.
      eapply Permutation_in; [apply sort_permutation | exact Hquery].
    + apply not_inherited_not_proto, Hinh.
  - rewrite Ei. unfold index_rows_of_word.
    rewrite List.filter_app, List.map_app, List.filter_app.
    rewrite (filter_none _ (List.map hit_of (List.filter _ (index_rows_of_others _ _)))).
    + rewrite !List.filter_map_swap. simpl.
      rewrite (filter_key_NoDup (entries wordPositions) word positions).
      * simpl. rewrite String.eqb_refl. reflexivity.
      * apply entries_NoDup, (word_positions_NoDup _ _ Hwp).
      * apply In_entries, Hentry.
    + intros h Hh. apply in_map_iff in Hh as (index & <- & Hindex).
      apply filter_In in Hindex as [Hindex _].
      unfold index_rows_of_others in Hindex. apply filter_In in Hindex as [_ Hne].
      simpl. apply negb_true_iff, Hne.
Qed.

Lemma processArticle_then_findWords_witness :
  exists results hits w2,
    findWords ["again"; "HELLO"]
      (snd (processArticle "1" "Hello world! Hello again." indexed_world))
    = (Ok (Fresh results), sort ["again"; "HELLO"], w2)
    /\ own_get "hello" (own results) = Some hits
    /\ List.filter (fun h => String.eqb (article_id h) "1") hits
       = [ {| article_id := "1"; offsets := [0; 13] |} ].
Proof.
  apply (processArticle_then_findWords
           "1" "Hello world! Hello again." "hello" "HELLO" [0; 13]
           [("hello", [0; 13]); ("world", [6]); ("again", [19])]
           ["again"; "HELLO"] indexed_world
           (snd (processArticle "1" "Hello world! Hello again." indexed_world))).
  - vm_compute. reflexivity.
  - vm_compute. reflexivity.
  - left. reflexivity.
  - right. left. reflexivity.
  - vm_compute. reflexivity.
  - vm_compute. reflexivity.
  - vm_compute. lia.
Defined.

(** What [getCachedResult] returns is [null] or the value of the entry. *)
Lemma pRetry_read_value key n : forall w v w',
  pRetry (read_attempt key) n w = (Ok v, w') ->
  v = JNull \/ exists seconds, redis w !! key = Some (Text v, seconds).
Proof.
  assert (forall w v w', read_attempt key w = (Ok v, w') ->
            v = JNull \/ exists seconds, redis w !! key = Some (Text v, seconds)) as Hone.
  { intros w v w'. unfold read_attempt, mbind, M_bind. rewrite get_run.
    destruct (get_faults w) as [|[] plan]; simpl; try discriminate;
      destruct (redis w !! key) as [[[v0| |] seconds]|]; simpl;
      intros H; inversion H; subst; eauto. }
  induction n as [|n IH]; intros w v w' H.
  - rewrite pRetry_0 in H. apply (Hone _ _ _ H).
  - rewrite pRetry_S in H. destruct (read_attempt key w) as [[v0|e] w1] eqn:E.
    + inversion H; subst. apply (Hone _ _ _ E).
    + pose proof (read_attempt_same redis key 0 ltac:(reflexivity) ltac:(reflexivity)
                    w (Throw e) w1) as F.
      rewrite pRetry_0 in F. specialize (F E). unfold same in F.
      rewrite <- F. apply (IH _ _ _ H).
Qed.

Lemma cache_absent_miss key w : redis w !! key = None -> cache_miss key w = true.
Proof.
  intros Habsent. unfold cache_miss. rewrite getCachedResult_attempt. unfold try_catch.
  destruct (pRetry (read_attempt key) retries w) as [[v|e] w1] eqn:E; [|reflexivity].
  destruct (pRetry_read_value _ _ _ _ _ E) as [->|[seconds Hentry]]; [reflexivity|].
  congruence.
Qed.

(** X15.  What [processArticle] writes, [getMostCommonWordArticle] answers
    from: after a successful indexing during which the cache rejected no
    deletion, a question about a word of the content, in any case, is
    answered from the store and not from the cache; the answer is a row
    of that word with the greatest count, which is at least the number of
    occurrences of the word in the content. *)
Theorem processArticle_then_getMostCommonWordArticle
        (articleId content word query : string) (positions : list nat)
        (wordPositions : props (list nat)) (w w1 : world) :
  processArticle articleId content w = (Ok tt, w1) ->
  rejections (del_faults w) = 0 ->
  word_positions content = Ok wordPositions ->
  In (word, positions) wordPositions ->
  toLowerCase query = word ->
  rejections (store_faults w1) <= retries ->
  exists row w2,
    getMostCommonWordArticle query w1 = (Ok (most_common_json row), w2)
    /\ In row (wordArticleCount w1)
    /\ WordArticleCount.word row = word
    /\ List.length positions <= WordArticleCount.count row
    /\ forall row', In row' (wordArticleCount w1) ->
                    WordArticleCount.word row' = word ->
                    WordArticleCount.count row' <= WordArticleCount.count row.
Proof.
  intros Hrun Hdel Hwp Hentry Hlow Hstore.
  assert (In word (keys wordPositions)) as Hkey.
  { unfold keys. apply (in_map fst) in Hentry. simpl in Hentry.
    eapply Permutation_in; [|exact Hentry].
    apply Permutation_map. symmetry. apply entries_permutation. }
  pose proof (processArticle_deletes_most_common_word _ _ _ _ _ _ Hrun Hdel Hwp Hkey)
    as Hgone.
  assert (cache_miss (cacheKey_mostCommon query) w1 = true) as Hmiss.
  { apply cache_absent_miss. unfold cacheKey_mostCommon. rewrite Hlow. exact Hgone. }
  apply processArticle_tables in Hrun as (wp' & Hwp' & _ & Ec).
  rewrite Hwp in Hwp'. inversion Hwp'; subst wp'.
  destruct (getMostCommonWordArticle_miss _ _ Hmiss Hstore)
    as (v & wa & w2 & _ & Hanswer & _ & _).
  rewrite Hlow in Hanswer.
  assert (In (count_row articleId (word, positions))
             (count_rows_of_word word (wordArticleCount w1))) as Hmine.
  { unfold count_rows_of_word. apply filter_In. split; [|apply String.eqb_refl].
    rewrite Ec. apply in_or_app. right. apply in_map, In_entries, Hentry. }
  destruct (Prisma.greatest (count_rows_of_word word (wordArticleCount w1)))
    as [row|] eqn:Hrow.
  - destruct (greatest_spec _ _ Hrow) as [Hin Hmax].
    unfold count_rows_of_word in Hin. apply filter_In in Hin as [Hin Hword].
    apply String.eqb_eq in Hword.
    exists row, w2. split; [exact Hanswer|]. split; [exact Hin|].
    split; [exact Hword|]. split.
    + apply (Hmax _ Hmine).
    + intros row' Hin' Hword'. apply Hmax. unfold count_rows_of_word.
      apply filter_In. split; [exact Hin' | apply String.eqb_eq; exact Hword'].
  - apply greatest_none in Hrow. rewrite Hrow in Hmine. destruct Hmine.
Qed.

Lemma processArticle_then_getMostCommonWordArticle_witness :
  exists row w2,
    getMostCommonWordArticle "Hello"
      (snd (processArticle "1" "Hello world! Hello again." indexed_world))
    = (Ok (most_common_json row), w2)
    /\ In row (wordArticleCount
                 (snd (processArticle "1" "Hello world! Hello again." indexed_world)))
    /\ WordArticleCount.word row = "hello"
    /\ List.length [0; 13] <= WordArticleCount.count row
    /\ forall row',
         In row' (wordArticleCount
                    (snd (processArticle "1" "Hello world! Hello again." indexed_world))) ->
         WordArticleCount.word row' = "hello" ->
         WordArticleCount.count row' <= WordArticleCount.count row.
Proof.
  apply (processArticle_then_getMostCommonWordArticle
           "1" "Hello world! Hello again." "hello" "Hello" [0; 13]
           [("hello", [0; 13]); ("world", [6]); ("again", [19])]
           indexed_world
           (snd (processArticle "1" "Hello world! Hello again." indexed_world))).
  - vm_compute. reflexivity.
  - vm_compute. reflexivity.
  - vm_compute. reflexivity.
  - left. reflexivity.
  - vm_compute. reflexivity.
  - vm_compute. lia.
Defined.

(** ** The keys of a fresh result, and failures of [findWords] *)

Lemma assign_keys {V} (o : object V) a (x : V) k :
  In k (List.map fst (own (assign o a x)))
  <-> In k (List.map fst (own o)) \/ (k = a /\ a <> "__proto__").
Proof.
  unfold assign. destruct (String.eqb_spec a "__proto__") as [->|Hne]; simpl.
  - tauto.
  - rewrite own_set_keys.
    destruct (in_dec string_dec a (List.map fst (own o))) as [Hin|Hout].
    + split; [tauto|]. intros [H|[-> _]]; assumption.
    + rewrite in_app_iff. simpl. split.
      * intros [H|[<-|[]]]; tauto.
      * intros [H|[-> _]]; tauto.
Qed.

Lemma assign_NoDup {V} (o : object V) a (x : V) :
  List.NoDup (List.map fst (own o)) -> List.NoDup (List.map fst (own (assign o a x))).
Proof.
  intros H. unfold assign. destruct (String.eqb a "__proto__"); simpl;
    [exact H | apply own_set_NoDup, H].
Qed.

Lemma fold_assign_keys {V} (v : string -> V) l : forall o,
  List.NoDup (List.map fst (own o)) ->
  List.NoDup
    (List.map fst (own (fold_left (fun results word => assign results word (v word)) l o)))
  /\ forall k,
       In k (List.map fst
               (own (fold_left (fun results word => assign results word (v word)) l o)))
       <-> In k (List.map fst (own o)) \/ (In k l /\ k <> "__proto__").
Proof.
  induction l as [|a l IH]; intros o Hnd; simpl.
  - split; [exact Hnd|]. intros k. tauto.
  - destruct (IH (assign o a (v a)) (assign_NoDup _ _ _ Hnd)) as [Hnd' Hkeys].
    split; [exact Hnd'|]. intros k. rewrite Hkeys, assign_keys. split.
    + intros [[H|[-> Hne]]|[H Hne]]; auto.
    + intros [H|[[<-|H] Hne]]; auto.
Qed.

(** X16.  The result object that [findWords] builds on a miss has one
    key for each different lowercased query word other than [__proto__]
    and no other key: words repeated in the query, or differing in case
    only, share a key, and a word without any row has its key all the
    same. *)
Theorem findWords_result_keys (words : list string) (w : world) :
  cache_miss (cacheKey_findWords (sort words)) w = true ->
  rejections (store_faults w) <= retries ->
  exists results w',
    findWords words w = (Ok (Fresh results), sort words, w')
    /\ List.NoDup (List.map fst (own results))
    /\ forall k,
         In k (List.map fst (own results))
         <-> k <> "__proto__" /\ exists query, In query words /\ toLowerCase query = k.
Proof.
  intros Hmiss Hstore.
  destruct (findWords_sorted_miss_steps _ _ Hmiss Hstore)
    as (v & wa & wb & w' & _ & _ & _ & Hrun).
  exists (fresh_results (sort words) (wordIndex w)), w'.
  split; [unfold findWords; rewrite Hrun; reflexivity|].
  destruct (fold_assign_keys
              (fun word =>
                 List.map hit_of
                   (index_rows_of_word word
                      (matching_rows (List.map toLowerCase (sort words)) (wordIndex w))))
              (List.map toLowerCase (sort words)) empty (List.NoDup_nil _))
    as [Hnd Hkeys].
  split; [exact Hnd|]. intros k.
  etransitivity; [exact (Hkeys k)|]. simpl. rewrite in_map_iff. split.
  - intros [[]|[(query & Hlow & Hin) Hne]]. split; [exact Hne|].
    exists query. split; [|exact Hlow].
    eapply Permutation_in; [symmetry; apply sort_permutation | exact Hin].
  - intros [Hne (query & Hin & Hlow)]. right. split; [|exact Hne].
    exists query. split; [exact Hlow|].
    eapply Permutation_in; [apply sort_permutation | exact Hin].
Qed.

Lemma findWords_result_keys_witness :
  exists results w',
    findWords ["World"; "hello"; "HELLO"; "world"] tested_world
    = (Ok (Fresh results), sort ["World"; "hello"; "HELLO"; "world"], w')
    /\ List.NoDup (List.map fst (own results))
    /\ forall k,
         In k (List.map fst (own results))
         <-> k <> "__proto__"
             /\ exists query,
                  In query ["World"; "hello"; "HELLO"; "world"] /\ toLowerCase query = k.
Proof.
  apply (findWords_result_keys ["World"; "hello"; "HELLO"; "world"] tested_world).
  - vm_compute. reflexivity.
  - vm_compute. lia.
Defined.

(** X17.  A [findWords] that throws has written nothing: the cache holds
    what it held, no [SET] was issued, the tables are as they were, and the
    error is in the log. *)
Theorem findWords_failure_writes_nothing
        (words : list string) (w w' : world) (e : error) :
  findWords words w = (Throw e, sort words, w') ->
  redis w' = redis w
  /\ no_write w w'
  /\ wordIndex w' = wordIndex w
  /\ wordArticleCount w' = wordArticleCount w
  /\ In (Error, "Error in findWords") (logged w').
Proof.
  unfold findWords.
  destruct (findWords_sorted (sort words) w) as [r w''] eqn:E. intros H.
  inversion H; subst r w''. clear H.
  unfold findWords_sorted in E.
  apply try_catch_rethrow_inv in E as (w1 & Hbody & ->).
  unfold mbind at 1, M_bind at 1 in Hbody.
  destruct (getCachedResult_total (cacheKey_findWords (sort words)) w)
    as (v & wa & Hget).
  rewrite Hget in Hbody.
  destruct (json_truthy v); [discriminate|]. cbv zeta in Hbody.
  unfold mbind at 1, M_bind at 1 in Hbody.
  destruct (pRetry (Prisma.wordIndex_findMany (List.map toLowerCase (sort words)))
                   retries wa) as [[rows|e1] wb] eqn:Hquery.
  - destruct (setCachedResult_total (cacheKey_findWords (sort words))
                (results_json (format_results (List.map toLowerCase (sort words)) rows))
                wb) as ([] & wc & Hset).
    unfold mbind, M_bind in Hbody. rewrite Hset in Hbody. discriminate.
  - inversion Hbody; subst e1 w1. clear Hbody.
    pose proof (getCachedResult_same redis ltac:(reflexivity) ltac:(reflexivity)
                  _ ltac:(reflexivity) _ _ _ Hget) as Fr.
    pose proof (getCachedResult_same wordIndex ltac:(reflexivity) ltac:(reflexivity)
                  _ ltac:(reflexivity) _ _ _ Hget) as Fi.
    pose proof (getCachedResult_same wordArticleCount ltac:(reflexivity)
                  ltac:(reflexivity) _ ltac:(reflexivity) _ _ _ Hget) as Fc.
    pose proof (getCachedResult_no_write _ _ _ _ Hget) as (calls & Ecalls & Hcalls).
    pose proof (findMany_same redis _ _ ltac:(reflexivity) _ _ _ Hquery) as Gr.
    pose proof (findMany_same wordIndex _ _ ltac:(reflexivity) _ _ _ Hquery) as Gi.
    pose proof (findMany_same wordArticleCount _ _ ltac:(reflexivity) _ _ _ Hquery) as Gc.
    pose proof (findMany_same redis_calls _ _ ltac:(reflexivity) _ _ _ Hquery) as Gk.
    unfold same in Fr, Fi, Fc, Gr, Gi, Gc, Gk. simpl.
    split; [congruence|]. split; [|split; [congruence|split; [congruence|]]].
    + exists calls. simpl. split; [congruence | exact Hcalls].
    + apply in_or_app. right. left. reflexivity.
Qed.

Lemma findWords_failure_writes_nothing_witness :
  findWords ["old"] unreachable_store_world
  = (Throw StoreError, sort ["old"], snd (findWords ["old"] unreachable_store_world))
  /\ redis (snd (findWords ["old"] unreachable_store_world))
     = redis unreachable_store_world
  /\ no_write unreachable_store_world (snd (findWords ["old"] unreachable_store_world))
  /\ wordIndex (snd (findWords ["old"] unreachable_store_world))
     = wordIndex unreachable_store_world
  /\ wordArticleCount (snd (findWords ["old"] unreachable_store_world))
     = wordArticleCount unreachable_store_world
  /\ In (Error, "Error in findWords")
        (logged (snd (findWords ["old"] unreachable_store_world))).
Proof.
  split; [vm_compute; reflexivity|].
  apply (findWords_failure_writes_nothing
           ["old"] unreachable_store_world
           (snd (findWords ["old"] unreachable_store_world)) StoreError).
  vm_compute. reflexivity.
Defined.

(** ** Words that name a property of [Object.prototype] *)

Lemma record_all_Throw tokens : forall done e,
  Forall (fun token => inherited (fst token) = false) done ->
  record_all tokens (Spec.aggregate done) = Throw e ->
  e = TypeError /\ Exists (fun token => inherited (fst token) = true) tokens.
Proof.
  induction tokens as [|[word position] tokens IH]; intros done e Hdone H; simpl in H;
    [discriminate|].
  destruct (inherited word) eqn:Hinh.
  - split; [|left; exact Hinh].
    unfold record_position, get in H. rewrite own_get_aggregate in H.
    destruct (in_dec string_dec word _) as [Hin|Hout].
    + rewrite In_first_occurrences in Hin.
      apply in_map_iff in Hin as (token & <- & Hin).
      rewrite List.Forall_forall in Hdone. rewrite (Hdone _ Hin) in Hinh.
      discriminate.
    + rewrite Hinh in H. simpl in H. rewrite own_get_aggregate in H.
      destruct (in_dec string_dec word _) as [Hin|_]; [tauto|].
      inversion H. reflexivity.
  - rewrite (record_position_aggregate _ _ _ Hinh) in H.
    destruct (IH (done ++ [(word, position)]) e) as [He Hex].
    + apply Forall_app. split; [exact Hdone|]. constructor; [exact Hinh | constructor].
    + exact H.
    + split; [exact He | right; exact Hex].
Qed.

(** [processArticle] succeeds or throws according to whether a word of the
    content is found on [Object.prototype]. *)
Lemma processArticle_inherited_words articleId content w :
  rejections (store_faults w) <= retries ->
  (Forall (fun word => inherited word = false) (content_words content)
   /\ exists w', processArticle articleId content w = (Ok tt, w'))
  \/ (Exists (fun word => inherited word = true) (content_words content)
      /\ processArticle articleId content w
         = (Throw TypeError, with_log (Error, "Error in processArticle") w)).
Proof.
  intros Hstore. unfold content_words.
  destruct (word_positions content) as [wordPositions|e] eqn:Hwp.
  - left. destruct (word_positions_aggregate _ _ Hwp) as [Hinh _]. split.
    + apply List.Forall_forall. intros word Hin.
      apply in_map_iff in Hin as (token & <- & Hin).
      rewrite List.Forall_forall in Hinh. apply (Hinh _ Hin).
    + destruct (processArticle_succeeds articleId content wordPositions w Hwp Hstore)
        as (w' & Hrun & _).
      exists w'. exact Hrun.
  - right. pose proof Hwp as Hthrow.
    unfold word_positions in Hthrow. rewrite index_pieces_record_all in Hthrow.
    destruct (record_all_Throw _ [] _ (List.Forall_nil _) Hthrow) as [-> Hex]. split.
    + apply List.Exists_exists in Hex as (token & Hin & Hinh).
      apply List.Exists_exists. exists (fst token). split; [apply in_map, Hin | exact Hinh].
    + unfold processArticle. rewrite Hwp. reflexivity.
Qed.

Lemma content_words_lowercase content word :
  In word (content_words content) -> toLowerCase word = word.
Proof.
  unfold content_words. intros Hin.
  apply in_map_iff in Hin as ([word' p] & Hfst & Htoken). simpl in Hfst. subst word'.
  destruct (piece_tokens_occurrences _ _ _ _ Htoken) as (_ & _ & Hsub).
  rewrite Nat.sub_0_r, split_word_boundary_concat in Hsub.
  rewrite <- Hsub at 1. rewrite toLowerCase_substring, toLowerCase_idempotent.
  exact Hsub.
Qed.

(** The content is lowercased before it is split, so of the names on
    [Object.prototype] only the two without a capital can be met. *)
Lemma inherited_lowercase word :
  toLowerCase word = word ->
  inherited word = true <-> word = "constructor" \/ word = "__proto__".
Proof.
  intros Hlow. split.
  - unfold inherited. intros H. apply existsb_exists in H as (name & Hin & Heq).
    apply String.eqb_eq in Heq. subst name. unfold object_prototype_keys in Hin.
    simpl in Hin.
    repeat (destruct Hin as [<-|Hin];
            [first [left; reflexivity | right; reflexivity
                   | vm_compute in Hlow; discriminate]|]).
    destruct Hin.
  - intros [->| ->]; reflexivity.
Qed.

(** X18.  An article cannot be indexed when its content holds, in any
    case, the word [constructor] or the word [__proto__]: the loop finds
    the property inherited from [Object.prototype] where it expects its own
    array, and [processArticle] throws a [TypeError] before it calls the
    store or the cache, leaving the state as it was but for the logged
    error.  On every other content it succeeds when the store rejects no
    more calls than there are retries. *)
Theorem processArticle_and_prototype_words
        (articleId content : string) (w : world) :
  rejections (store_faults w) <= retries ->
  (Forall (fun word => word <> "constructor" /\ word <> "__proto__")
          (content_words content)
   /\ exists w', processArticle articleId content w = (Ok tt, w'))
  \/ (Exists (fun word => word = "constructor" \/ word = "__proto__")
             (content_words content)
      /\ processArticle articleId content w
         = (Throw TypeError, with_log (Error, "Error in processArticle") w)).
Proof.
  intros Hstore.
  destruct (processArticle_inherited_words articleId content w Hstore)
    as [[Hall Hrun]|[Hex Hrun]]; [left | right]; (split; [|exact Hrun]).
  - apply List.Forall_forall. intros word Hin.
    rewrite List.Forall_forall in Hall. specialize (Hall _ Hin).
    split; intros ->; discriminate.
  - apply List.Exists_exists in Hex as (word & Hin & Hinh).
    apply List.Exists_exists. exists word. split; [exact Hin|].
    apply (inherited_lowercase _ (content_words_lowercase _ _ Hin)), Hinh.
Qed.

Lemma processArticle_and_prototype_words_witness :
  (Forall (fun word => word <> "constructor" /\ word <> "__proto__")
          (content_words "The Constructor runs first")
   /\ exists w', processArticle "1" "The Constructor runs first" indexed_world = (Ok tt, w'))
  \/ (Exists (fun word => word = "constructor" \/ word = "__proto__")
             (content_words "The Constructor runs first")
      /\ processArticle "1" "The Constructor runs first" indexed_world
         = (Throw TypeError, with_log (Error, "Error in processArticle") indexed_world)).
Proof.
  apply (processArticle_and_prototype_words "1" "The Constructor runs first" indexed_world).
  vm_compute. lia.
Defined.

(** ** Entries that cannot be read, and the entry of a query *)

Lemma getCachedResult_value key w v w' :
  getCachedResult key w = (Ok v, w') ->
  v = JNull \/ exists seconds, redis w !! key = Some (Text v, seconds).
Proof.
  rewrite getCachedResult_attempt. unfold try_catch.
  destruct (pRetry (read_attempt key) retries w) as [[v0|e] w1] eqn:E; intros H.
  - inversion H; subst. apply (pRetry_read_value _ _ _ _ _ E).
  - inversion H. left. reflexivity.
Qed.

(** Whatever is held under a key, if it is not the text of a value the
    read ends in a miss. *)
Lemma cache_unreadable_miss key w :
  (forall v seconds, redis w !! key <> Some (Text v, seconds)) ->
  cache_miss key w = true.
Proof.
  intros Hnone. unfold cache_miss.
  destruct (getCachedResult key w) as [[v|e] w1] eqn:E.
  - destruct (getCachedResult_value _ _ _ _ E) as [->|[seconds Hentry]];
      [reflexivity | destruct (Hnone _ _ Hentry)].
  - destruct (getCachedResult_total key w) as (v & w2 & E'). congruence.
Qed.

(** X10.  An entry whose text does not parse does not fail [findWords]
    and does not stay: whatever the cache does to the reads, the call goes
    on as on a miss, returns the result built from the store and, when the
    cache accepts the write within the retries, leaves that result under
    the key in place of the text. *)
Theorem findWords_replaces_malformed_entry
        (words : list string) (seconds : nat) (w : world) :
  redis w !! cacheKey_findWords (sort words) = Some (Malformed, seconds) ->
  rejections (store_faults w) <= retries ->
  rejections (set_faults w) <= retries ->
  exists w',
    findWords words w
    = (Ok (Fresh (fresh_results (sort words) (wordIndex w))), sort words, w')
    /\ redis w' !! cacheKey_findWords (sort words)
       = Some (Text (results_json (fresh_results (sort words) (wordIndex w))), 600).
Proof.
  intros Hentry Hstore Hset.
  assert (cache_miss (cacheKey_findWords (sort words)) w = true) as Hmiss.
  { apply cache_unreadable_miss. intros v s. rewrite Hentry. discriminate. }
  destruct (findWords_sorted_miss (sort words) w Hmiss Hstore)
    as (v & w1 & w' & _ & Hrun & _ & Hcache).
  exists w'. split; [unfold findWords; rewrite Hrun; reflexivity|].
  apply Hcache, Hset.
Qed.

Lemma findWords_replaces_malformed_entry_witness :
  exists w',
    findWords ["old"] malformed_world
    = (Ok (Fresh (fresh_results (sort ["old"]) (wordIndex malformed_world))),
       sort ["old"], w')
    /\ redis w' !! cacheKey_findWords (sort ["old"])
       = Some (Text (results_json (fresh_results (sort ["old"])
                                                 (wordIndex malformed_world))), 600).
Proof.
  apply (findWords_replaces_malformed_entry ["old"] 600 malformed_world).
  - vm_compute. reflexivity.
  - vm_compute. lia.
  - vm_compute. lia.
Defined.

(** *** The cache entry of [findWords] *)

Lemma reads_first_then key w w1 w2 :
  reads_first key w w1 -> calls_on key w1 w2 -> reads_first key w w2.
Proof.
  intros (c1 & E1 & F1) (c2 & E2 & F2). exists (c1 ++ c2). split.
  - rewrite E2, E1, <- app_assoc. reflexivity.
  - apply Forall_app. split; assumption.
Qed.

Lemma reads_first_bind {A B} key (m : M A) (k : A -> M B) :
  preserves (reads_first key) m ->
  (forall a, preserves (calls_on key) (k a)) ->
  preserves (reads_first key) (m ≫= k).
Proof.
  intros Hm Hk w r w' H. unfold mbind, M_bind in H.
  destruct (m w) as [[a|e] w1] eqn:E.
  - eapply reads_first_then; [eapply Hm, E | eapply Hk, H].
  - inversion H; subst. eapply Hm, E.
Qed.

Lemma reads_first_try_catch {A} key (body : M A) (handler : error -> M A) :
  preserves (reads_first key) body ->
  (forall e, preserves (calls_on key) (handler e)) ->
  preserves (reads_first key) (try_catch body handler).
Proof.
  intros Hb Hh w r w' H. unfold try_catch in H.
  destruct (body w) as [[a|e] w1] eqn:E.
  - inversion H; subst. eapply Hb, E.
  - eapply reads_first_then; [eapply Hb, E | eapply Hh, H].
Qed.

Lemma Forall_repeat_key key c n :
  call_key c = key -> Forall (fun c => call_key c = key) (repeat c n).
Proof.
  intros Hc. apply List.Forall_forall. intros c' Hin.
  apply repeat_spec in Hin. rewrite Hin. exact Hc.
Qed.

Lemma getCachedResult_reads_first key : preserves (reads_first key) (getCachedResult key).
Proof.
  intros w r w' H. rewrite getCachedResult_attempt in H. unfold try_catch in H.
  destruct (pRetry (read_attempt key) retries w) as [[v|e] w1] eqn:E;
    destruct (pRetry_repeats _ (Get key) retries (read_attempt_one_call key) _ _ _ E)
    as ([|reads] & Hreads & Hcalls); try lia;
    inversion H; subst; exists (repeat (Get key) reads);
    (split; [exact Hcalls | apply Forall_repeat_key; reflexivity]).
Qed.

Lemma findWords_sorted_reads_first words :
  preserves (reads_first (cacheKey_findWords words)) (findWords_sorted words).
Proof.
  unfold findWords_sorted. apply reads_first_try_catch.
  - apply reads_first_bind; [apply getCachedResult_reads_first|].
    intros cached. destruct (json_truthy cached).
    + by_frame @preserves_ret.
    + by_frame @preserves_bind;
        [apply same_calls_on; unfold Prisma.wordIndex_findMany; frame|].
      intros wordIndexes.
      by_frame @preserves_bind; [apply setCachedResult_calls_on|].
      intros _. by_frame @preserves_ret.
  - intros e. apply same_calls_on. frame.
Qed.

(** What a run of [findWords] that returned went through. *)
Lemma findWords_sorted_Cached_inv words w v w' :
  findWords_sorted words w = (Ok (Cached v), w') ->
  getCachedResult (cacheKey_findWords words) w = (Ok v, w') /\ json_truthy v = true.
Proof.
  unfold findWords_sorted. intros H. apply try_catch_rethrow_Ok in H.
  unfold mbind at 1, M_bind at 1 in H.
  destruct (getCachedResult (cacheKey_findWords words) w) as [[v0|e] w1] eqn:Hget;
    [|discriminate].
  destruct (json_truthy v0) eqn:Hv.
  - inversion H; subst. split; [reflexivity | exact Hv].
  - cbv zeta in H. unfold mbind at 1, M_bind at 1 in H.
    destruct (pRetry _ retries w1) as [[rows|e] w2]; [|discriminate].
    unfold mbind, M_bind in H.
    destruct (setCachedResult _ _ w2) as [[[]|e] w3]; inversion H.
Qed.

Lemma findWords_sorted_Fresh_inv words w results w' :
  findWords_sorted words w = (Ok (Fresh results), w') ->
  exists v w1 rows w2,
    getCachedResult (cacheKey_findWords words) w = (Ok v, w1)
    /\ pRetry (Prisma.wordIndex_findMany (List.map toLowerCase words)) retries w1
       = (Ok rows, w2)
    /\ setCachedResult (cacheKey_findWords words) (results_json results) w2 = (Ok tt, w').
Proof.
  unfold findWords_sorted. intros H. apply try_catch_rethrow_Ok in H.
  unfold mbind at 1, M_bind at 1 in H.
  destruct (getCachedResult (cacheKey_findWords words) w) as [[v0|e] w1] eqn:Hget;
    [|discriminate].
  destruct (json_truthy v0) eqn:Hv; [inversion H|].
  cbv zeta in H. unfold mbind at 1, M_bind at 1 in H.
  destruct (pRetry _ retries w1) as [[rows|e] w2] eqn:Hquery; [|discriminate].
  unfold mbind, M_bind in H.
  destruct (setCachedResult _ _ w2) as [[[]|e] w3] eqn:Hset; inversion H; subst.
  exists v0, w1, rows, w2.
  split; [first [reflexivity | assumption]|].
  split; [first [reflexivity | assumption]|]. exact Hset.
Qed.

Lemma setCachedResult_issues key data w r w' :
  setCachedResult key data w = (r, w') ->
  exists writes,
    redis_calls w' = redis_calls w ++ SetEx key (Text data) 600 :: writes.
Proof.
  unfold setCachedResult, try_catch. intros H.
  destruct (pRetry (Redis.set key (Text data) 600) retries w) as [[[]|e] w1] eqn:E;
    destruct (pRetry_repeats _ (SetEx key (Text data) 600) retries
                (set_one_call key (Text data) 600) _ _ _ E)
    as ([|writes] & Hwrites & Hcalls); try lia;
    inversion H; subst; exists (repeat (SetEx key (Text data) 600) writes);
    exact Hcalls.
Qed.

Lemma findWords_works_on_entry words w :
  works_on_entry (cacheKey_findWords (sort words)) words w.
Proof.
  unfold works_on_entry, findWords.
  destruct (findWords_sorted (sort words) w) as [r w'] eqn:E. simpl.
  split; [eapply findWords_sorted_reads_first, E|].
  split; [eapply findWords_sorted_redis_elsewhere, E|].
  split; [|split].
  - intros v seconds Hentry Hv Hplan.
    pose proof (getCachedResult_hit_at_once _ _ _ _ Hentry Hplan) as Hget.
    assert (findWords_sorted (sort words) w
            = (Ok (Cached v),
               with_get_faults (List.tl (get_faults w))
                 (with_call (Get (cacheKey_findWords (sort words))) w))) as Hrun.
    { unfold findWords_sorted. apply try_catch_Ok.
      rewrite (bind_run _ _ _ _ _ Hget), Hv. reflexivity. }
    congruence.
  - intros v ->. apply findWords_sorted_Cached_inv in E as [Hget Hv].
    destruct (getCachedResult_value _ _ _ _ Hget) as [->|Hentry];
      [discriminate | exact Hentry].
  - intros results ->.
    apply findWords_sorted_Fresh_inv in E as (v & w1 & rows & w2 & Hget & Hquery & Hset).
    pose proof (getCachedResult_reads_first _ _ _ _ Hget) as (reads & Hreads & _).
    pose proof (findMany_same redis_calls _ _ ltac:(reflexivity) _ _ _ Hquery) as Gk.
    pose proof (getCachedResult_same set_faults ltac:(reflexivity) ltac:(reflexivity)
                  _ ltac:(reflexivity) _ _ _ Hget) as Ft.
    pose proof (findMany_same set_faults _ _ ltac:(reflexivity) _ _ _ Hquery) as Gt.
    unfold same in Gk, Ft, Gt.
    destruct (setCachedResult_issues _ _ _ _ _ Hset) as (writes & Hwrites).
    split.
    + eexists. split.
      * rewrite Hwrites, Gk, Hreads, <- app_assoc. reflexivity.
      * apply in_or_app. right. left. reflexivity.
    + intros Hplan.
      destruct (setCachedResult_writes (cacheKey_findWords (sort words))
                  (results_json results) w2)
        as (w'' & Hset' & Hredis); [rewrite Gt, Ft; exact Hplan|].
      rewrite Hset in Hset'. inversion Hset'; subst w''.
      rewrite Hredis. apply lookup_insert_eq.
Qed.

(** C1, as amended.  For query words that are already lowercase, the cache
    entry that [findWords] reads and writes is the one named [find-words:]
    followed by the sorted, comma-joined, lowercased words, and a
    rearrangement of the same words (duplicates kept) reads and writes
    that same entry: each of the two calls first issues the read of that
    key and issues no command about another key, returns the value held
    under it when there is one, and writes the result it builds from the
    store under it. *)
Theorem findWords_cache_entry (words words' : list string) (w w' : world) :
  Forall (fun word => toLowerCase word = word) words ->
  Permutation words words' ->
  works_on_entry ("find-words:" ++ join "," (sort (List.map toLowerCase words)))
                 words w
  /\ works_on_entry ("find-words:" ++ join "," (sort (List.map toLowerCase words)))
                    words' w'.
Proof.
  intros Hlow Hperm. rewrite (map_lowercase_id _ Hlow). split.
  - apply findWords_works_on_entry.
  - rewrite (sort_permutation_eq _ _ Hperm). apply findWords_works_on_entry.
Qed.

Lemma findWords_cache_entry_witness :
  Forall (fun word => toLowerCase word = word) ["world"; "hello"]
  /\ Permutation ["world"; "hello"] ["hello"; "world"]
  /\ works_on_entry "find-words:hello,world" ["world"; "hello"] tested_world
  /\ works_on_entry "find-words:hello,world" ["hello"; "world"]
                    (snd (findWords ["world"; "hello"] tested_world)).
Proof.
  split; [repeat constructor|]. split; [apply perm_swap|].
  apply (findWords_cache_entry ["world"; "hello"] ["hello"; "world"]
           tested_world (snd (findWords ["world"; "hello"] tested_world))).
  - repeat constructor.
  - apply perm_swap.
Defined.

(** The two runs behind the witness: the first call misses, asks the store
    and writes the entry; the second, with the words in the other order,
    reads the same entry and returns what the first wrote. *)
Example findWords_cache_entry_runs :
  redis_calls (snd (findWords ["world"; "hello"] tested_world))
  = [ Get "find-words:hello,world";
      SetEx "find-words:hello,world"
            (Text (JObj [ ("hello", JArr [ JObj [ ("article_id", JStr "1");
                                                   ("offsets", JArr [JNum 0; JNum 12]) ] ]);
                          ("world", JArr [ JObj [ ("article_id", JStr "1");
                                                   ("offsets", JArr [JNum 6]) ] ]) ]))
            600 ]
  /\ fst (fst (findWords ["hello"; "world"]
                 (snd (findWords ["world"; "hello"] tested_world))))
     = Ok (Cached
             (JObj [ ("hello", JArr [ JObj [ ("article_id", JStr "1");
                                              ("offsets", JArr [JNum 0; JNum 12]) ] ]);
                     ("world", JArr [ JObj [ ("article_id", JStr "1");
                                              ("offsets", JArr [JNum 6]) ] ]) ]))
  /\ redis_calls (snd (findWords ["hello"; "world"]
                         (snd (findWords ["world"; "hello"] tested_world))))
     = redis_calls (snd (findWords ["world"; "hello"] tested_world))
       ++ [ Get "find-words:hello,world" ].
Proof. repeat split; vm_compute; reflexivity. Qed.
